(** * Qondense: symmetry extraction, noncontextual decomposition and the
      classical objective of contextual-subspace VQE

    A shallow embedding of [src/qondense/tapering.py] and
    [src/qreduce/cs_vqe.py].  Pauli labels are lists over the alphabet
    I, X, Y, Z; binary (symplectic) matrices are lists of rows of booleans;
    Python floats are idealised as real numbers; a Python dictionary whose
    insertion order matters is an association list, and an object's attribute
    dictionary is a finite map keyed by attribute name.  A call that may
    raise returns a [result].  The helpers of the repository that are not in
    these two files (the GF(2) toolkit, the Pauli algebra, the projection
    class) are either parameters of a section or modelled from the spec, and
    say so.  The definitions come first, the properties after them. *)

From stdpp Require Import gmap strings pretty.
From Stdlib Require Import List Bool Arith Lia ZArith Reals Lra Permutation Sorted.
Import ListNotations.

(* ================================================================== *)
(** ** Binary vectors and matrices over GF(2) *)
(* ================================================================== *)

Module GF2.

Definition vec := list bool.
Definition matrix := list vec.

Definition zeros (w : nat) : vec := repeat false w.

(** Element-wise sum modulo 2 of two rows. *)
Fixpoint vxor (a b : vec) : vec :=
  match a, b with
  | x :: a', y :: b' => xorb x y :: vxor a' b'
  | _, _ => []
  end.

(** Inner product modulo 2. *)
Fixpoint dot (a b : vec) : bool :=
  match a, b with
  | x :: a', y :: b' => xorb (x && y) (dot a' b')
  | _, _ => false
  end.

(** [row.any()]: some entry is non-zero. *)
Definition any (r : vec) : bool := existsb (fun b => b) r.

Definition nth_row (M : matrix) (i : nat) : vec := nth i M [].
Definition column (M : matrix) (j : nat) : vec :=
  map (fun r => nth j r false) M.

(** In-place assignment [l[i] = x] (no change when [i] is out of range; the
    callers below only use indices in range). *)
Fixpoint upd {A : Type} (i : nat) (x : A) (l : list A) : list A :=
  match l, i with
  | [], _ => []
  | _ :: l', O => x :: l'
  | y :: l', S i' => y :: upd i' x l'
  end.

(** [M[[k, i]] = M[[i, k]]]: exchange of two rows. *)
Definition swap_rows (M : matrix) (k i : nat) : matrix :=
  upd k (nth_row M i) (upd i (nth_row M k) M).

(** [(M + einsum('i,j->ij', d, p)) % 2]: entry [(k, c)] becomes
    [M[k][c] + d[k] * p[c]] modulo 2. *)
Fixpoint add_scaled (dk : bool) (p r : vec) : vec :=
  match r, p with
  | x :: r', y :: p' => xorb x (dk && y) :: add_scaled dk p' r'
  | _, _ => []
  end.

Fixpoint add_outer (d : vec) (p : vec) (M : matrix) : matrix :=
  match M, d with
  | r :: M', dk :: d' => add_scaled dk p r :: add_outer d' p M'
  | _, _ => []
  end.

(** [np.argmax(col[row_i:]) + row_i]: first index at or after [row_i] that
    holds a one ([row_i] itself when there is none). *)
Fixpoint first_true (l : vec) : nat :=
  match l with
  | [] => 0
  | true :: _ => 0
  | false :: l' => S (first_true l')
  end.

Definition argmax_from (col : vec) (row_i : nat) : nat :=
  let tail := skipn row_i col in
  if any tail then first_true tail + row_i else row_i.

(** One pivot step of the elimination: bring the pivot row to [row_i] and
    clear column [col_j] in every other row. *)
Definition pivot_step (M : matrix) (row_i col_j : nat) : matrix :=
  let k := argmax_from (column M col_j) row_i in
  let M1 := swap_rows M k row_i in
  let Om_j := upd row_i false (column M1 col_j) in
  let i_jth_row := nth_row M1 row_i in
  add_outer Om_j i_jth_row M1.

(** The [while row_i < m_rows and col_j < n_cols] loop.  Every iteration
    advances [col_j], so [n_cols - col_j] iterations always suffice; [fuel]
    counts them. *)
Fixpoint gaus_loop (fuel : nat) (n_cols : nat) (M : matrix) (row_i col_j : nat)
  : matrix :=
  match fuel with
  | O => M
  | S fuel' =>
      if (row_i <? length M) && (col_j <? n_cols) then
        if any (skipn row_i (column M col_j))
        then gaus_loop fuel' n_cols (pivot_step M row_i col_j) (S row_i) (S col_j)
        else gaus_loop fuel' n_cols M row_i (S col_j)
      else M
  end.

(** Modelled from the spec: [utils/symplectic_toolkit.gf2_gaus_elim] is not
    among the sources.  "Perform exact Gaussian elimination over GF(2) to
    reduced row-echelon form": column by column, the first row at or below
    the current one with a one is swapped up and used to clear the column in
    all other rows.  [n_cols] is the second component of the array's shape. *)
Definition gf2_gaus_elim (n_cols : nat) (M : matrix) : matrix :=
  gaus_loop n_cols n_cols M 0 0.

(** [M.T] for an array of shape [(length M, n_cols)]. *)
Definition transpose (n_cols : nat) (M : matrix) : matrix :=
  map (column M) (seq 0 n_cols).

(** [np.eye(n, dtype=int)]. *)
Fixpoint eye (n : nat) : matrix :=
  match n with
  | O => []
  | S n' => (true :: zeros n') :: map (cons false) (eye n')
  end.

(** [np.hstack((A, B))] for arrays with the same number of rows. *)
Fixpoint hstack (A B : matrix) : matrix :=
  match A, B with
  | a :: A', b :: B' => (a ++ b) :: hstack A' B'
  | _, _ => []
  end.

(** Modelled from the spec: [utils/symplectic_toolkit.gf2_basis_for_gf2_rref]
    is not among the sources.  "Compute a basis for the right null space
    (kernel) of the reduced matrix over GF(2)": the transposed matrix is
    extended by an identity block and eliminated; the rows whose left block
    vanished carry, in their right block, the kernel basis. *)
Definition gf2_basis_for_gf2_rref (n_cols : nat) (R : matrix) : matrix :=
  let m := length R in
  let rrf := gf2_gaus_elim (m + n_cols) (hstack (transpose n_cols R) (eye n_cols)) in
  map (skipn m) (filter (fun r => negb (any (firstn m r))) rrf).

(** Linear combination of the rows of [M] with coefficients [c]. *)
Fixpoint lincomb (w : nat) (c : vec) (M : matrix) : vec :=
  match c, M with
  | ck :: c', r :: M' =>
      if ck then vxor r (lincomb w c' M') else lincomb w c' M'
  | _, _ => zeros w
  end.

(** Linear independence over GF(2) of rows of width [w]: only the trivial
    combination gives the zero row. *)
Definition lin_indep (w : nat) (M : matrix) : Prop :=
  forall c : vec, length c = length M -> lincomb w c M = zeros w ->
                  c = zeros (length M).

Definition width_ok (w : nat) (M : matrix) : Prop :=
  Forall (fun r => length r = w) M.

(** The [i]-th unit vector of length [n]. *)
Definition unit_vec (n i : nat) : vec := upd i true (zeros n).

(** [v] is orthogonal to every row of [M]. *)
Definition orthogonal (M : matrix) (v : vec) : Prop :=
  forall r, In r M -> dot r v = false.

(** What every row [A | B] of the extended matrix satisfies while
    [gf2_basis_for_gf2_rref] eliminates [R.T | I]: the left block is the
    product of [R] with the right block. *)
Definition kernel_inv (m w : nat) (R : matrix) (row : vec) : Prop :=
  length row = m + w /\
  firstn m row = map (fun r => dot r (skipn m row)) R.

(** A property of matrices kept by the two row operations of the
    elimination: exchanging two rows, and adding one row to some of the
    others. *)
Definition rowop_closed (P : matrix -> Prop) : Prop :=
  (forall M k i, k < length M -> i < length M -> P M -> P (swap_rows M k i)) /\
  (forall M d i, length d = length M -> i < length M -> nth i d false = false ->
                 P M -> P (add_outer d (nth_row M i) M)).

End GF2.

(* ================================================================== *)
(** ** Python exceptions *)
(* ================================================================== *)

Inductive exn : Type :=
  | ValueError (msg : string)
  | IndexError
  | KeyError (key : string)
  | TypeError (msg : string)
  | AttributeError (name : string)
  | AssertionError.

Inductive result (A : Type) : Type :=
  | Ok (a : A)
  | Raise (e : exn).
Arguments Ok {A} a.
Arguments Raise {A} e.

Definition bind {A B : Type} (r : result A) (k : A -> result B) : result B :=
  match r with
  | Ok a => k a
  | Raise e => Raise e
  end.

Notation "'do' x <- r ; k" := (bind r (fun x => k))
  (at level 10, x name, r at level 100, k at level 200).

(** [[f(x) for x in l]] where [f] may raise: the first failure aborts. *)
Fixpoint traverse {A B : Type} (f : A -> result B) (l : list A) : result (list B) :=
  match l with
  | [] => Ok []
  | x :: l' => do y <- f x; do ys <- traverse f l'; Ok (y :: ys)
  end.

(* ================================================================== *)
(** ** Pauli labels *)
(* ================================================================== *)

Module Pauli.
Import GF2.

(** The four single-qubit symbols of a label. *)
Inductive pauli : Type := sI | sX | sY | sZ.

(** A PauliTerm: one symbol per qubit. *)
Definition PauliTerm := list pauli.

Definition pauli_eq_dec (a b : pauli) : {a = b} + {a <> b}.
Proof. decide equality. Defined.

Definition term_eq_dec (s t : PauliTerm) : {s = t} + {s <> t} :=
  list_eq_dec pauli_eq_dec s t.

Definition xbit (p : pauli) : bool :=
  match p with sX | sY => true | _ => false end.
Definition zbit (p : pauli) : bool :=
  match p with sZ | sY => true | _ => false end.

(** Modelled from the spec: the symplectic encoding of the Pauli algebra
    library is not among the sources.  "Binary vector of length 2n, first
    half = X-support, second half = Z-support". *)
Definition symplectic_from_pauli (t : PauliTerm) : vec :=
  map xbit t ++ map zbit t.

(** Modelled from the spec: [QubitOp] is not among the sources.  One row of
    [swap_XZ_blocks()]: the same encoding "with blocks reordered to (Z,X)". *)
Definition ZX_row (t : PauliTerm) : vec :=
  map zbit t ++ map xbit t.

Definition decode1 (x z : bool) : pauli :=
  match x, z with
  | false, false => sI
  | true, false => sX
  | true, true => sY
  | false, true => sZ
  end.

Fixpoint decode (xs zs : vec) : PauliTerm :=
  match xs, zs with
  | x :: xs', z :: zs' => decode1 x z :: decode xs' zs'
  | _, _ => []
  end.

(** Modelled from the spec: [pauli_from_symplectic] is not among the
    sources.  The reverse mapping of the encoding: qubit [i] is read from
    positions [i] and [i + n] of a row of length [2n]. *)
Definition pauli_from_symplectic (p : vec) : PauliTerm :=
  let n := length p / 2 in
  decode (firstn n p) (skipn n p).

(** Two single-qubit symbols anticommute when both are non-identity and
    differ. *)
Definition anticommute1 (a b : pauli) : bool :=
  match a, b with
  | sI, _ | _, sI => false
  | sX, sX | sY, sY | sZ, sZ => false
  | _, _ => true
  end.

Fixpoint anticommuting_sites (s t : PauliTerm) : bool :=
  match s, t with
  | a :: s', b :: t' => xorb (anticommute1 a b) (anticommuting_sites s' t')
  | _, _ => false
  end.

(** Modelled from the spec: the commutation test of the Pauli algebra library
    is not among the sources.  Two terms commute (mod phase) when they
    anticommute on an even number of qubits. *)
Definition commutes (s t : PauliTerm) : bool := negb (anticommuting_sites s t).

(** Product of two single-qubit symbols: the power of the imaginary unit
    picked up, and the resulting symbol. *)
Definition mul1 (a b : pauli) : nat * pauli :=
  match a, b with
  | sI, p | p, sI => (0, p)
  | sX, sX | sY, sY | sZ, sZ => (0, sI)
  | sX, sY => (1, sZ) | sY, sZ => (1, sX) | sZ, sX => (1, sY)
  | sY, sX => (3, sZ) | sZ, sY => (3, sX) | sX, sZ => (3, sY)
  end.

Fixpoint mul_sites (s t : PauliTerm) : nat * PauliTerm :=
  match s, t with
  | a :: s', b :: t' =>
      let '(k, c) := mul1 a b in
      let '(k', r) := mul_sites s' t' in
      ((k + k') mod 4, c :: r)
  | _, _ => (0, [])
  end.

(** A complex number with integer parts, [(re, im)]: enough for the phases
    1, i, -1, -i of a Pauli product. *)
Definition gaussian := (Z * Z)%type.

Definition i_pow (k : nat) : gaussian :=
  match k mod 4 with
  | 0 => (1, 0)%Z
  | 1 => (0, 1)%Z
  | 2 => (-1, 0)%Z
  | _ => (0, -1)%Z
  end.

(** Modelled from the spec: [multiply_paulis_with_coeff] is not among the
    sources.  "Compute the product Q of the two representatives with its
    phase coefficient". *)
Definition multiply_paulis_with_coeff (s t : PauliTerm) : PauliTerm * gaussian :=
  let '(k, r) := mul_sites s t in (r, i_pow k).

(** Modelled from the spec: [multiply_paulis] is not among the sources.  The
    product label alone, the phase dropped. *)
Definition multiply_paulis (s t : PauliTerm) : PauliTerm :=
  fst (multiply_paulis_with_coeff s t).

(** Modelled from the spec: [multiply_pauli_list] is not among the sources.
    "Each subset's product reduced via Pauli multiplication to a single
    labeled term". *)
Definition multiply_pauli_list (l : list PauliTerm) : PauliTerm :=
  match l with
  | [] => []
  | t :: l' => fold_left multiply_paulis l' t
  end.

(** [label.count('X') + label.count('Y')]. *)
Definition count_XY (t : PauliTerm) : nat :=
  count_occ pauli_eq_dec t sX + count_occ pauli_eq_dec t sY.

(** Number of non-identity single-qubit factors of a label. *)
Definition weight (t : PauliTerm) : nat :=
  length (filter (fun p => if pauli_eq_dec p sI then false else true) t).

(** An Operator: label to coefficient, in insertion order. *)
Definition Operator (C : Type) := list (PauliTerm * C).

(** [op._dict[label]], [None] standing for the [KeyError]. *)
Fixpoint lookup_term {C : Type} (op : Operator C) (t : PauliTerm) : option C :=
  match op with
  | [] => None
  | (s, c) :: op' => if term_eq_dec s t then Some c else lookup_term op' t
  end.

(** Modelled from the spec: [QubitOp] is not among the sources.  Its
    [n_qubits] is the qubit count, "constant across all keys": the length of
    the labels. *)
Definition n_qubits {C : Type} (op : Operator C) : nat :=
  match op with
  | [] => 0
  | (t, _) :: _ => length t
  end.

(** Modelled from the spec: [QubitOp] is not among the sources.
    [swap_XZ_blocks()] is the symplectic matrix of the terms, one row per
    term in the order of the dictionary, blocks in the order (Z, X). *)
Definition swap_XZ_blocks (terms : list PauliTerm) : matrix := map ZX_row terms.

(** Modelled from the spec: [QubitOp.adjacency_matrix] is not among the
    sources.  Entry [(i, j)] records whether terms [i] and [j] commute. *)
Definition adjacency_matrix (terms : list PauliTerm) : matrix :=
  map (fun s => map (fun t => commutes s t) terms) terms.

(** What the spec guarantees of a Generator Set extracted from [terms]: it
    is linearly independent over GF(2) in symplectic form, each member
    commutes with each input term, and the all-identity label is not a
    member. *)
Definition generator_set_ok (n : nat) (terms gens : list PauliTerm) : Prop :=
  lin_indep (2 * n) (map symplectic_from_pauli gens) /\
  (forall g t, In g gens -> In t terms -> commutes g t = true) /\
  ~ In (repeat sI n) gens.

End Pauli.

(* ================================================================== *)
(** ** [tapering]: symmetry generators and the projection state *)
(* ================================================================== *)

Module Tapering.
Import GF2 Pauli.

(** [tapering.identify_symmetry_generators]: the ZX matrix of the
    Hamiltonian's terms is eliminated, the kernel basis of the reduced matrix
    is computed and every kernel row is decoded to a label. *)
Definition identify_symmetry_generators (n : nat) (terms : list PauliTerm)
  : list PauliTerm :=
  let ZX_symp := swap_XZ_blocks terms in
  let reduced := gf2_gaus_elim (2 * n) ZX_symp in
  let kernel := gf2_basis_for_gf2_rref (2 * n) reduced in
  map pauli_from_symplectic kernel.

(** Values held by the attributes of a [tapering] instance. *)
Inductive value : Type :=
  | VOperator (op : Operator R)
  | VNat (n : nat)
  | VState (bits : list nat)
  | VSymbol (p : pauli)
  | VTerms (ts : list PauliTerm)
  | VSector (s : list Z).

Definition get_terms (self : gmap string value) (name : string)
  : result (list PauliTerm) :=
  match self !! name with
  | Some (VTerms ts) => Ok ts
  | Some _ => Raise (TypeError name)
  | None => Raise (AttributeError name)
  end.

Definition get_symbol (self : gmap string value) (name : string) : result pauli :=
  match self !! name with
  | Some (VSymbol p) => Ok p
  | Some _ => Raise (TypeError name)
  | None => Raise (AttributeError name)
  end.

(** Modelled from the spec: [S3_projection.__init__] is not among the
    sources.  The Projection Service is "constructed from (stabilizer Pauli
    terms, their fixed ±1 eigenvalues, a designated single-qubit Pauli symbol
    to rotate onto)": it records its three arguments on the instance. *)
Definition S3_projection_init (self : gmap string value)
    (stabilizers : list PauliTerm) (eigenvalues : list Z) (target_sqp : pauli)
  : gmap string value :=
  <["target_sqp" := VSymbol target_sqp]>
    (<["eigenvalues" := VSector eigenvalues]>
       (<["stabilizers" := VTerms stabilizers]> self)).

Section Instance.

(** [measure_operator(pauli, ref_state)] of the operator toolkit: the
    eigenvalue of a term on a computational-basis state. *)
Variable measure_operator : PauliTerm -> list nat -> Z.

(** [tapering.identify_symmetry_sector]. *)
Definition identify_symmetry_sector (symmetry_ops : list PauliTerm)
    (ref_state : list nat) : list Z :=
  map (fun pauli => measure_operator pauli ref_state) symmetry_ops.

(** [tapering.__init__]. *)
Definition init (hamiltonian : Operator R) (ref_state : list nat)
    (target_sqp : pauli) : result (gmap string value) :=
  let self := <["hamiltonian" := VOperator hamiltonian]> (∅ : gmap string value) in
  let n := n_qubits hamiltonian in
  let self := <["n_qubits" := VNat n]> self in
  if negb (length ref_state =? n) then Raise AssertionError else
  let self := <["ref_state" := VState ref_state]> self in
  let self := <["target_sqp" := VSymbol target_sqp]> self in
  let symmetry_ops := identify_symmetry_generators n (map fst hamiltonian) in
  let self := <["symmetry_ops" := VTerms symmetry_ops]> self in
  let symmetry_sec := identify_symmetry_sector symmetry_ops ref_state in
  let self := <["symmetry_sec" := VSector symmetry_sec]> self in
  let self := <["n_taper" := VNat (length symmetry_ops)]> self in
  Ok (S3_projection_init self symmetry_ops symmetry_sec target_sqp).

End Instance.

(** [tapering.update_S3_projection]. *)
Definition update_S3_projection (self : gmap string value)
    (symmetry_sector : list Z) : result (gmap string value) :=
  do stabilizers <- get_terms self "symmetry_ops";
  do target_sqp <- get_symbol self "target_sqp";
  Ok (S3_projection_init self stabilizers symmetry_sector target_sqp).


(** The attributes [tapering.__init__] computes from its arguments, as they
    stand on an instance. *)
Definition fields_as_constructed (measure_operator : PauliTerm -> list nat -> Z)
    (hamiltonian : Operator R) (ref_state : list nat) (target_sqp : pauli)
    (self : gmap string value) : Prop :=
  let symmetry_ops :=
    identify_symmetry_generators (n_qubits hamiltonian) (map fst hamiltonian) in
  self !! "hamiltonian" = Some (VOperator hamiltonian) /\
  self !! "ref_state" = Some (VState ref_state) /\
  self !! "n_qubits" = Some (VNat (n_qubits hamiltonian)) /\
  self !! "symmetry_ops" = Some (VTerms symmetry_ops) /\
  self !! "symmetry_sec"
  = Some (VSector (identify_symmetry_sector measure_operator symmetry_ops
                     ref_state)) /\
  self !! "target_sqp" = Some (VSymbol target_sqp) /\
  self !! "stabilizers" = Some (VTerms symmetry_ops).

End Tapering.

(* ================================================================== *)
(** ** Python and numpy helpers used by [cs_vqe] *)
(* ================================================================== *)

Module Py.
Import GF2.

(** Insertion of [x] in front of the first element that does not precede it:
    with [sort_by] below this is a stable sort, as [sorted] and [np.lexsort]
    are. *)
Fixpoint insert_by {A : Type} (le : A -> A -> bool) (x : A) (l : list A) : list A :=
  match l with
  | [] => [x]
  | y :: l' => if le x y then x :: y :: l' else y :: insert_by le x l'
  end.

Fixpoint sort_by {A : Type} (le : A -> A -> bool) (l : list A) : list A :=
  match l with
  | [] => []
  | x :: l' => insert_by le x (sort_by le l')
  end.

(** [sorted(l, key=key)] for a key with natural-number values. *)
Definition sorted_by_key {A : Type} (key : A -> nat) (l : list A) : list A :=
  sort_by (fun x y => key x <=? key y) l.

(** Lexicographic order on rows of booleans, [False < True]. *)
Fixpoint lex_le (a b : vec) : bool :=
  match a, b with
  | [], _ => true
  | _ :: _, [] => false
  | x :: a', y :: b' =>
      if Bool.eqb x y then lex_le a' b' else negb x
  end.

(** [np.lexsort(M.T)]: the indices that sort the rows of [M], the last column
    being the primary key, then the one before it, and so on. *)
Definition lexsort_rows (M : matrix) : list nat :=
  sort_by (fun i j => lex_le (rev (nth_row M i)) (rev (nth_row M j)))
          (seq 0 (length M)).

(** [np.any(np.diff(M, axis=0), 1)]: for each pair of adjacent rows, whether
    they differ somewhere. *)
Fixpoint adjacent_differ (M : matrix) : list bool :=
  match M with
  | r1 :: ((r2 :: _) as M') => any (vxor r2 r1) :: adjacent_differ M'
  | _ => []
  end.

(** [np.where(mask)[0]]: the positions holding [True]. *)
Fixpoint where_from (i : nat) (mask : list bool) : list nat :=
  match mask with
  | [] => []
  | b :: mask' => if b then i :: where_from (S i) mask' else where_from (S i) mask'
  end.
Definition where_true (mask : list bool) : list nat := where_from 0 mask.

(** [itertools.combinations(l, k)]: the [k]-element subsequences of [l] in
    lexicographic order of positions. *)
Fixpoint combinations {A : Type} (l : list A) (k : nat) : list (list A) :=
  match k, l with
  | O, _ => [[]]
  | S _, [] => []
  | S k', x :: l' => map (cons x) (combinations l' k') ++ combinations l' k
  end.

(** [l.index(x)]: the first position of [x]; a [ValueError] when absent. *)
Fixpoint index {A : Type} (eq_dec : forall a b : A, {a = b} + {a <> b})
    (x : A) (l : list A) : result nat :=
  match l with
  | [] => Raise (ValueError "x not in list")
  | y :: l' =>
      if eq_dec y x then Ok 0
      else do i <- index eq_dec x l'; Ok (S i)
  end.

End Py.

(* ================================================================== *)
(** ** [cs_vqe]: noncontextual decomposition *)
(* ================================================================== *)

Module CsVqe.
Import GF2 Pauli Py.

(** [ZX_reduced[~np.all(ZX_reduced == 0, axis=1)]]: the all-zero rows are
    dropped. *)
Definition drop_zero_rows (M : matrix) : matrix := filter any M.

(** [np.hstack((X, Z))] with [Z = M[:, :n]] and [X = M[:, n:]]. *)
Definition swap_blocks_back (n : nat) (M : matrix) : matrix :=
  map (fun r => skipn n r ++ firstn n r) M.

(** One row of [kernel - sympauli]: integer differences of the entries. *)
Fixpoint row_minus (k s : vec) : list Z :=
  match k, s with
  | a :: k', b :: s' => (Z.b2z a - Z.b2z b)%Z :: row_minus k' s'
  | _, _ => []
  end.

(** [diff.any(axis=1)] on one row of integers. *)
Definition any_nonzero (d : list Z) : bool := existsb (fun z => negb (z =? 0)%Z) d.

(** [list(np.where(~diff.any(axis=1))[0])] for [diff = kernel - sympauli]:
    the indices of the kernel rows from which [sympauli] does not differ. *)
Definition matching_kernel_rows (kernel : matrix) (sympauli : vec) : list nat :=
  where_true (map (fun k => negb (any_nonzero (row_minus k sympauli))) kernel).

(** The loop building [unique_rows]: a row of the reduced matrix is appended
    when the list of matching kernel rows is empty. *)
Definition unique_rows (kernel XZ_reduced : matrix) : matrix :=
  fold_left
    (fun acc sympauli =>
       match matching_kernel_rows kernel sympauli with
       | [] => acc ++ [sympauli]
       | _ :: _ => acc
       end)
    XZ_reduced [].

(** [np.stack(rows)]: refuses an empty list. *)
Definition np_stack (rows : matrix) : result matrix :=
  match rows with
  | [] => Raise (ValueError "need at least one array to stack")
  | _ => Ok rows
  end.

(** The kernel of the reduced ZX matrix of the noncontextual terms, with the
    reduced matrix back in XZ order: what [independent_generators] computes
    before the clique candidates are selected. *)
Definition reduced_and_kernel (n : nat) (terms : list PauliTerm) : matrix * matrix :=
  let ZX_symp := swap_XZ_blocks terms in
  let ZX_reduced := drop_zero_rows (gf2_gaus_elim (2 * n) ZX_symp) in
  let kernel := gf2_basis_for_gf2_rref (2 * n) ZX_reduced in
  (swap_blocks_back n ZX_reduced, kernel).

(** The clique representatives picked from the candidates: the candidates are
    ordered by their row of the commutation matrix and a candidate is kept
    when its row differs from the row just before it. *)
Definition pick_cliquereps (cliquereps : list PauliTerm) : list PauliTerm :=
  let commutation_matrix := adjacency_matrix cliquereps in
  let sort_order := lexsort_rows commutation_matrix in
  let sorted_comm_mat := map (nth_row commutation_matrix) sort_order in
  let row_mask := true :: adjacent_differ sorted_comm_mat in
  map (fun ii => nth (fst ii) cliquereps [])
      (filter snd (combine sort_order row_mask)).

(** The indices kept from [order] by a mask whose first entry is [b0] and
    whose later entries say whether a row differs from the row before it:
    the list comprehension at the end of [independent_generators], seen on
    the indices. *)
Definition kept (row : nat -> vec) (b0 : bool) (order : list nat) : list nat :=
  map fst (filter snd (combine order (b0 :: adjacent_differ (map row order)))).

(** [cs_vqe.independent_generators], on the terms of [ham_noncontextual]. *)
Definition independent_generators (n : nat) (terms : list PauliTerm)
  : result (list PauliTerm * list PauliTerm) :=
  let '(XZ_reduced, kernel) := reduced_and_kernel n terms in
  do anti_kernel <- np_stack (unique_rows kernel XZ_reduced);
  let generators := map pauli_from_symplectic kernel in
  let cliquereps := map pauli_from_symplectic anti_kernel in
  Ok (generators, pick_cliquereps cliquereps).

(** The GF(2) span of the rows of [M] (rows of width [w]). *)
Definition in_span (w : nat) (M : matrix) (v : vec) : Prop :=
  exists c : vec, length c = length M /\ lincomb w c M = v.

(** The selection of clique candidates as the spec words it: the rows kept
    are exactly the rows of the reduced matrix outside the span of the
    kernel. *)
Definition candidates_outside_kernel_span (n : nat) (terms : list PauliTerm) : Prop :=
  let '(XZ_reduced, kernel) := reduced_and_kernel n terms in
  forall row, In row (unique_rows kernel XZ_reduced)
              <-> In row XZ_reduced /\ ~ in_span (2 * n) kernel row.

(** Equality of two rows, as a boolean. *)
Definition vec_eqb (a b : vec) : bool :=
  if list_eq_dec Bool.bool_dec a b then true else false.

(** A set of terms is noncontextual when commutation is transitive among the
    terms that do not commute with all the others. *)
Definition noncontextual (terms : list PauliTerm) : bool :=
  let rest := filter (fun t => negb (forallb (commutes t) terms)) terms in
  forallb (fun a => forallb (fun b => forallb (fun c =>
     implb (commutes a b && commutes b c) (commutes a c)) rest) rest) rest.

(** The invariant of a decomposition as the spec words it. *)
Definition decomposition_invariant (generators cliquereps : list PauliTerm) : Prop :=
  (forall c g, In c cliquereps -> In g generators -> commutes c g = true) /\
  (forall c1 c2, In c1 cliquereps -> In c2 cliquereps -> c1 <> c2 ->
                 commutes c1 c2 = false).


(* ------------------------------------------------------------------ *)
(** *** The classical objective: parameters *)
(* ------------------------------------------------------------------ *)

Section ObjectiveParams.

(** Coefficients of the Hamiltonian, with the test [h != 0]. *)
Variable coeff : Type.
Variable czero : coeff.
Variable coeff_eq_dec : forall a b : coeff, {a = b} + {a <> b}.

(** The Pauli products of the operator toolkit. *)
Variable multiply_pauli_list : list PauliTerm -> PauliTerm.
Variable multiply_paulis : PauliTerm -> PauliTerm -> PauliTerm.

Definition is_nonzero (c : coeff) : bool :=
  if coeff_eq_dec c czero then false else true.

(** An entry of [obj_fnc_params]: [(h_G, q_indices, C_vec)]. *)
Definition ObjectiveTerm := (coeff * list nat * list coeff)%type.

(** [G_combs]: the combinations of every size from 1 to [len(G)]. *)
Definition G_combs (G : list PauliTerm) : list (list PauliTerm) :=
  flat_map (fun i => combinations G i) (seq 1 (length G)).

(** [G_closure]: each combination's product with the positions in [G] of its
    members, followed by the all-identity label with no positions. *)
Definition G_closure (n : nat) (G : list PauliTerm)
  : result (list (PauliTerm * list nat)) :=
  do closure <-
    traverse (fun comb =>
            do q_indices <- traverse (fun op => index term_eq_dec op G) comb;
            Ok (multiply_pauli_list comb, q_indices))
         (G_combs G);
  Ok (closure ++ [(repeat sI n, [])]).

(** [try: h = hamiltonian._dict[op] except: h = 0]. *)
Definition coeff_of (hamiltonian : Operator coeff) (op : PauliTerm) : coeff :=
  match lookup_term hamiltonian op with
  | Some h => h
  | None => czero
  end.

(** The body of the loop over [G_closure]. *)
Definition closure_entry (hamiltonian : Operator coeff) (C : list PauliTerm)
    (entry : PauliTerm * list nat) : ObjectiveTerm :=
  let '(G_op, q_indices) := entry in
  (coeff_of hamiltonian G_op, q_indices,
   map (fun C_op => coeff_of hamiltonian (multiply_paulis G_op C_op)) C).

(** [h_G != 0 or not np.all(np.array(C_vec) == 0)]. *)
Definition retained (t : ObjectiveTerm) : bool :=
  let '(h_G, _, C_vec) := t in
  is_nonzero h_G || negb (forallb (fun h => negb (is_nonzero h)) C_vec).

(** [cs_vqe.classical_obj_fnc_params]. *)
Definition classical_obj_fnc_params (n : nat) (hamiltonian : Operator coeff)
    (G C : list PauliTerm) : result (list ObjectiveTerm) :=
  do closure <- G_closure n G;
  Ok (fold_left
        (fun obj_fnc_params entry =>
           let t := closure_entry hamiltonian C entry in
           if retained t then obj_fnc_params ++ [t] else obj_fnc_params)
        closure []).

End ObjectiveParams.

(** The strictly increasing position lists of length [k] below [m]. *)
Definition index_subsets (m : nat) : list (list nat) :=
  flat_map (fun k => combinations (seq 0 m) k) (seq 1 m).

(** The members of [G] at the given positions. *)
Definition select (G : list PauliTerm) (q_indices : list nat) : list PauliTerm :=
  map (fun i => nth i G []) q_indices.

(* ------------------------------------------------------------------ *)
(** *** The classical objective: evaluation *)
(* ------------------------------------------------------------------ *)

Local Open Scope R_scope.

(** [input_params[key]]. *)
Definition get_param (input_params : gmap string R) (key : string) : result R :=
  match input_params !! key with
  | Some v => Ok v
  | None => Raise (KeyError key)
  end.

(** The key [f'q{i}']. *)
Definition q_key (i : nat) : string := String.append "q" (pretty i).

(** [np.prod(l)]. *)
Definition np_prod (l : list R) : R := fold_left Rmult l 1.

(** [l[i]] on a Python list. *)
Definition item {A : Type} (l : list A) (i : nat) : result A :=
  match nth_error l i with
  | Some v => Ok v
  | None => Raise IndexError
  end.

(** One iteration of the loop of [classical_obj_fnc]. *)
Definition objfnc_step (input_params : gmap string R) (t : R) (objfnc_sum : R)
    (term : R * list nat * list R) : result R :=
  let '(h_G, q_indices, h_GCs) := term in
  do qs <- traverse (fun i => get_param input_params (q_key i)) q_indices;
  let q_prod := np_prod qs in
  do c0 <- item h_GCs 0;
  do c1 <- item h_GCs 1;
  Ok (objfnc_sum + (h_G + sin t * c0 + cos t * c1) * q_prod).

Fixpoint objfnc_loop (input_params : gmap string R) (t : R) (objfnc_sum : R)
    (prms : list (R * list nat * list R)) : result R :=
  match prms with
  | [] => Ok objfnc_sum
  | term :: prms' =>
      do s <- objfnc_step input_params t objfnc_sum term;
      objfnc_loop input_params t s prms'
  end.

(** [cs_vqe.classical_obj_fnc], on the stored [objfncprms]. *)
Definition classical_obj_fnc (objfncprms : list (R * list nat * list R))
    (input_params : gmap string R) : result R :=
  do t <- get_param input_params "theta";
  objfnc_loop input_params t 0 objfncprms.

(** The value [q_i] an input assigns to generator [i] ([1] stands in when the
    key is absent; the evaluation raises in that case). *)
Definition q_value (input_params : gmap string R) (i : nat) : R :=
  default 1 (input_params !! q_key i).

(** The objective as the spec writes it: one summand per ObjectiveTerm. *)
Definition energy_summand (input_params : gmap string R) (theta : R)
    (term : R * list nat * list R) : R :=
  let '(h_G, q_indices, h_GCs) := term in
  (h_G + sin theta * nth 0 h_GCs 0 + cos theta * nth 1 h_GCs 0)
  * fold_right Rmult 1 (map (q_value input_params) q_indices).

Definition energy (objfncprms : list (R * list nat * list R))
    (input_params : gmap string R) (theta : R) : R :=
  fold_right Rplus 0 (map (energy_summand input_params theta) objfncprms).

(** A stored term that [classical_obj_fnc] can evaluate on an input: two
    clique coefficients are there and the input assigns every generator index
    of the term. *)
Definition evaluable (input_params : gmap string R)
    (term : R * list nat * list R) : Prop :=
  (2 <= length (snd term))%nat /\
  Forall (fun i => is_Some (input_params !! q_key i)) (snd (fst term)).


(* ------------------------------------------------------------------ *)
(** *** Unitary partitioning *)
(* ------------------------------------------------------------------ *)

(** [{C: val for C, val in zip(cliquereps, r)}] for distinct
    representatives. *)
Definition anti_clique_operator (cliquereps : list PauliTerm) (r : list R)
  : list (PauliTerm * R) := combine cliquereps r.

(** [sorted(op.items(), key=lambda x: x[0].count('X') + x[0].count('Y'))]. *)
Definition order_terms (op : list (PauliTerm * R)) : list (PauliTerm * R) :=
  sorted_by_key (fun x => count_XY (fst x)) op.

(** [a == 0] on weights. *)
Definition is_zero (a : R) : bool := if Req_dec_T a 0 then true else false.

(** [int((1j*coeff).real)]: the real part of [i * (re + i im)] is [- im]. *)
Definition rotation_sign (coeff : gaussian) : Z := (- snd coeff)%Z.

(** [t = np.arctan(-b/a)*sign], moved by [pi] when [abs(a+np.cos(t))] is
    below [1e-15]. *)
Definition rotation_angle (a b : R) (sign : Z) : R :=
  let t := atan (- b / a) * IZR sign in
  if Rlt_dec (Rabs (a + cos t)) 1e-15 then t + PI else t.

Section Rotation.

(** The product with phase of the operator toolkit; it may raise. *)
Variable multiply_with_coeff :
  PauliTerm -> PauliTerm -> result (PauliTerm * gaussian).

(** [cs_vqe.unitary_partitioning_rotation], on [anti_clique_operator]. *)
Definition unitary_partitioning_rotation_with (op : list (PauliTerm * R))
  : result (PauliTerm * R) :=
  match order_terms op with
  | [(A, a); (B, b)] =>
      if is_zero a || is_zero b
      then Raise (ValueError "Clique operator already contains one term")
      else
        do Qc <- multiply_with_coeff A B;
        let sign := rotation_sign (snd Qc) in
        Ok (fst Qc, rotation_angle a b sign)
  | [] | [_] => Raise (ValueError "not enough values to unpack (expected 2)")
  | _ => Raise (ValueError "too many values to unpack (expected 2)")
  end.

End Rotation.

(** The method with the modelled Pauli product, which never raises. *)
Definition unitary_partitioning_rotation (op : list (PauliTerm * R))
  : result (PauliTerm * R) :=
  unitary_partitioning_rotation_with
    (fun A B => Ok (multiply_paulis_with_coeff A B)) op.

(** The rotation as the spec words it: [a] is the weight "for the term with
    fewer non-identity single-qubit factors", [b] the weight of the other.
    It differs from the method above only in the key of the ordering. *)
Definition rotation_as_specified (op : list (PauliTerm * R))
  : result (PauliTerm * R) :=
  match sorted_by_key (fun x => weight (fst x)) op with
  | [(A, a); (B, b)] =>
      if is_zero a || is_zero b
      then Raise (ValueError "Clique operator already contains one term")
      else
        let Qc := multiply_paulis_with_coeff A B in
        Ok (fst Qc, rotation_angle a b (rotation_sign (snd Qc)))
  | [] | [_] => Raise (ValueError "not enough values to unpack (expected 2)")
  | _ => Raise (ValueError "too many values to unpack (expected 2)")
  end.

(* ------------------------------------------------------------------ *)
(** *** The noncontextual ground state *)
(* ------------------------------------------------------------------ *)

(** A call [f(k1=..., k2=...)] of a method whose parameters are [params]: a
    keyword that names no parameter is a [TypeError] raised before the body
    runs. *)
Definition call_with_keywords {B : Type} (params keywords : list string)
    (body : result B) : result B :=
  match filter (fun k => negb (existsb (String.eqb k) params)) keywords with
  | [] => body
  | k :: _ => Raise (TypeError k)
  end.

(** The parameters of [contextual_subspace_hamiltonian(self,
    stabilizer_indices)]. *)
Definition contextual_subspace_hamiltonian_params : list string :=
  ["stabilizer_indices"].

Section GroundState.

(** What the projection returns, and what lines 304 to 307 derive from it
    and the instance: the computational-basis states compatible with the
    rotated stabilizers, and the positions of the free qubits. *)
Variable projected : Type.
Variable contextual_subspace_hamiltonian : list nat -> result projected.
Variable simultaneous_eigenstates : projected -> list (list bool).
Variable free_qubits : projected -> list nat.

(** [cs_vqe.noncontextual_ground_state]; the first component of the result
    is what was printed.  ([sim_qubits], computed first when
    [projection_qubits] is given, is never used and is left out.) *)
Definition noncontextual_ground_state (stabilizer_indices : list nat)
    (projection_qubits : option (list nat))
  : result (list (list (list bool)) * list bool) :=
  do p <- call_with_keywords contextual_subspace_hamiltonian_params
            ["stabilizer_indices"; "projection_qubits"]
            (contextual_subspace_hamiltonian stabilizer_indices);
  let poss_eigenstates := simultaneous_eigenstates p in
  let free_q := free_qubits p in
  do reduced_eigenstates <-
    traverse (fun state => traverse (fun i => item state i) free_q) poss_eigenstates;
  let printed :=
    if 1 <? length reduced_eigenstates then [reduced_eigenstates] else [] in
  do first <- item reduced_eigenstates 0;
  Ok (printed, first).

End GroundState.

Local Close Scope R_scope.

End CsVqe.

(* ================================================================== *)
(** ** [tapering]: the reference state and the search over sectors *)
(* ================================================================== *)

Module TaperingOps.
Import GF2 Pauli Py Tapering.

(** [enumerate(l)]. *)
Definition enumerate {A : Type} (l : list A) : list (nat * A) :=
  combine (seq 0 (length l)) l.

(** [tapering.taper_ref_state], on the reference state and the dictionary
    [stab_index_eigval] (qubit position to eigenvalue) that
    [perform_projection] leaves on the instance: the bits at the positions
    that are keys of the dictionary are dropped. *)
Definition taper_ref_state (ref_state : list nat)
    (stab_index_eigval : list (nat * Z)) : list nat :=
  let taper_qubits := map fst stab_index_eigval in
  map snd
    (filter (fun ib => negb (existsb (Nat.eqb (fst ib)) taper_qubits))
       (enumerate ref_state)).

(** [itertools.product(values, repeat=n)]: the first position varies
    slowest. *)
Fixpoint product_repeat {A : Type} (values : list A) (n : nat) : list (list A) :=
  match n with
  | O => [[]]
  | S n' => flat_map (fun v => map (cons v) (product_repeat values n')) values
  end.

Definition get_nat (self : gmap string value) (name : string) : result nat :=
  match self !! name with
  | Some (VNat n) => Ok n
  | Some _ => Raise (TypeError name)
  | None => Raise (AttributeError name)
  end.

(** [x <= y] on energies, as a boolean. *)
Definition Rleb (x y : R) : bool := if Rle_dec x y then true else false.

Section SectorSearch.

(** [self.taper_it()._dict()] on an instance, and
    [exact_gs_energy(hamtap, matrix_type)[0]]: the projection and the exact
    diagonalisation are not part of these files; either may raise.  The
    projection works on the instance ([taper_ref_state] reads the
    [stab_index_eigval] it leaves there), so it returns the instance as it
    leaves it together with the tapered Hamiltonian. *)
Variable tapered : Type.
Variable taper_it_dict :
  gmap string value -> result (gmap string value * tapered).
Variable exact_gs_energy : tapered -> string -> result R.

(** The body of the loop over the sectors. *)
Definition sector_step (matrix_type : string)
    (st : gmap string value * list (list Z * R * tapered)) (sector : list Z)
  : result (gmap string value * list (list Z * R * tapered)) :=
  let '(self, tapered_ham) := st in
  do self <- update_S3_projection self sector;
  do projected <- taper_it_dict self;
  let '(self, hamtap) := projected in
  do energy <- exact_gs_energy hamtap matrix_type;
  Ok (self, tapered_ham ++ [(sector, energy, hamtap)]).

Fixpoint sector_loop (matrix_type : string)
    (st : gmap string value * list (list Z * R * tapered))
    (sectors : list (list Z))
  : result (gmap string value * list (list Z * R * tapered)) :=
  match sectors with
  | [] => Ok st
  | sector :: sectors' =>
      do st' <- sector_step matrix_type st sector;
      sector_loop matrix_type st' sectors'
  end.



(** The sectors of a list were gone through without an exception, from one
    instance to the instance the last projection left. *)
Inductive sectors_done (matrix_type : string)
  : gmap string value -> list (list Z) -> gmap string value -> Prop :=
  | done_nil (self : gmap string value) : sectors_done matrix_type self [] self
  | done_cons (self inst inst' self' : gmap string value) (sector : list Z)
      (sectors : list (list Z)) (hamtap : tapered) (energy : R) :
      update_S3_projection self sector = Ok inst ->
      taper_it_dict inst = Ok (inst', hamtap) ->
      exact_gs_energy hamtap matrix_type = Ok energy ->
      sectors_done matrix_type inst' sectors self' ->
      sectors_done matrix_type self (sector :: sectors) self'.

(** [tapering.search_all_sectors]: the instance as the method leaves it, and
    the list it returns. *)
Definition search_all_sectors (self : gmap string value)
  : result (gmap string value * list (list Z * R * tapered)) :=
  do n_qubits <- get_nat self "n_qubits";
  let matrix_type := if n_qubits <? 5 then "dense" else "sparse" in
  do n_taper <- get_nat self "n_taper";
  let all_sectors := product_repeat [1; -1]%Z n_taper in
  do st <- sector_loop matrix_type (self, []) all_sectors;
  Ok (fst st,
      sort_by (fun x y => Rleb (snd (fst x)) (snd (fst y))) (snd st)).

End SectorSearch.

End TaperingOps.

(* ================================================================== *)
(** ** [cs_vqe]: the constructor's restriction, the optimizer's samples and
       the projection onto the contextual subspace *)
(* ================================================================== *)

Module CsVqeOps.
Import GF2 Pauli Py CsVqe.

(** [op in noncontextual_set]. *)
Definition in_set (noncontextual_set : list PauliTerm) (op : PauliTerm) : bool :=
  existsb (fun s => if term_eq_dec s op then true else false) noncontextual_set.

(** [{op: coeff for op, coeff in hamiltonian._dict.items()
      if op in noncontextual_set}] of [cs_vqe.__init__]. *)
Definition ham_noncontextual {C : Type} (hamiltonian : Operator C)
    (noncontextual_set : list PauliTerm) : Operator C :=
  filter (fun oc => in_set noncontextual_set (fst oc)) hamiltonian.

(** The decomposition [cs_vqe.__init__] computes: [independent_generators]
    on the terms of [ham_noncontextual], with the qubit count of the full
    Hamiltonian. *)
Definition decompose {C : Type} (hamiltonian : Operator C)
    (noncontextual_set : list PauliTerm)
  : result (list PauliTerm * list PauliTerm) :=
  independent_generators (n_qubits hamiltonian)
    (map fst (ham_noncontextual hamiltonian noncontextual_set)).

Section GroundStateSearch.

(** [float(s)] and [int(s)] on the fields of the optimizer's table. *)
Variable parse_float : string -> result R.
Variable parse_int : string -> result Z.

(** [opt_guess[key]] on a row of the table. *)
Definition get_column (opt_guess : gmap string string) (key : string)
  : result string :=
  match opt_guess !! key with
  | Some s => Ok s
  | None => Raise (KeyError key)
  end.

(** [q_vars = [f'q{i}' for i in range(len(self.generators))]]. *)
Definition q_vars (n_generators : nat) : list string :=
  map q_key (seq 0 n_generators).

(** One row read as [(energy, G assignment, r vector)]. *)
Definition read_sample (q_vars : list string) (opt_guess : gmap string string)
  : result (R * list Z * list R) :=
  do ts <- get_column opt_guess "theta";
  do t <- parse_float ts;
  do es <- get_column opt_guess "objfnc_sum";
  do e <- parse_float es;
  do nu <- traverse (fun q_i => do s <- get_column opt_guess q_i; parse_int s)
             q_vars;
  Ok (e, nu, [sin t; cos t]).

(** [cs_vqe.find_noncontextual_ground_state], from the rows of the table the
    optimizer wrote: every row is read, and the first row of least energy is
    returned. *)
Definition find_noncontextual_ground_state (n_generators : nat)
    (rows : list (gmap string string)) : result (R * list Z * list R) :=
  do optimizer_output <- traverse (read_sample (q_vars n_generators)) rows;
  item (sort_by (fun x y => TaperingOps.Rleb (fst (fst x)) (fst (fst y)))
          optimizer_output) 0.

End GroundStateSearch.

(** [l[i]] with an integer index: a negative index counts from the end. *)
Definition py_item {A : Type} (l : list A) (i : Z) : result A :=
  let n := Z.of_nat (length l) in
  if (0 <=? i)%Z && (i <? n)%Z then item l (Z.to_nat i)
  else if (- n <=? i)%Z && (i <? 0)%Z then item l (Z.to_nat (n + i))
  else Raise IndexError.

Section Projection.

(** The parent class, constructed from the stabilizers, their eigenvalues and
    the single Pauli, and asked to project an operator, with or without a
    rotation to insert first. *)
Variable perform_projection :
  list PauliTerm -> list R -> pauli -> Operator R ->
  option (PauliTerm * R * bool) -> result (Operator R).

(** [cleanup_operator(op, threshold)] of the operator toolkit. *)
Variable cleanup_operator : Operator R -> nat -> Operator R.

(** [cs_vqe._contextual_subspace_projection]. *)
Definition contextual_subspace_projection
    (generators : list PauliTerm) (nu : list R) (single_pauli : pauli)
    (unitary_partitioning : PauliTerm * R * bool)
    (operator : Operator R) (stabilizer_indices : option (list Z))
  : result (Operator R) :=
  match stabilizer_indices with
  | None => Raise (TypeError "'NoneType' object is not iterable")
  | Some indices =>
      do stabilizers <- traverse (py_item generators) indices;
      do eigenvalues <- traverse (py_item nu) indices;
      if existsb (Z.eqb 0) indices
      then perform_projection stabilizers eigenvalues single_pauli operator
             (Some unitary_partitioning)
      else perform_projection stabilizers eigenvalues single_pauli operator None
  end.

(** [cs_vqe.contextual_subspace_hamiltonian]. *)
Definition contextual_subspace_hamiltonian
    (hamiltonian : Operator R)
    (generators : list PauliTerm) (nu : list R) (single_pauli : pauli)
    (unitary_partitioning : PauliTerm * R * bool)
    (stabilizer_indices : list Z) : result (Operator R) :=
  do ham_cs <- contextual_subspace_projection generators nu single_pauli
                 unitary_partitioning hamiltonian (Some stabilizer_indices);
  Ok (cleanup_operator ham_cs 8).

End Projection.

End CsVqeOps.

(* ****************************************************************** *)
(** * Properties                                                        *)
(* ****************************************************************** *)

(* ================================================================== *)
(** * Facts about GF(2) vectors and the elimination *)
(* ================================================================== *)

Module GF2Facts.
Import GF2.

Lemma length_zeros w : length (zeros w) = w.
Proof. apply repeat_length. Qed.

Lemma length_vxor a : forall b, length (vxor a b) = Nat.min (length a) (length b).
Proof. induction a as [|x a IH]; intros [|y b]; simpl; auto. Qed.

Lemma length_vxor_same w a b :
  length a = w -> length b = w -> length (vxor a b) = w.
Proof. intros Ha Hb. rewrite length_vxor. lia. Qed.

Lemma vxor_comm a : forall b, vxor a b = vxor b a.
Proof.
  induction a as [|x a IH]; intros [|y b]; simpl; auto.
  rewrite xorb_comm, IH. reflexivity.
Qed.

Lemma vxor_assoc a : forall b c, vxor a (vxor b c) = vxor (vxor a b) c.
Proof.
  induction a as [|x a IH]; intros [|y b] [|z c]; simpl; auto.
  rewrite IH, xorb_assoc. reflexivity.
Qed.

Lemma vxor_nilpotent a : vxor a a = zeros (length a).
Proof. induction a as [|x a IH]; simpl; [|rewrite xorb_nilpotent, IH]; reflexivity. Qed.

Lemma vxor_zeros_r a : forall w, length a = w -> vxor a (zeros w) = a.
Proof.
  induction a as [|x a IH]; intros [|w] H; simpl in *; try discriminate; auto.
  rewrite xorb_false_r. f_equal. apply IH. lia.
Qed.

Lemma vxor_zeros_l a w : length a = w -> vxor (zeros w) a = a.
Proof. intros H. rewrite vxor_comm. apply vxor_zeros_r, H. Qed.

Lemma vxor_cancel w a b :
  length a = w -> length b = w -> vxor a b = zeros w -> a = b.
Proof.
  revert a b. induction w as [|w IH]; intros [|x a] [|y b] Ha Hb H;
    simpl in *; try discriminate; auto.
  injection H as Hx Ht. f_equal.
  - destruct x, y; simpl in Hx; congruence.
  - apply IH; auto.
Qed.

Lemma dot_comm a : forall b, dot a b = dot b a.
Proof.
  induction a as [|x a IH]; intros [|y b]; simpl; auto.
  rewrite andb_comm, IH. reflexivity.
Qed.

Lemma dot_zeros_r a : forall w, dot a (zeros w) = false.
Proof.
  induction a as [|x a IH]; intros [|w]; simpl; auto.
  rewrite andb_false_r, IH. reflexivity.
Qed.

Lemma dot_vxor_r r : forall a b, length a = length b ->
  dot r (vxor a b) = xorb (dot r a) (dot r b).
Proof.
  induction r as [|x r IH]; intros [|y a] [|z b] H; simpl in *;
    try discriminate; auto.
  rewrite IH by lia. destruct x, y, z, (dot r a), (dot r b); reflexivity.
Qed.

Lemma dot_app a1 : forall b1 a2 b2, length a1 = length b1 ->
  dot (a1 ++ a2) (b1 ++ b2) = xorb (dot a1 b1) (dot a2 b2).
Proof.
  induction a1 as [|x a1 IH]; intros [|y b1] a2 b2 H; simpl in *;
    try discriminate; auto.
  rewrite IH by lia. rewrite xorb_assoc. reflexivity.
Qed.

Lemma any_false_dot r : forall v, any r = false -> dot r v = false.
Proof.
  unfold any. induction r as [|x r IH]; intros [|y v] H; simpl in *; auto.
  apply orb_false_iff in H as [-> H]. simpl. apply IH, H.
Qed.

Lemma any_false_zeros r : any r = false -> r = zeros (length r).
Proof.
  unfold any. induction r as [|x r IH]; simpl; intros H; auto.
  apply orb_false_iff in H as [-> H]. unfold zeros. simpl. f_equal. apply IH, H.
Qed.

Lemma any_zeros w : any (zeros w) = false.
Proof. induction w; simpl; auto. Qed.

(** *** Assignment and exchange of rows *)

Lemma length_upd {A} (l : list A) : forall i x, length (upd i x l) = length l.
Proof. induction l as [|y l IH]; intros [|i] x; simpl; auto. Qed.

Lemma nth_upd_same {A} (l : list A) : forall i x d,
  i < length l -> nth i (upd i x l) d = x.
Proof.
  induction l as [|y l IH]; intros [|i] x d H; simpl in *; try lia; auto.
  apply IH. lia.
Qed.

Lemma upd_pull {A} (l : list A) : forall i x d,
  i < length l -> Permutation (nth i l d :: upd i x l) (x :: l).
Proof.
  induction l as [|y l IH]; intros [|i] x d H; simpl in *; try lia.
  - apply perm_swap.
  - etransitivity; [apply perm_swap|].
    etransitivity; [apply perm_skip, (IH i x d); lia|]. apply perm_swap.
Qed.

Lemma swap_rows_perm (M : matrix) : forall k i,
  k < length M -> i < length M -> Permutation (swap_rows M k i) M.
Proof.
  unfold swap_rows, nth_row.
  induction M as [|r M IH]; intros [|k] [|i] Hk Hi; simpl in *; try lia.
  - reflexivity.
  - apply upd_pull. lia.
  - apply upd_pull. lia.
  - apply perm_skip, IH; lia.
Qed.

Lemma length_swap_rows M k i : length (swap_rows M k i) = length M.
Proof. unfold swap_rows. rewrite !length_upd. reflexivity. Qed.

Lemma length_column M j : length (column M j) = length M.
Proof. unfold column. apply length_map. Qed.

(** *** The row update of a pivot step *)

Lemma add_scaled_false p : forall r, length r = length p -> add_scaled false p r = r.
Proof.
  induction p as [|y p IH]; intros [|x r] H; simpl in *; try discriminate; auto.
  rewrite xorb_false_r, IH by lia. reflexivity.
Qed.

Lemma add_scaled_true p : forall r, add_scaled true p r = vxor r p.
Proof.
  induction p as [|y p IH]; intros [|x r]; simpl in *; auto.
  rewrite IH. reflexivity.
Qed.

Lemma add_scaled_cases w dk p r :
  length r = w -> length p = w ->
  add_scaled dk p r = if dk then vxor r p else r.
Proof.
  intros Hr Hp. destruct dk; [apply add_scaled_true|apply add_scaled_false; lia].
Qed.

Lemma length_add_outer M : forall d p,
  length d = length M -> length (add_outer d p M) = length M.
Proof.
  induction M as [|r M IH]; intros [|dk d] p H; simpl in *; try discriminate; auto.
Qed.

Lemma nth_add_outer M : forall d p i,
  length d = length M -> i < length M ->
  nth_row (add_outer d p M) i = add_scaled (nth i d false) p (nth_row M i).
Proof.
  unfold nth_row.
  induction M as [|r M IH]; intros [|dk d] p [|i] H Hi; simpl in *;
    try discriminate; try lia; auto.
  apply IH; lia.
Qed.

Lemma nth_row_In M i : i < length M -> In (nth_row M i) M.
Proof. intros H. apply nth_In, H. Qed.

Lemma width_nth_row w M i : width_ok w M -> i < length M -> length (nth_row M i) = w.
Proof.
  intros Hw Hi. unfold width_ok in Hw. rewrite Forall_forall in Hw.
  apply Hw, nth_row_In, Hi.
Qed.


(** *** The elimination keeps whatever the row operations keep *)

Lemma first_true_lt l : any l = true -> first_true l < length l.
Proof.
  unfold any. induction l as [|[|] l IH]; simpl; intros H; try discriminate; try lia.
  specialize (IH H). lia.
Qed.

Lemma argmax_from_lt col row_i :
  any (skipn row_i col) = true -> argmax_from col row_i < length col.
Proof.
  intros H. unfold argmax_from. rewrite H.
  pose proof (first_true_lt _ H) as Hlt. rewrite length_skipn in Hlt. lia.
Qed.

Lemma pivot_step_closed P M row_i col_j :
  rowop_closed P -> row_i < length M ->
  any (skipn row_i (column M col_j)) = true ->
  P M -> P (pivot_step M row_i col_j).
Proof.
  intros [Hswap Hadd] Hi Hany HP. unfold pivot_step.
  pose proof (argmax_from_lt _ _ Hany) as Hk. rewrite length_column in Hk.
  apply Hadd.
  - rewrite length_upd, length_column. reflexivity.
  - rewrite length_swap_rows. exact Hi.
  - apply nth_upd_same. rewrite length_column, length_swap_rows. exact Hi.
  - apply Hswap; assumption.
Qed.

Lemma gaus_loop_closed P n_cols :
  rowop_closed P ->
  forall fuel M row_i col_j, P M -> P (gaus_loop fuel n_cols M row_i col_j).
Proof.
  intros Hc. induction fuel as [|fuel IH]; intros M row_i col_j HP; simpl; auto.
  destruct (row_i <? length M) eqn:Hi; simpl; auto.
  destruct (col_j <? n_cols); simpl; auto.
  destruct (any (skipn row_i (column M col_j))) eqn:Hany; auto.
  apply IH, pivot_step_closed; auto. apply Nat.ltb_lt, Hi.
Qed.

Lemma gf2_gaus_elim_closed P n_cols M :
  rowop_closed P -> P M -> P (gf2_gaus_elim n_cols M).
Proof. intros Hc HP. unfold gf2_gaus_elim. apply gaus_loop_closed; assumption. Qed.

(** *** Row operations keep the width of the rows *)

Lemma width_add_outer w p M : forall d,
  length p = w -> width_ok w M -> width_ok w (add_outer d p M).
Proof.
  unfold width_ok. induction M as [|r M IH]; intros [|dk d] Hp Hw; simpl;
    try (constructor; fail).
  inversion Hw; subst. constructor.
  - rewrite (add_scaled_cases (length r)); auto.
    destruct dk; auto. apply length_vxor_same; auto.
  - apply IH; auto.
Qed.

Lemma width_closed w : rowop_closed (width_ok w).
Proof.
  split.
  - intros M k i Hk Hi Hw. unfold width_ok in *.
    eapply Permutation_Forall; [symmetry; apply swap_rows_perm; auto|auto].
  - intros M d i Hd Hi _ Hw. apply width_add_outer; auto.
    apply width_nth_row; auto.
Qed.

(** *** Row operations keep the orthogonal complement *)

Lemma orthogonal_add_outer w v p M :
  length p = w -> width_ok w M -> dot p v = false ->
  forall d, length d = length M ->
  (orthogonal (add_outer d p M) v <-> orthogonal M v).
Proof.
  intros Hp Hw Hpv. unfold orthogonal.
  induction M as [|r M IH]; intros [|dk d] Hd; simpl in *; try discriminate;
    [tauto|].
  inversion Hw; subst.
  assert (Hrow : dot (add_scaled dk p r) v = dot r v).
  { rewrite (add_scaled_cases (length r)); auto. destruct dk; auto.
    rewrite dot_comm, dot_vxor_r by lia.
    rewrite (dot_comm v p), Hpv, xorb_false_r. apply dot_comm. }
  destruct (IH H2 d ltac:(lia)) as [IH1 IH2].
  split; intros H r' [<-|Hin].
  - rewrite <- Hrow. apply H. auto.
  - apply IH1; [intros r0 Hr0; apply H; auto|exact Hin].
  - rewrite Hrow. apply H. auto.
  - apply IH2; [intros r0 Hr0; apply H; auto|exact Hin].
Qed.

Lemma orthogonal_closed w v M0 :
  rowop_closed (fun M => width_ok w M /\ (orthogonal M v <-> orthogonal M0 v)).
Proof.
  split.
  - intros M k i Hk Hi [Hw Ho]. split; [apply width_closed; auto|].
    rewrite <- Ho. pose proof (swap_rows_perm M k i Hk Hi) as Hp.
    unfold orthogonal. split; intros H r Hr; apply H.
    + eapply Permutation_in; [symmetry; exact Hp|exact Hr].
    + eapply Permutation_in; [exact Hp|exact Hr].
  - intros M d i Hd Hi Hdi [Hw Ho]. split; [apply width_closed; auto|].
    rewrite <- Ho.
    assert (Hpw : length (nth_row M i) = w) by (apply width_nth_row; auto).
    assert (Hsame : nth_row (add_outer d (nth_row M i) M) i = nth_row M i).
    { rewrite nth_add_outer, Hdi by auto. apply add_scaled_false. reflexivity. }
    split; intros H.
    + assert (Hpv : dot (nth_row M i) v = false).
      { rewrite <- Hsame. apply H, nth_row_In.
        rewrite length_add_outer; auto. }
      eapply orthogonal_add_outer; eauto.
    + assert (Hpv : dot (nth_row M i) v = false) by (apply H, nth_row_In, Hi).
      eapply orthogonal_add_outer; eauto.
Qed.

(** The vectors orthogonal to the rows of the eliminated matrix are those
    orthogonal to the rows of the matrix itself. *)
Lemma gf2_gaus_elim_orthogonal w n_cols M v :
  width_ok w M ->
  (orthogonal (gf2_gaus_elim n_cols M) v <-> orthogonal M v).
Proof.
  intros Hw.
  apply (gf2_gaus_elim_closed _ n_cols M (orthogonal_closed w v M)).
  split; [exact Hw|tauto].
Qed.

Lemma gf2_gaus_elim_width w n_cols M :
  width_ok w M -> width_ok w (gf2_gaus_elim n_cols M).
Proof. apply gf2_gaus_elim_closed, width_closed. Qed.

(** *** Linear combinations *)

Lemma vxor_interchange a b c d :
  vxor (vxor a b) (vxor c d) = vxor (vxor a c) (vxor b d).
Proof.
  rewrite <- (vxor_assoc a b), (vxor_assoc b c d), (vxor_comm b c).
  rewrite <- (vxor_assoc c b d), (vxor_assoc a c). reflexivity.
Qed.

Lemma vxor_swap_head x y v : vxor x (vxor y v) = vxor y (vxor x v).
Proof. rewrite !vxor_assoc, (vxor_comm x y). reflexivity. Qed.

Lemma length_lincomb w M : width_ok w M -> forall c, length (lincomb w c M) = w.
Proof.
  unfold width_ok. induction 1 as [|r M Hr HM IH]; intros [|ck c]; simpl;
    try apply length_zeros.
  destruct ck; auto. apply length_vxor_same; auto.
Qed.

Lemma lincomb_zeros w M : forall n, lincomb w (zeros n) M = zeros w.
Proof. induction M as [|r M IH]; intros [|n]; simpl; auto. Qed.

Lemma lincomb_vxor w M : width_ok w M -> forall c1 c2,
  length c1 = length M -> length c2 = length M ->
  lincomb w (vxor c1 c2) M = vxor (lincomb w c1 M) (lincomb w c2 M).
Proof.
  intros Hw. induction Hw as [|r M Hr HM IH]; intros [|a c1] [|b c2] H1 H2;
    simpl in *; try discriminate.
  - rewrite vxor_nilpotent, length_zeros. reflexivity.
  - pose proof (length_lincomb w M HM c1) as L1.
    pose proof (length_lincomb w M HM c2) as L2.
    rewrite IH by lia.
    destruct a, b; simpl.
    + rewrite vxor_interchange, vxor_nilpotent, Hr.
      rewrite vxor_zeros_l; auto. apply length_vxor_same; auto.
    + rewrite vxor_assoc. reflexivity.
    + apply vxor_swap_head.
    + reflexivity.
Qed.

Lemma unit_0 n : unit_vec (S n) 0 = true :: zeros n.
Proof. reflexivity. Qed.

Lemma unit_S n i : unit_vec (S n) (S i) = false :: unit_vec n i.
Proof. reflexivity. Qed.

Lemma length_unit n i : length (unit_vec n i) = n.
Proof. unfold unit_vec. rewrite length_upd. apply length_zeros. Qed.

Lemma lincomb_unit_vec w M : width_ok w M -> forall i,
  i < length M -> lincomb w (unit_vec (length M) i) M = nth_row M i.
Proof.
  unfold nth_row.
  intros Hw. induction Hw as [|r M Hr HM IH]; intros [|i] Hi; simpl in *; try lia.
  - fold (zeros (length M)). rewrite lincomb_zeros. apply vxor_zeros_r, Hr.
  - apply IH. lia.
Qed.

Lemma dot_unit_l n : forall i d,
  length d = n -> i < n -> dot (unit_vec n i) d = nth i d false.
Proof.
  induction n as [|n IH]; intros [|i] [|x d] Hd Hi; simpl in *;
    try discriminate; try lia.
  - fold (zeros n). rewrite dot_comm, dot_zeros_r.
    destruct x; reflexivity.
  - apply IH; lia.
Qed.

Lemma lincomb_add_outer w p M : length p = w -> width_ok w M ->
  forall c d, length c = length M -> length d = length M ->
  lincomb w c (add_outer d p M)
  = vxor (lincomb w c M) (if dot c d then p else zeros w).
Proof.
  intros Hp Hw. induction Hw as [|r M Hr HM IH]; intros [|ck c] [|dk d] Hc Hd;
    simpl in *; try discriminate.
  - rewrite vxor_nilpotent, length_zeros. reflexivity.
  - pose proof (length_lincomb w M HM c) as L.
    rewrite IH by lia. rewrite (add_scaled_cases w) by auto.
    destruct ck, dk, (dot c d); simpl.
    + rewrite vxor_interchange, vxor_nilpotent, Hp.
      rewrite vxor_zeros_r; auto. apply length_vxor_same; auto.
    + rewrite (vxor_zeros_r (lincomb w c M)) by auto.
      rewrite <- !vxor_assoc, (vxor_comm p). reflexivity.
    + rewrite vxor_assoc. reflexivity.
    + rewrite vxor_assoc. reflexivity.
    + reflexivity.
    + reflexivity.
    + reflexivity.
    + reflexivity.
Qed.

(** *** Row operations keep linear independence *)

Lemma lin_indep_add_outer w M d i :
  width_ok w M -> i < length M -> length d = length M ->
  nth i d false = false ->
  lin_indep w M -> lin_indep w (add_outer d (nth_row M i) M).
Proof.
  intros Hw Hi Hd Hdi Hind c Hc Hzero.
  rewrite length_add_outer in * by auto.
  assert (Hp : length (nth_row M i) = w) by (apply width_nth_row; auto).
  rewrite (lincomb_add_outer w) in Hzero by auto.
  pose proof (length_lincomb w M Hw c) as L.
  destruct (dot c d) eqn:Hcd.
  - exfalso.
    apply (vxor_cancel w) in Hzero; auto.
    assert (Hsum : lincomb w (vxor c (unit_vec (length M) i)) M = zeros w).
    { rewrite lincomb_vxor, lincomb_unit_vec, Hzero by (auto using length_unit).
      rewrite vxor_nilpotent, Hp. reflexivity. }
    apply Hind in Hsum.
    2:{ apply length_vxor_same; auto using length_unit. }
    assert (Hcu : c = unit_vec (length M) i).
    { apply (vxor_cancel (length M)); auto using length_unit. }
    rewrite Hcu, dot_unit_l in Hcd by auto. congruence.
  - rewrite vxor_zeros_r in Hzero by auto. apply Hind; auto.
Qed.

Lemma perm_coeffs w M M' : Permutation M M' ->
  forall c', length c' = length M' ->
  exists c, length c = length M /\ lincomb w c M = lincomb w c' M'
            /\ (c = zeros (length M) -> c' = zeros (length M')).
Proof.
  induction 1 as [|x l l' Hp IH|x y l|l l' l'' H1 IH1 H2 IH2]; intros c' Hc'.
  - exists c'. auto.
  - destruct c' as [|a c']; simpl in Hc'; try discriminate.
    destruct (IH c' ltac:(lia)) as (c & Hc & Heq & Hz).
    exists (a :: c). simpl. repeat split; [lia|rewrite Heq; reflexivity|].
    unfold zeros. simpl. intros [= -> Hcz]. f_equal. apply Hz, Hcz.
  - destruct c' as [|a [|b c']]; simpl in Hc'; try discriminate.
    exists (b :: a :: c'). simpl. repeat split; [lia| |].
    + destruct a, b; auto. apply vxor_swap_head.
    + unfold zeros. simpl. intros [= -> -> Hcz]. rewrite Hcz. reflexivity.
  - destruct (IH2 c' Hc') as (c1 & Hc1 & Heq1 & Hz1).
    destruct (IH1 c1 Hc1) as (c & Hc & Heq & Hz).
    exists c. repeat split; auto; congruence.
Qed.

Lemma lin_indep_perm w M M' :
  Permutation M M' -> lin_indep w M -> lin_indep w M'.
Proof.
  intros Hp Hind c' Hc' Hzero.
  destruct (perm_coeffs w M M' Hp c' Hc') as (c & Hc & Heq & Hz).
  apply Hz, Hind; congruence.
Qed.

Lemma lin_indep_closed w :
  rowop_closed (fun M => width_ok w M /\ lin_indep w M).
Proof.
  split.
  - intros M k i Hk Hi [Hw Hind]. split; [apply width_closed; auto|].
    eapply lin_indep_perm; [symmetry; apply swap_rows_perm; auto|exact Hind].
  - intros M d i Hd Hi Hdi [Hw Hind]. split; [apply width_closed; auto|].
    apply lin_indep_add_outer; auto.
Qed.

(** A linearly independent family does not contain the zero row. *)
Lemma lin_indep_no_zero w M : width_ok w M -> lin_indep w M -> ~ In (zeros w) M.
Proof.
  intros Hw Hind Hin.
  destruct (In_nth M (zeros w) [] Hin) as (i & Hi & Hnth).
  pose proof (lincomb_unit_vec w M Hw i Hi) as Hu.
  unfold nth_row in Hu. rewrite Hnth in Hu.
  apply Hind in Hu; [|apply length_unit].
  assert (Hd : dot (unit_vec (length M) i) (unit_vec (length M) i) = true).
  { rewrite dot_unit_l by auto using length_unit.
    unfold unit_vec. apply nth_upd_same. rewrite length_zeros. exact Hi. }
  rewrite Hu, dot_zeros_r in Hd. discriminate.
Qed.

(** *** Sub-families and blocks *)

Lemma filter_coeffs w f M : forall c, length c = length (filter f M) ->
  exists c', length c' = length M /\ lincomb w c' M = lincomb w c (filter f M)
             /\ (c' = zeros (length M) -> c = zeros (length (filter f M))).
Proof.
  induction M as [|r M IH]; intros c Hc; simpl in *.
  - exists c. auto.
  - destruct (f r); simpl in *.
    + destruct c as [|a c]; simpl in Hc; try discriminate.
      destruct (IH c ltac:(lia)) as (c' & Hc' & Heq & Hz).
      exists (a :: c'). simpl. rewrite Heq. repeat split; [lia|].
      unfold zeros. simpl. intros [= -> Hcz]. f_equal. apply Hz, Hcz.
    + destruct (IH c Hc) as (c' & Hc' & Heq & Hz).
      exists (false :: c'). simpl. repeat split; [lia|exact Heq|].
      unfold zeros. simpl. intros [= Hcz]. apply Hz, Hcz.
Qed.

Lemma lin_indep_filter w f M : lin_indep w M -> lin_indep w (filter f M).
Proof.
  intros Hind c Hc Hzero.
  destruct (filter_coeffs w f M c Hc) as (c' & Hc' & Heq & Hz).
  apply Hz, Hind; congruence.
Qed.

Lemma firstn_vxor n : forall a b,
  firstn n (vxor a b) = vxor (firstn n a) (firstn n b).
Proof. induction n as [|n IH]; intros [|x a] [|y b]; simpl; auto. rewrite IH. reflexivity. Qed.

Lemma skipn_vxor n : forall a b,
  skipn n (vxor a b) = vxor (skipn n a) (skipn n b).
Proof.
  induction n as [|n IH]; intros a b; [reflexivity|].
  destruct a as [|x a], b as [|y b]; simpl; auto.
  destruct (skipn n a); reflexivity.
Qed.

Lemma skipn_zeros n w : skipn n (zeros (n + w)) = zeros w.
Proof. unfold zeros. induction n as [|n IH]; simpl; auto. Qed.

Lemma firstn_zeros n w : firstn n (zeros (n + w)) = zeros n.
Proof. unfold zeros. induction n as [|n IH]; simpl; auto. rewrite IH. reflexivity. Qed.

Lemma lincomb_skipn m w M : forall c,
  lincomb w c (map (skipn m) M) = skipn m (lincomb (m + w) c M).
Proof.
  induction M as [|r M IH]; intros [|a c]; simpl; try (rewrite skipn_zeros; reflexivity).
  destruct a; rewrite IH; [rewrite skipn_vxor|]; reflexivity.
Qed.

Lemma lincomb_firstn m w M : forall c,
  lincomb m c (map (firstn m) M) = firstn m (lincomb (m + w) c M).
Proof.
  induction M as [|r M IH]; intros [|a c]; simpl; try (rewrite firstn_zeros; reflexivity).
  destruct a; rewrite IH; [rewrite firstn_vxor|]; reflexivity.
Qed.

Lemma lincomb_zero_rows w M : (forall r, In r M -> r = zeros w) ->
  forall c, lincomb w c M = zeros w.
Proof.
  induction M as [|r M IH]; intros H [|a c]; simpl; auto.
  rewrite IH by (intros; apply H; simpl; auto).
  destruct a; auto. rewrite (H r) by (simpl; auto).
  rewrite vxor_nilpotent, length_zeros. reflexivity.
Qed.

(** *** The identity block and the transposed block *)

Lemma length_eye n : length (eye n) = n.
Proof. induction n; simpl; auto. rewrite length_map. auto. Qed.

Lemma lincomb_cons_false w M : forall c,
  lincomb (S w) c (map (cons false) M) = false :: lincomb w c M.
Proof.
  induction M as [|r M IH]; intros [|a c]; simpl; auto.
  rewrite IH. destruct a; reflexivity.
Qed.

Lemma lincomb_eye n : forall c, length c = n -> lincomb n c (eye n) = c.
Proof.
  induction n as [|n IH]; intros [|a c] Hc; simpl in *; try discriminate; auto.
  rewrite lincomb_cons_false, IH by lia.
  destruct a; simpl; auto. f_equal. apply vxor_zeros_l. lia.
Qed.

Lemma nth_eye n : forall i, i < n -> nth_row (eye n) i = unit_vec n i.
Proof.
  unfold nth_row.
  induction n as [|n IH]; intros [|i] Hi; simpl; try lia; auto.
  rewrite (nth_indep _ [] (false :: [])) by (rewrite length_map, length_eye; lia).
  rewrite (map_nth (cons false)). rewrite IH by lia. reflexivity.
Qed.

Lemma dot_unit_r n : forall i r, i < n -> dot r (unit_vec n i) = nth i r false.
Proof.
  induction n as [|n IH]; intros [|i] [|x r] Hi; simpl; try lia; auto.
  - fold (zeros n). rewrite dot_zeros_r. destruct x; reflexivity.
  - rewrite andb_false_r. simpl. apply (IH i r). lia.
Qed.

Lemma length_hstack A : forall B, length A = length B -> length (hstack A B) = length A.
Proof. induction A as [|a A IH]; intros [|b B] H; simpl in *; try discriminate; auto. Qed.

Lemma nth_hstack A : forall B i, length A = length B -> i < length A ->
  nth_row (hstack A B) i = nth_row A i ++ nth_row B i.
Proof.
  unfold nth_row.
  induction A as [|a A IH]; intros [|b B] [|i] H Hi; simpl in *;
    try discriminate; try lia; auto.
  apply IH; lia.
Qed.

Lemma vxor_app a1 : forall b1 a2 b2, length a1 = length b1 ->
  vxor (a1 ++ a2) (b1 ++ b2) = vxor a1 b1 ++ vxor a2 b2.
Proof.
  induction a1 as [|x a1 IH]; intros [|y b1] a2 b2 H; simpl in *;
    try discriminate; auto.
  rewrite IH by lia. reflexivity.
Qed.

Lemma lincomb_hstack wa wb A : forall B c,
  width_ok wa A -> width_ok wb B -> length A = length B ->
  lincomb (wa + wb) c (hstack A B) = lincomb wa c A ++ lincomb wb c B.
Proof.
  assert (Hz : zeros (wa + wb) = zeros wa ++ zeros wb) by apply repeat_app.
  induction A as [|a A IH]; intros [|b B] [|ck c] HA HB H; simpl in *;
    try discriminate; auto.
  inversion HA; inversion HB; subst.
  rewrite IH by (auto; lia). destruct ck; auto.
  apply vxor_app. rewrite length_lincomb; auto.
Qed.

Lemma length_transpose w R : length (transpose w R) = w.
Proof. unfold transpose. rewrite length_map, length_seq. reflexivity. Qed.

Lemma nth_transpose w R i : i < w -> nth_row (transpose w R) i = column R i.
Proof.
  intros Hi. unfold nth_row, transpose.
  rewrite (nth_indep _ [] (column R 0)) by (rewrite length_map, length_seq; lia).
  rewrite (map_nth (column R)), seq_nth by lia. reflexivity.
Qed.

Lemma width_transpose w R : width_ok (length R) (transpose w R).
Proof.
  unfold width_ok, transpose. apply Forall_forall. intros r Hr.
  apply in_map_iff in Hr as (j & <- & _). apply length_column.
Qed.

Lemma width_eye n : width_ok n (eye n).
Proof.
  unfold width_ok. induction n as [|n IH]; simpl; constructor.
  - simpl. rewrite length_zeros. reflexivity.
  - apply Forall_forall. intros r Hr. apply in_map_iff in Hr as (r' & <- & Hr').
    rewrite Forall_forall in IH. simpl. f_equal. apply IH, Hr'.
Qed.

Lemma width_hstack wa wb A : forall B,
  width_ok wa A -> width_ok wb B -> width_ok (wa + wb) (hstack A B).
Proof.
  unfold width_ok. induction A as [|a A IH]; intros [|b B] HA HB; simpl;
    try (constructor; fail).
  inversion HA; inversion HB; subst. constructor; auto.
  rewrite length_app. reflexivity.
Qed.

(** *** The kernel basis *)

Lemma vxor_map {A} (f g : A -> bool) l :
  vxor (map f l) (map g l) = map (fun x => xorb (f x) (g x)) l.
Proof. induction l as [|x l IH]; simpl; auto. rewrite IH. reflexivity. Qed.

Lemma any_map_false {A} (f : A -> bool) l :
  any (map f l) = false -> forall x, In x l -> f x = false.
Proof.
  unfold any. induction l as [|y l IH]; simpl; intros H x Hx; [tauto|].
  apply orb_false_iff in H as [Hy H]. destruct Hx as [<-|Hx]; auto.
Qed.

Lemma kernel_inv_vxor m w R a b :
  kernel_inv m w R a -> kernel_inv m w R b -> kernel_inv m w R (vxor a b).
Proof.
  intros [La Ha] [Lb Hb]. split; [apply length_vxor_same; auto|].
  rewrite firstn_vxor, skipn_vxor, Ha, Hb, vxor_map.
  apply map_ext. intros r. rewrite dot_vxor_r; auto.
  rewrite !length_skipn. lia.
Qed.

Lemma Forall_add_outer (S : vec -> Prop) w :
  (forall a, S a -> length a = w) ->
  (forall a b, S a -> S b -> S (vxor a b)) ->
  forall p M d, S p -> Forall S M -> Forall S (add_outer d p M).
Proof.
  intros Hlen Hx p M. induction M as [|r M IH]; intros [|dk d] Hp HM; simpl;
    try (constructor; fail).
  inversion HM; subst. constructor; auto.
  rewrite (add_scaled_cases w) by auto. destruct dk; auto.
Qed.

Lemma kernel_inv_closed m w R : rowop_closed (Forall (kernel_inv m w R)).
Proof.
  split.
  - intros M k i Hk Hi HM.
    eapply Permutation_Forall; [symmetry; apply swap_rows_perm; auto|exact HM].
  - intros M d i Hd Hi _ HM.
    apply (Forall_add_outer _ (m + w)); auto.
    + intros a [Ha _]. exact Ha.
    + apply kernel_inv_vxor.
    + rewrite Forall_forall in HM. apply HM, nth_row_In, Hi.
Qed.

Lemma rows_of_extended w R r :
  In r (hstack (transpose w R) (eye w)) ->
  exists i, i < w /\ r = column R i ++ unit_vec w i.
Proof.
  intros Hin.
  assert (Hl : length (transpose w R) = length (eye w))
    by (rewrite length_transpose, length_eye; reflexivity).
  destruct (In_nth _ _ [] Hin) as (i & Hi & Hnth).
  rewrite length_hstack, length_transpose in Hi by exact Hl.
  exists i. split; [exact Hi|].
  rewrite <- Hnth.
  change (nth_row (hstack (transpose w R) (eye w)) i = column R i ++ unit_vec w i).
  rewrite nth_hstack, nth_transpose, nth_eye; auto.
  rewrite length_transpose. exact Hi.
Qed.

Lemma kernel_inv_init w R :
  Forall (kernel_inv (length R) w R) (hstack (transpose w R) (eye w)).
Proof.
  apply Forall_forall. intros r Hin.
  destruct (rows_of_extended w R r Hin) as (i & Hi & ->).
  pose proof (length_column R i) as Lc.
  split.
  - rewrite length_app, Lc, length_unit. reflexivity.
  - rewrite firstn_app, firstn_all2, skipn_app, skipn_all2 by lia.
    rewrite Lc, Nat.sub_diag, skipn_O. simpl. rewrite app_nil_r.
    unfold column. apply map_ext. intros r. rewrite dot_unit_r; auto.
Qed.

Lemma extended_lin_indep w R :
  lin_indep (length R + w) (hstack (transpose w R) (eye w)).
Proof.
  intros c Hc Hzero.
  rewrite length_hstack, length_transpose in *
    by (rewrite length_transpose, length_eye; reflexivity).
  rewrite lincomb_hstack in Hzero;
    [|apply width_transpose|apply width_eye
     |rewrite length_transpose, length_eye; reflexivity].
  rewrite lincomb_eye in Hzero by exact Hc.
  unfold zeros in Hzero. rewrite repeat_app in Hzero.
  apply app_inj_2 in Hzero; [tauto|].
  rewrite repeat_length. congruence.
Qed.

(** Every member of the kernel basis has the width of the matrix and is
    orthogonal to each of its rows. *)
Lemma kernel_orthogonal w R k :
  In k (gf2_basis_for_gf2_rref w R) -> length k = w /\ orthogonal R k.
Proof.
  unfold gf2_basis_for_gf2_rref. intros Hin.
  apply in_map_iff in Hin as (row & <- & Hrow).
  apply filter_In in Hrow as [Hrow Hz]. apply negb_true_iff in Hz.
  pose proof (gf2_gaus_elim_closed _ (length R + w) _
                (kernel_inv_closed (length R) w R) (kernel_inv_init w R)) as Hinv.
  rewrite Forall_forall in Hinv. destruct (Hinv row Hrow) as [Hlen Hleft].
  split; [rewrite length_skipn; lia|].
  rewrite Hleft in Hz. intros r Hr. apply (any_map_false _ _ Hz r Hr).
Qed.

(** The kernel basis is linearly independent. *)
Lemma kernel_lin_indep w R : lin_indep w (gf2_basis_for_gf2_rref w R).
Proof.
  unfold gf2_basis_for_gf2_rref.
  set (m := length R).
  set (rrf := gf2_gaus_elim (m + w) (hstack (transpose w R) (eye w))).
  set (f := fun r : vec => negb (any (firstn m r))).
  assert (Hrrf : width_ok (m + w) rrf /\ lin_indep (m + w) rrf).
  { apply (gf2_gaus_elim_closed _ _ _ (lin_indep_closed (m + w))). split.
    - apply width_hstack; [apply width_transpose|apply width_eye].
    - apply extended_lin_indep. }
  destruct Hrrf as [Hw Hind].
  pose proof (lin_indep_filter (m + w) f rrf Hind) as HF.
  intros c Hc Hzero. rewrite length_map in *.
  change (lincomb w c (map (skipn m) (filter f rrf)) = zeros w) in Hzero.
  apply HF; [exact Hc|].
  assert (HwF : width_ok (m + w) (filter f rrf)).
  { unfold width_ok in *. rewrite Forall_forall in *. intros r Hr.
    apply Hw. apply filter_In in Hr. tauto. }
  rewrite <- (firstn_skipn m (lincomb (m + w) c (filter f rrf))).
  rewrite <- lincomb_skipn, Hzero, <- lincomb_firstn.
  rewrite lincomb_zero_rows; [symmetry; apply repeat_app|].
  intros r Hr. apply in_map_iff in Hr as (row & <- & Hrow).
  apply filter_In in Hrow as [Hrow Hz]. unfold f in Hz.
  apply negb_true_iff, any_false_zeros in Hz.
  rewrite Hz, length_firstn. f_equal.
  unfold width_ok in Hw. rewrite Forall_forall in Hw. rewrite (Hw row Hrow). lia.
Qed.

Lemma kernel_width w R : width_ok w (gf2_basis_for_gf2_rref w R).
Proof.
  unfold width_ok. apply Forall_forall. intros k Hk.
  apply (kernel_orthogonal w R k Hk).
Qed.

End GF2Facts.

(* ================================================================== *)
(** * Facts about Pauli labels and their symplectic form *)
(* ================================================================== *)

Module PauliFacts.
Import GF2 Pauli GF2Facts.

Lemma length_symplectic t : length (symplectic_from_pauli t) = 2 * length t.
Proof. unfold symplectic_from_pauli. rewrite length_app, !length_map. lia. Qed.

Lemma length_ZX_row t : length (ZX_row t) = 2 * length t.
Proof. unfold ZX_row. rewrite length_app, !length_map. lia. Qed.

Lemma length_decode xs : forall zs,
  length xs = length zs -> length (decode xs zs) = length xs.
Proof. induction xs as [|x xs IH]; intros [|z zs] H; simpl in *; try discriminate; auto. Qed.

Lemma xbit_decode xs : forall zs,
  length xs = length zs -> map xbit (decode xs zs) = xs.
Proof.
  induction xs as [|x xs IH]; intros [|z zs] H; simpl in *; try discriminate; auto.
  rewrite IH by lia. destruct x, z; reflexivity.
Qed.

Lemma zbit_decode xs : forall zs,
  length xs = length zs -> map zbit (decode xs zs) = zs.
Proof.
  induction xs as [|x xs IH]; intros [|z zs] H; simpl in *; try discriminate; auto.
  rewrite IH by lia. destruct x, z; reflexivity.
Qed.

Lemma half_double n : (2 * n) / 2 = n.
Proof. rewrite Nat.mul_comm. apply Nat.div_mul. lia. Qed.

(** Decoding a row of even length and encoding it again gives the row. *)
Lemma symplectic_roundtrip n v :
  length v = 2 * n -> symplectic_from_pauli (pauli_from_symplectic v) = v.
Proof.
  intros Hv. unfold symplectic_from_pauli, pauli_from_symplectic.
  rewrite Hv, half_double.
  assert (Hl : length (firstn n v) = length (skipn n v))
    by (rewrite length_firstn, length_skipn; lia).
  rewrite xbit_decode, zbit_decode by exact Hl. apply firstn_skipn.
Qed.

Lemma length_pauli_from_symplectic n v :
  length v = 2 * n -> length (pauli_from_symplectic v) = n.
Proof.
  intros Hv. unfold pauli_from_symplectic. rewrite Hv, half_double.
  rewrite length_decode; rewrite length_firstn; [|rewrite length_skipn]; lia.
Qed.

Lemma anticommute1_bits a b :
  anticommute1 a b = xorb (xbit a && zbit b) (zbit a && xbit b).
Proof. destruct a, b; reflexivity. Qed.

Lemma anticommuting_sites_dot s : forall t, length s = length t ->
  anticommuting_sites s t
  = xorb (dot (map xbit s) (map zbit t)) (dot (map zbit s) (map xbit t)).
Proof.
  induction s as [|a s IH]; intros [|b t] H; simpl in *; try discriminate; auto.
  rewrite IH by lia. rewrite anticommute1_bits.
  destruct (xbit a && zbit b), (zbit a && xbit b),
    (dot (map xbit s) (map zbit t)), (dot (map zbit s) (map xbit t)); reflexivity.
Qed.

(** Commutation of two labels is the vanishing of the inner product of the
    ZX row of one with the XZ row of the other. *)
Lemma commutes_dot s t : length s = length t ->
  commutes s t = negb (dot (ZX_row t) (symplectic_from_pauli s)).
Proof.
  intros H. unfold commutes, ZX_row, symplectic_from_pauli.
  rewrite anticommuting_sites_dot by exact H.
  rewrite dot_app by (rewrite !length_map; lia).
  rewrite (dot_comm (map zbit t)), (dot_comm (map xbit t)). reflexivity.
Qed.

Lemma symplectic_identity n : symplectic_from_pauli (repeat sI n) = zeros (2 * n).
Proof.
  unfold symplectic_from_pauli, zeros.
  replace (2 * n) with (n + n) by lia. rewrite repeat_app.
  f_equal; induction n; simpl; congruence.
Qed.

Lemma width_swap_XZ_blocks n terms :
  Forall (fun t => length t = n) terms -> width_ok (2 * n) (swap_XZ_blocks terms).
Proof.
  unfold width_ok, swap_XZ_blocks. rewrite !Forall_forall. intros H r Hr.
  apply in_map_iff in Hr as (t & <- & Ht). rewrite length_ZX_row, (H t Ht). reflexivity.
Qed.

(** The decoded kernel basis of any matrix whose orthogonal complement lies
    inside that of the terms' ZX matrix is a sound Generator Set. *)
Lemma kernel_generators_ok n terms R :
  Forall (fun t => length t = n) terms ->
  (forall v, orthogonal R v -> orthogonal (swap_XZ_blocks terms) v) ->
  generator_set_ok n terms
    (map pauli_from_symplectic (gf2_basis_for_gf2_rref (2 * n) R)).
Proof.
  intros Hterms Horth.
  set (kernel := gf2_basis_for_gf2_rref (2 * n) R).
  assert (Hback : map symplectic_from_pauli (map pauli_from_symplectic kernel) = kernel).
  { rewrite map_map. rewrite <- (map_id kernel) at 2. apply map_ext_in.
    intros k Hk. apply (symplectic_roundtrip n).
    apply (kernel_orthogonal _ _ _ Hk). }
  pose proof (kernel_lin_indep (2 * n) R) as Hind. fold kernel in Hind.
  unfold generator_set_ok. rewrite Hback. split; [exact Hind|split].
  - intros g t Hg Ht. apply in_map_iff in Hg as (k & <- & Hk).
    destruct (kernel_orthogonal _ _ _ Hk) as [Hlen Ho].
    rewrite Forall_forall in Hterms.
    rewrite commutes_dot
      by (rewrite (length_pauli_from_symplectic n), (Hterms t Ht); auto).
    rewrite (symplectic_roundtrip n) by exact Hlen.
    rewrite (Horth k Ho (ZX_row t)); [reflexivity|].
    unfold swap_XZ_blocks. apply in_map, Ht.
  - intros Hid.
    apply (lin_indep_no_zero (2 * n) kernel (kernel_width _ _) Hind).
    rewrite <- Hback, <- symplectic_identity. apply in_map, Hid.
Qed.

End PauliFacts.

(* ================================================================== *)
(** * Symmetry generators and the noncontextual decomposition *)
(* ================================================================== *)

Module DecompositionFacts.
Import GF2 Pauli Py CsVqe GF2Facts PauliFacts.

Lemma width_drop_zero_rows w M : width_ok w M -> width_ok w (drop_zero_rows M).
Proof.
  unfold width_ok, drop_zero_rows. rewrite !Forall_forall. intros H r Hr.
  apply H. apply filter_In in Hr. tauto.
Qed.

Lemma orthogonal_drop_zero_rows M v :
  orthogonal (drop_zero_rows M) v -> orthogonal M v.
Proof.
  unfold orthogonal, drop_zero_rows. intros H r Hr.
  destruct (any r) eqn:Hany.
  - apply H, filter_In. auto.
  - apply any_false_dot, Hany.
Qed.

Lemma reduced_orthogonal n terms v :
  Forall (fun t => length t = n) terms ->
  orthogonal (drop_zero_rows (gf2_gaus_elim (2 * n) (swap_XZ_blocks terms))) v ->
  orthogonal (swap_XZ_blocks terms) v.
Proof.
  intros Hterms H. apply orthogonal_drop_zero_rows in H.
  eapply gf2_gaus_elim_orthogonal; [apply width_swap_XZ_blocks, Hterms|exact H].
Qed.

Lemma independent_generators_kernel n terms generators cliquereps :
  independent_generators n terms = Ok (generators, cliquereps) ->
  generators = map pauli_from_symplectic (snd (reduced_and_kernel n terms)).
Proof.
  unfold independent_generators.
  destruct (reduced_and_kernel n terms) as [XZ_reduced kernel]. simpl.
  destruct (np_stack (unique_rows kernel XZ_reduced)); simpl; congruence.
Qed.

(** C1.  For terms of [n] qubits each, the generators returned by
    [tapering.identify_symmetry_generators], and those computed from the
    kernel by [cs_vqe.independent_generators], are linearly independent over
    GF(2), commute with every input term, and do not contain the all-identity
    label. *)
Theorem symmetry_generators_sound n terms :
  Forall (fun t => length t = n) terms ->
  generator_set_ok n terms (Tapering.identify_symmetry_generators n terms) /\
  generator_set_ok n terms
    (map pauli_from_symplectic (snd (reduced_and_kernel n terms))) /\
  (forall generators cliquereps,
     independent_generators n terms = Ok (generators, cliquereps) ->
     generator_set_ok n terms generators).
Proof.
  intros Hterms.
  assert (Hcs : generator_set_ok n terms
                  (map pauli_from_symplectic (snd (reduced_and_kernel n terms)))).
  { unfold reduced_and_kernel. simpl. apply kernel_generators_ok; [exact Hterms|].
    intros v. apply reduced_orthogonal, Hterms. }
  split; [|split; [exact Hcs|]].
  - unfold Tapering.identify_symmetry_generators.
    apply kernel_generators_ok; [exact Hterms|].
    intros v Hv.
    apply (proj1 (gf2_gaus_elim_orthogonal (2 * n) (2 * n) _ v
                    (width_swap_XZ_blocks n terms Hterms))), Hv.
  - intros generators cliquereps H.
    rewrite (independent_generators_kernel _ _ _ _ H). exact Hcs.
Qed.

Lemma symmetry_generators_sound_witness :
  generator_set_ok 2 [[sZ; sZ]]
    (Tapering.identify_symmetry_generators 2 [[sZ; sZ]]) /\
  generator_set_ok 2 [[sZ; sZ]]
    (map pauli_from_symplectic (snd (reduced_and_kernel 2 [[sZ; sZ]]))) /\
  (forall generators cliquereps,
     independent_generators 2 [[sZ; sZ]] = Ok (generators, cliquereps) ->
     generator_set_ok 2 [[sZ; sZ]] generators).
Proof.
  apply (symmetry_generators_sound 2 [[sZ; sZ]]).
  repeat constructor.
Defined.

(** *** The selection of the clique candidates *)

Lemma where_from_nil mask : forall i,
  where_from i mask = [] <-> forallb negb mask = true.
Proof.
  induction mask as [|b mask IH]; intros i; simpl; [tauto|].
  destruct b; simpl; [split; discriminate|apply IH].
Qed.

Lemma row_minus_zero k : forall s, length k = length s ->
  any_nonzero (row_minus k s) = false <-> k = s.
Proof.
  unfold any_nonzero.
  induction k as [|a k IH]; intros [|b s] H; simpl in *; try discriminate;
    [tauto|].
  rewrite orb_false_iff, IH by lia.
  split.
  - intros [Hab ->]. f_equal. destruct a, b; simpl in Hab; congruence.
  - intros [= -> ->]. split; auto. destruct b; reflexivity.
Qed.

Lemma matching_kernel_rows_nil w kernel row :
  width_ok w kernel -> length row = w ->
  matching_kernel_rows kernel row = [] <-> ~ In row kernel.
Proof.
  intros Hw Hrow. unfold matching_kernel_rows, where_true.
  rewrite where_from_nil, forallb_forall.
  unfold width_ok in Hw. rewrite Forall_forall in Hw.
  split.
  - intros H Hin.
    specialize (H _ (in_map _ _ _ Hin)). cbv beta in H.
    rewrite negb_involutive in H.
    assert (E : any_nonzero (row_minus row row) = false)
      by (apply row_minus_zero; reflexivity).
    congruence.
  - intros Hnin b Hb. apply in_map_iff in Hb as (k & <- & Hk).
    rewrite negb_involutive.
    destruct (any_nonzero (row_minus k row)) eqn:E; [reflexivity|].
    exfalso. apply Hnin. apply row_minus_zero in E; [subst; exact Hk|].
    rewrite (Hw k Hk). auto.
Qed.


Lemma unique_rows_acc kernel XZ_reduced : forall acc,
  fold_left
    (fun acc sympauli =>
       match matching_kernel_rows kernel sympauli with
       | [] => acc ++ [sympauli]
       | _ :: _ => acc
       end) XZ_reduced acc
  = acc ++ filter (fun row => match matching_kernel_rows kernel row with
                              | [] => true
                              | _ :: _ => false
                              end) XZ_reduced.
Proof.
  induction XZ_reduced as [|row M IH]; intros acc; simpl.
  - rewrite app_nil_r. reflexivity.
  - rewrite IH. destruct (matching_kernel_rows kernel row); auto.
    rewrite <- app_assoc. reflexivity.
Qed.

Lemma vec_eqb_true a b : vec_eqb a b = true <-> a = b.
Proof. unfold vec_eqb. destruct (list_eq_dec Bool.bool_dec a b); split; congruence. Qed.

Lemma existsb_vec_eqb row kernel :
  existsb (vec_eqb row) kernel = true <-> In row kernel.
Proof.
  rewrite existsb_exists. split.
  - intros (k & Hk & E). apply vec_eqb_true in E. subst. exact Hk.
  - intros H. exists row. split; [exact H|apply vec_eqb_true; reflexivity].
Qed.

(** The rows appended by the loop are, in order, the rows of the reduced
    matrix that are equal to no row of the kernel basis. *)
Lemma clique_candidates_exact w kernel XZ_reduced :
  width_ok w kernel -> width_ok w XZ_reduced ->
  unique_rows kernel XZ_reduced
  = filter (fun row => negb (existsb (vec_eqb row) kernel)) XZ_reduced /\
  (forall row, In row (unique_rows kernel XZ_reduced)
               <-> In row XZ_reduced /\ ~ In row kernel).
Proof.
  intros Hk HM.
  assert (Heq : unique_rows kernel XZ_reduced
                = filter (fun row => negb (existsb (vec_eqb row) kernel)) XZ_reduced).
  { unfold unique_rows. rewrite unique_rows_acc. simpl.
    apply filter_ext_in. intros row Hrow.
    unfold width_ok in HM. rewrite Forall_forall in HM.
    pose proof (matching_kernel_rows_nil w kernel row Hk (HM row Hrow)) as Hnil.
    pose proof (existsb_vec_eqb row kernel) as Hex.
    destruct (matching_kernel_rows kernel row) as [|i l];
      destruct (existsb (vec_eqb row) kernel); simpl; auto.
    - exfalso. apply (proj1 Hnil eq_refl). apply Hex. reflexivity.
    - exfalso. assert (i :: l = []) by (apply Hnil; intros Hin; apply Hex in Hin; discriminate).
      discriminate. }
  split; [exact Heq|].
  intros row. rewrite Heq, filter_In, negb_true_iff.
  rewrite <- (existsb_vec_eqb row kernel).
  destruct (existsb (vec_eqb row) kernel); intuition congruence.
Qed.

(** C5.  On the single term ZZ the loop that should remove the symmetry
    generators keeps the reduced row of ZZ, although that row is the sum of
    the kernel rows of ZI and IZ: the rows kept are not the rows outside the
    span of the kernel.  The row kept is returned as the only clique
    representative, and it commutes with the term and with every
    generator. *)
Theorem unique_rows_keeps_span_row :
  let kernel := [[true; true; false; false]; [false; false; true; false];
                 [false; false; false; true]] in
  reduced_and_kernel 2 [[sZ; sZ]] = ([[false; false; true; true]], kernel) /\
  unique_rows kernel [[false; false; true; true]]
  = [[false; false; true; true]] /\
  in_span 4 kernel [false; false; true; true] /\
  ~ candidates_outside_kernel_span 2 [[sZ; sZ]] /\
  independent_generators 2 [[sZ; sZ]]
  = Ok ([[sX; sX]; [sZ; sI]; [sI; sZ]], [[sZ; sZ]]) /\
  forallb (commutes [sZ; sZ]) [[sZ; sZ]; [sX; sX]; [sZ; sI]; [sI; sZ]] = true.
Proof.
  intros kernel.
  assert (E : reduced_and_kernel 2 [[sZ; sZ]]
              = ([[false; false; true; true]], kernel)) by (vm_compute; reflexivity).
  assert (Hspan : in_span 4 kernel [false; false; true; true])
    by (exists [false; true; true]; split; reflexivity).
  split; [exact E|]. split; [vm_compute; reflexivity|]. split; [exact Hspan|].
  split; [|split; vm_compute; reflexivity].
  unfold candidates_outside_kernel_span. rewrite E. intros H.
  destruct (proj1 (H [false; false; true; true])) as [_ Hout].
  - vm_compute. left. reflexivity.
  - apply Hout, Hspan.
Qed.

(** *** Clique representatives and generators *)

Lemma commutes_sym s : forall t, commutes s t = commutes t s.
Proof.
  unfold commutes. intros t. f_equal. revert t.
  induction s as [|a s IH]; intros [|b t]; simpl; auto.
  rewrite IH. f_equal. destruct a, b; reflexivity.
Qed.

Lemma ZX_row_decode xs zs :
  length xs = length zs -> ZX_row (decode xs zs) = zs ++ xs.
Proof.
  intros H. unfold ZX_row. rewrite xbit_decode, zbit_decode by exact H. reflexivity.
Qed.

(** A row of the reduced ZX matrix, put back in XZ order and decoded, has
    that row as its ZX row. *)
Lemma ZX_row_swapped_back n r :
  length r = 2 * n ->
  ZX_row (pauli_from_symplectic (skipn n r ++ firstn n r)) = r.
Proof.
  intros Hr. unfold pauli_from_symplectic.
  assert (Hs : length (skipn n r) = n) by (rewrite length_skipn; lia).
  assert (Hf : length (firstn n r) = n) by (rewrite length_firstn; lia).
  rewrite length_app, Hs, Hf. replace (n + n) with (2 * n) by lia.
  rewrite half_double.
  rewrite firstn_app, skipn_app, Hs, Nat.sub_diag.
  rewrite (firstn_all2 (n := n) (skipn n r)), (skipn_all2 (n := n) (skipn n r)) by lia.
  rewrite firstn_O, skipn_O, app_nil_r. simpl.
  rewrite ZX_row_decode by lia. apply firstn_skipn.
Qed.

Lemma length_swapped_back n (r : vec) :
  length r = 2 * n -> length (skipn n r ++ firstn n r) = 2 * n.
Proof. intros H. rewrite length_app, length_skipn, length_firstn. lia. Qed.

Lemma sort_by_perm {A} (le : A -> A -> bool) l : Permutation (sort_by le l) l.
Proof.
  assert (Hins : forall x l, Permutation (insert_by le x l) (x :: l)).
  { intros x l0. induction l0 as [|y l0 IH]; simpl; auto.
    destruct (le x y); auto.
    etransitivity; [apply perm_skip, IH|apply perm_swap]. }
  induction l as [|x l IH]; simpl; auto.
  etransitivity; [apply Hins|apply perm_skip, IH].
Qed.

Lemma length_adjacency_matrix terms : length (adjacency_matrix terms) = length terms.
Proof. unfold adjacency_matrix. apply length_map. Qed.

Lemma pick_cliquereps_subset cliquereps c :
  In c (pick_cliquereps cliquereps) -> In c cliquereps.
Proof.
  unfold pick_cliquereps. intros H.
  apply in_map_iff in H as ([i b] & <- & Hib).
  apply filter_In in Hib as [Hib _]. apply in_combine_l in Hib.
  unfold lexsort_rows in Hib.
  apply (Permutation_in _ (sort_by_perm _ _)) in Hib.
  apply in_seq in Hib. rewrite length_adjacency_matrix in Hib.
  simpl. apply nth_In. lia.
Qed.

Lemma reduced_width n terms :
  Forall (fun t => length t = n) terms ->
  width_ok (2 * n) (drop_zero_rows (gf2_gaus_elim (2 * n) (swap_XZ_blocks terms))).
Proof.
  intros H. apply width_drop_zero_rows, gf2_gaus_elim_width, width_swap_XZ_blocks, H.
Qed.

Lemma unique_rows_subset kernel XZ_reduced row :
  In row (unique_rows kernel XZ_reduced) -> In row XZ_reduced.
Proof.
  unfold unique_rows. rewrite unique_rows_acc. simpl.
  intros H. apply filter_In in H. tauto.
Qed.

(** Every candidate row, decoded, commutes with every decoded kernel row. *)
Lemma candidates_commute_with_kernel n terms c g :
  Forall (fun t => length t = n) terms ->
  In c (map pauli_from_symplectic (fst (reduced_and_kernel n terms))) ->
  In g (map pauli_from_symplectic (snd (reduced_and_kernel n terms))) ->
  commutes c g = true.
Proof.
  intros Hterms Hc Hg. unfold reduced_and_kernel in *. simpl in *.
  set (ZX_reduced := drop_zero_rows (gf2_gaus_elim (2 * n) (swap_XZ_blocks terms))) in *.
  pose proof (reduced_width n terms Hterms) as Hw. fold ZX_reduced in Hw.
  unfold width_ok in Hw. rewrite Forall_forall in Hw.
  apply in_map_iff in Hc as (row & <- & Hrow).
  unfold swap_blocks_back in Hrow. apply in_map_iff in Hrow as (r & <- & Hr).
  apply in_map_iff in Hg as (k & <- & Hk).
  destruct (kernel_orthogonal _ _ _ Hk) as [Hlen Ho].
  rewrite commutes_sym, commutes_dot.
  - rewrite ZX_row_swapped_back by (apply Hw, Hr).
    rewrite (symplectic_roundtrip n) by exact Hlen.
    rewrite (Ho r Hr). reflexivity.
  - rewrite !(length_pauli_from_symplectic n); auto.
    apply length_swapped_back, Hw, Hr.
Qed.

(** In [independent_generators] the kernel rows and the rows of the reduced
    matrix have the same width, twice the number of qubits. *)
Lemma reduced_and_kernel_widths n terms :
  Forall (fun t => length t = n) terms ->
  width_ok (2 * n) (fst (reduced_and_kernel n terms)) /\
  width_ok (2 * n) (snd (reduced_and_kernel n terms)).
Proof.
  intros Hterms. unfold reduced_and_kernel. simpl. split; [|apply kernel_width].
  pose proof (reduced_width n terms Hterms) as Hw.
  unfold width_ok, swap_blocks_back in *. rewrite Forall_forall in *.
  intros row Hrow. apply in_map_iff in Hrow as (r & <- & Hr).
  apply length_swapped_back, Hw, Hr.
Qed.

(** *** The stable sort and the removal of repeated commutation patterns *)

Lemma lex_le_total a : forall b, lex_le a b = true \/ lex_le b a = true.
Proof.
  induction a as [|x a IH]; intros [|y b]; simpl; auto.
  destruct x, y; simpl; auto.
Qed.

Lemma lex_le_trans a : forall b c,
  lex_le a b = true -> lex_le b c = true -> lex_le a c = true.
Proof.
  induction a as [|x a IH]; intros [|y b] [|z c]; simpl; auto; try discriminate.
  destruct x, y, z; simpl; auto; try discriminate; apply IH.
Qed.

Lemma lex_le_antisym a : forall b, length a = length b ->
  lex_le a b = true -> lex_le b a = true -> a = b.
Proof.
  induction a as [|x a IH]; intros [|y b] H; simpl in *; try discriminate; auto.
  destruct x, y; simpl; try discriminate; intros H1 H2; f_equal; apply IH; auto.
Qed.

Lemma insert_by_sorted {A} (le : A -> A -> bool) :
  (forall a b, le a b = true \/ le b a = true) ->
  (forall a b c, le a b = true -> le b c = true -> le a c = true) ->
  forall x l, StronglySorted (fun a b => le a b = true) l ->
              StronglySorted (fun a b => le a b = true) (insert_by le x l).
Proof.
  intros Htot Htrans x l Hs. induction Hs as [|y l Hs IH Hy]; simpl.
  - constructor; constructor.
  - destruct (le x y) eqn:E.
    + constructor; [constructor; assumption|].
      constructor; [exact E|].
      rewrite Forall_forall in *. intros z Hz. eapply Htrans; eauto.
    + constructor; [exact IH|].
      assert (Hyx : le y x = true) by (destruct (Htot x y); congruence).
      rewrite Forall_forall in *. intros z Hz.
      assert (Hp : Permutation (insert_by le x l) (x :: l)).
      { clear. induction l as [|w l IHl]; simpl; auto.
        destruct (le x w); auto.
        etransitivity; [apply perm_skip, IHl|apply perm_swap]. }
      apply (Permutation_in _ Hp) in Hz. destruct Hz as [<-|Hz]; auto.
Qed.

Lemma sort_by_sorted {A} (le : A -> A -> bool) :
  (forall a b, le a b = true \/ le b a = true) ->
  (forall a b c, le a b = true -> le b c = true -> le a c = true) ->
  forall l, StronglySorted (fun a b => le a b = true) (sort_by le l).
Proof.
  intros Htot Htrans. induction l as [|x l IH]; simpl.
  - constructor.
  - apply insert_by_sorted; assumption.
Qed.

Lemma any_vxor_false (a b : vec) :
  length a = length b -> any (vxor a b) = false -> a = b.
Proof.
  intros H Hany. apply (vxor_cancel (length a)); auto.
  apply any_false_zeros in Hany. rewrite Hany, length_vxor, <- H, Nat.min_id.
  reflexivity.
Qed.

Section Dedup.

(** The rows of a commutation matrix, all of one length, and the order the
    sort compares them in. *)
Variable row : nat -> vec.
Variable m : nat.
Hypothesis row_length : forall i, i < m -> length (row i) = m.

Let R (i j : nat) : Prop := lex_le (rev (row i)) (rev (row j)) = true.

Lemma kept_cons2 b0 i j rest :
  kept row b0 (i :: j :: rest)
  = (if b0 then [i] else [])
    ++ kept row (any (vxor (row j) (row i))) (j :: rest).
Proof. unfold kept. simpl. destruct b0; reflexivity. Qed.

Lemma kept_subset b0 order x : In x (kept row b0 order) -> In x order.
Proof.
  unfold kept. intros H. apply in_map_iff in H as ([i b] & <- & H).
  apply filter_In in H as [H _]. apply in_combine_l in H. exact H.
Qed.

Lemma R_antisym i j : i < m -> j < m -> R i j -> R j i -> row i = row j.
Proof.
  unfold R. intros Hi Hj H1 H2.
  rewrite <- (rev_involutive (row i)), <- (rev_involutive (row j)).
  f_equal. apply lex_le_antisym; auto.
  rewrite !length_rev, !row_length by assumption. reflexivity.
Qed.

Lemma R_trans i j k : R i j -> R j k -> R i k.
Proof. unfold R. apply lex_le_trans. Qed.

(** Nothing kept from a sorted tail has the row of an element [prev] that
    precedes the tail, provided the head is only kept when it differs from
    [prev]. *)
Lemma kept_differs_from_prev order : forall b0 prev,
  Forall (fun i => i < m) (prev :: order) ->
  StronglySorted R (prev :: order) ->
  (b0 = true -> row (hd prev order) <> row prev) ->
  forall x, In x (kept row b0 order) -> row x <> row prev.
Proof.
  induction order as [|i rest IH]; intros b0 prev Hm Hs Hb x Hx.
  - unfold kept in Hx. simpl in Hx. contradiction.
  - inversion Hs as [|? ? Hs' Hprev]; subst.
    inversion Hs' as [|? ? Hs'' Hi]; subst.
    inversion Hm as [|? ? Hpm Hm']; subst.
    inversion Hm' as [|? ? Him Hm'']; subst.
    rewrite Forall_forall in Hprev, Hi.
    assert (Hstep : forall y, In y rest -> row y = row prev -> row i = row prev).
    { intros y Hy E. apply R_antisym; auto; [|apply Hprev; simpl; auto].
      unfold R. rewrite <- E. apply Hi, Hy. }
    destruct rest as [|j rest'].
    + unfold kept in Hx. simpl in Hx. destruct b0; simpl in Hx; [|contradiction].
      destruct Hx as [<-|[]]. apply Hb. reflexivity.
    + rewrite kept_cons2 in Hx. apply in_app_or in Hx as [Hx|Hx].
      * destruct b0; simpl in Hx; [|contradiction].
        destruct Hx as [<-|[]]. apply Hb. reflexivity.
      * intros E.
        pose proof (kept_subset _ _ _ Hx) as Hin.
        pose proof (Hstep x Hin E) as Ei.
        apply (IH (any (vxor (row j) (row i))) i Hm' Hs') in Hx.
        -- apply Hx. congruence.
        -- simpl. intros Hd Ej. rewrite Ej, vxor_nilpotent, any_zeros in Hd.
           discriminate.
Qed.

(** The rows of the kept indices are pairwise different. *)
Lemma kept_pairwise order : forall b0,
  Forall (fun i => i < m) order ->
  StronglySorted R order ->
  ForallOrdPairs (fun x y => row x <> row y) (kept row b0 order).
Proof.
  induction order as [|i rest IH]; intros b0 Hm Hs.
  - constructor.
  - destruct rest as [|j rest'].
    + unfold kept. simpl. destruct b0; simpl; repeat constructor.
    + rewrite kept_cons2. inversion Hs as [|? ? Hs' Hi]; subst.
      inversion Hm as [|? ? Him Hm']; subst.
      specialize (IH (any (vxor (row j) (row i))) Hm' Hs').
      destruct b0; simpl; [|exact IH].
      constructor; [|exact IH].
      apply Forall_forall. intros x Hx E.
      apply (kept_differs_from_prev (j :: rest') _ i Hm Hs) in Hx.
      * apply Hx. congruence.
      * simpl. intros Hd Ej. rewrite Ej, vxor_nilpotent, any_zeros in Hd.
        discriminate.
Qed.

End Dedup.

Lemma pick_cliquereps_kept cliquereps :
  pick_cliquereps cliquereps
  = map (fun i => nth i cliquereps [])
        (kept (nth_row (adjacency_matrix cliquereps)) true
              (lexsort_rows (adjacency_matrix cliquereps))).
Proof. unfold pick_cliquereps, kept. rewrite map_map. reflexivity. Qed.

Lemma nth_row_adjacency cliquereps i :
  i < length cliquereps ->
  nth_row (adjacency_matrix cliquereps) i
  = map (commutes (nth i cliquereps [])) cliquereps.
Proof.
  intros Hi. unfold nth_row, adjacency_matrix.
  rewrite (nth_indep _ [] (map (commutes []) cliquereps))
    by (rewrite length_map; exact Hi).
  rewrite (map_nth (fun s => map (fun t => commutes s t) cliquereps)).
  reflexivity.
Qed.

Lemma lexsort_rows_sorted A :
  StronglySorted
    (fun i j => lex_le (rev (nth_row A i)) (rev (nth_row A j)) = true)
    (lexsort_rows A).
Proof.
  unfold lexsort_rows.
  apply (sort_by_sorted
           (fun i j => lex_le (rev (nth_row A i)) (rev (nth_row A j)))).
  - intros a b. apply lex_le_total.
  - intros a b c. apply lex_le_trans.
Qed.

Lemma lexsort_rows_bound A : Forall (fun i => i < length A) (lexsort_rows A).
Proof.
  apply Forall_forall. intros i Hi. unfold lexsort_rows in Hi.
  apply (Permutation_in _ (sort_by_perm _ _)) in Hi. apply in_seq in Hi. lia.
Qed.

(** Two different representatives picked from the candidates have different
    commutation patterns against the candidates. *)
Lemma pick_cliquereps_patterns cliquereps c1 c2 :
  In c1 (pick_cliquereps cliquereps) -> In c2 (pick_cliquereps cliquereps) ->
  c1 <> c2 ->
  map (commutes c1) cliquereps <> map (commutes c2) cliquereps.
Proof.
  rewrite pick_cliquereps_kept.
  set (A := adjacency_matrix cliquereps).
  intros H1 H2 Hne.
  apply in_map_iff in H1 as (i1 & <- & H1).
  apply in_map_iff in H2 as (i2 & <- & H2).
  pose proof (lexsort_rows_bound A) as Hb.
  unfold A in Hb at 1. rewrite length_adjacency_matrix in Hb.
  assert (Hlt : forall i, In i (kept (nth_row A) true (lexsort_rows A)) ->
                          i < length cliquereps).
  { intros i Hi. apply kept_subset in Hi. rewrite Forall_forall in Hb. auto. }
  rewrite <- !nth_row_adjacency by auto. fold A.
  assert (Hpair : ForallOrdPairs (fun x y => nth_row A x <> nth_row A y)
                    (kept (nth_row A) true (lexsort_rows A))).
  { apply (kept_pairwise (nth_row A) (length cliquereps)).
    - intros i Hi. unfold A. rewrite nth_row_adjacency, length_map by exact Hi.
      reflexivity.
    - exact Hb.
    - apply lexsort_rows_sorted. }
  destruct (ForallOrdPairs_In Hpair _ _ H1 H2) as [E|[Hd|Hd]].
  - subst. contradiction.
  - exact Hd.
  - intros E. apply Hd. symmetry. exact E.
Qed.

(** For terms of [n] qubits each, every clique representative returned by
    [cs_vqe.independent_generators] commutes with every returned generator;
    the representatives are taken from the decoded candidate rows, and two
    different representatives have different commutation patterns against
    the candidates.  When commutation is transitive among the candidates,
    two different representatives anticommute. *)
Theorem cliquereps_commute_with_generators n terms generators cliquereps :
  Forall (fun t => length t = n) terms ->
  independent_generators n terms = Ok (generators, cliquereps) ->
  let '(XZ_reduced, kernel) := reduced_and_kernel n terms in
  let candidates := map pauli_from_symplectic (unique_rows kernel XZ_reduced) in
  (forall c g, In c cliquereps -> In g generators -> commutes c g = true) /\
  (forall c, In c cliquereps -> In c candidates) /\
  (forall c1 c2, In c1 cliquereps -> In c2 cliquereps -> c1 <> c2 ->
                 map (commutes c1) candidates <> map (commutes c2) candidates) /\
  ((forall a b c, In a candidates -> In b candidates -> In c candidates ->
                  commutes a b = true -> commutes b c = true ->
                  commutes a c = true) ->
   forall c1 c2, In c1 cliquereps -> In c2 cliquereps -> c1 <> c2 ->
                 commutes c1 c2 = false).
Proof.
  intros Hterms Hrun.
  pose proof (candidates_commute_with_kernel n terms) as Hcomm.
  unfold independent_generators in Hrun.
  destruct (reduced_and_kernel n terms) as [XZ_reduced kernel].
  cbn [fst snd] in Hcomm.
  destruct (np_stack (unique_rows kernel XZ_reduced)) as [anti_kernel|e] eqn:Hst;
    simpl in Hrun; [|discriminate].
  assert (anti_kernel = unique_rows kernel XZ_reduced) as ->.
  { unfold np_stack in Hst. destruct (unique_rows kernel XZ_reduced);
      [discriminate|congruence]. }
  injection Hrun as <- <-.
  split; [|split; [|split]].
  - intros c g Hc Hg. apply Hcomm; auto.
    apply pick_cliquereps_subset in Hc.
    apply in_map_iff in Hc as (r & <- & Hr).
    apply in_map, (unique_rows_subset kernel), Hr.
  - intros c. apply pick_cliquereps_subset.
  - intros c1 c2. apply pick_cliquereps_patterns.
  - intros Htrans c1 c2 H1 H2 Hne.
    destruct (commutes c1 c2) eqn:E12; [exfalso|reflexivity].
    apply (pick_cliquereps_patterns _ c1 c2 H1 H2 Hne).
    apply pick_cliquereps_subset in H1, H2.
    apply map_ext_in. intros d Hd.
    destruct (commutes c1 d) eqn:E1, (commutes c2 d) eqn:E2; try reflexivity.
    + rewrite <- E2. symmetry. apply (Htrans c2 c1 d); auto.
      rewrite commutes_sym. exact E12.
    + rewrite <- E1. apply (Htrans c1 c2 d); auto.
Qed.

Lemma cliquereps_commute_with_generators_witness :
  let terms := [[sX; sI]; [sZ; sI]; [sI; sZ]] in
  let generators := [[sI; sZ]] in
  let cliquereps := [[sZ; sI]; [sX; sI]] in
  let '(XZ_reduced, kernel) := reduced_and_kernel 2 terms in
  let candidates := map pauli_from_symplectic (unique_rows kernel XZ_reduced) in
  (forall c g, In c cliquereps -> In g generators -> commutes c g = true) /\
  (forall c, In c cliquereps -> In c candidates) /\
  (forall c1 c2, In c1 cliquereps -> In c2 cliquereps -> c1 <> c2 ->
                 map (commutes c1) candidates <> map (commutes c2) candidates) /\
  ((forall a b c, In a candidates -> In b candidates -> In c candidates ->
                  commutes a b = true -> commutes b c = true ->
                  commutes a c = true) ->
   forall c1 c2, In c1 cliquereps -> In c2 cliquereps -> c1 <> c2 ->
                 commutes c1 c2 = false).
Proof.
  apply (cliquereps_commute_with_generators 2
           [[sX; sI]; [sZ; sI]; [sI; sZ]]).
  - repeat constructor.
  - vm_compute. reflexivity.
Defined.

(** C3.  On the noncontextual set XII, ZII, IZZ the method returns the
    clique representatives ZII, XII and IZZ.  IZZ is the product of the
    generators IZI and IIZ, so it belongs to the symmetry; its row is kept
    as a candidate because it is equal to no single kernel row, and it is
    returned as a representative although it commutes with the
    representatives ZII and XII. *)
Theorem independent_generators_commuting_cliquereps :
  let terms := [[sX; sI; sI]; [sZ; sI; sI]; [sI; sZ; sZ]] in
  let generators := [[sI; sX; sX]; [sI; sZ; sI]; [sI; sI; sZ]] in
  let cliquereps := [[sZ; sI; sI]; [sX; sI; sI]; [sI; sZ; sZ]] in
  noncontextual terms = true /\
  independent_generators 3 terms = Ok (generators, cliquereps) /\
  multiply_paulis [sI; sZ; sI] [sI; sI; sZ] = [sI; sZ; sZ] /\
  in_span 6 (snd (reduced_and_kernel 3 terms))
    (symplectic_from_pauli [sI; sZ; sZ]) /\
  commutes [sZ; sI; sI] [sI; sZ; sZ] = true /\
  commutes [sX; sI; sI] [sI; sZ; sZ] = true /\
  ~ decomposition_invariant generators cliquereps.
Proof.
  intros terms generators cliquereps.
  split; [vm_compute; reflexivity|]. split; [vm_compute; reflexivity|].
  split; [vm_compute; reflexivity|].
  split; [exists [false; true; true]; split; vm_compute; reflexivity|].
  split; [vm_compute; reflexivity|]. split; [vm_compute; reflexivity|].
  intros [_ H].
  specialize (H [sZ; sI; sI] [sI; sZ; sZ]).
  assert (E : commutes [sZ; sI; sI] [sI; sZ; sZ] = false).
  { apply H; simpl; auto; discriminate. }
  vm_compute in E. discriminate.
Qed.

(** When no row of the reduced matrix differs from every kernel row, the
    method stops at [np.stack] with a [ValueError]: no clique candidate is
    left to stack. *)
Theorem independent_generators_needs_candidate n terms :
  unique_rows (snd (reduced_and_kernel n terms)) (fst (reduced_and_kernel n terms))
  = [] ->
  independent_generators n terms
  = Raise (ValueError "need at least one array to stack").
Proof.
  unfold independent_generators.
  destruct (reduced_and_kernel n terms) as [XZ_reduced kernel]. simpl.
  intros ->. reflexivity.
Qed.

Lemma independent_generators_needs_candidate_witness :
  independent_generators 2 [[sZ; sI]; [sI; sZ]]
  = Raise (ValueError "need at least one array to stack").
Proof.
  apply (independent_generators_needs_candidate 2 [[sZ; sI]; [sI; sZ]]).
  vm_compute. reflexivity.
Defined.

End DecompositionFacts.

(* ================================================================== *)
(** * The classical objective function *)
(* ================================================================== *)

Module ObjectiveFacts.
Import GF2 Pauli Py CsVqe.
Local Open Scope R_scope.

Lemma traverse_map {A B} (f : A -> result B) (g : A -> B) l :
  (forall x, In x l -> f x = Ok (g x)) -> traverse f l = Ok (map g l).
Proof.
  induction l as [|x l IH]; intros H; simpl; auto.
  rewrite (H x) by (simpl; auto). simpl.
  rewrite IH by (intros; apply H; simpl; auto). reflexivity.
Qed.

Lemma get_param_q input_params i :
  is_Some (input_params !! q_key i) ->
  get_param input_params (q_key i) = Ok (q_value input_params i).
Proof.
  intros [v Hv]. unfold get_param, q_value. rewrite Hv. reflexivity.
Qed.

Lemma fold_left_Rmult l : forall a, fold_left Rmult l a = a * fold_right Rmult 1 l.
Proof.
  induction l as [|x l IH]; intros a; simpl; [lra|]. rewrite IH. lra.
Qed.

Lemma np_prod_fold_right l : np_prod l = fold_right Rmult 1 l.
Proof. unfold np_prod. rewrite fold_left_Rmult. lra. Qed.

Lemma item_nth (l : list R) i : (i < length l)%nat -> item l i = Ok (nth i l 0).
Proof.
  intros H. unfold item.
  destruct (nth_error l i) eqn:E.
  - rewrite (nth_error_nth _ _ _ E). reflexivity.
  - apply nth_error_None in E. lia.
Qed.

Lemma objfnc_step_value input_params t acc term :
  evaluable input_params term ->
  objfnc_step input_params t acc term
  = Ok (acc + energy_summand input_params t term).
Proof.
  destruct term as [[h_G q_indices] h_GCs]. intros [Hlen Hq]. simpl in *.
  unfold objfnc_step.
  rewrite (traverse_map _ (q_value input_params)).
  - simpl. rewrite !item_nth by lia. simpl.
    rewrite np_prod_fold_right. reflexivity.
  - rewrite Forall_forall in Hq. intros i Hi. apply get_param_q, Hq, Hi.
Qed.

Lemma objfnc_loop_value input_params t prms : forall acc,
  Forall (evaluable input_params) prms ->
  objfnc_loop input_params t acc prms
  = Ok (acc + energy prms input_params t).
Proof.
  unfold energy.
  induction prms as [|term prms IH]; intros acc H; simpl.
  - f_equal. lra.
  - inversion H; subst. rewrite objfnc_step_value by assumption. simpl.
    rewrite IH by assumption. f_equal. lra.
Qed.

(** C2.  On stored terms that each carry two clique coefficients, and an
    input that assigns [theta] and a value to every generator index used,
    [classical_obj_fnc] returns the sum over the terms of
    [(h_G + sin theta * h_GC1 + cos theta * h_GC2)] times the product of the
    [q_i] of the term's index set. *)
Theorem classical_obj_fnc_value objfncprms input_params theta :
  input_params !! "theta" = Some theta ->
  Forall (evaluable input_params) objfncprms ->
  classical_obj_fnc objfncprms input_params
  = Ok (energy objfncprms input_params theta).
Proof.
  intros Ht H. unfold classical_obj_fnc, get_param. rewrite Ht. simpl.
  rewrite objfnc_loop_value by exact H. f_equal. lra.
Qed.


Lemma classical_obj_fnc_value_witness :
  let input_params : gmap string R :=
    <["q0" := -1]> (<["theta" := 0]> (∅ : gmap string R)) in
  classical_obj_fnc [(1, [0%nat], [2; 3])] input_params
  = Ok (energy [(1, [0%nat], [2; 3])] input_params 0).
Proof.
  apply classical_obj_fnc_value.
  - reflexivity.
  - repeat constructor. vm_compute. eexists. reflexivity.
Defined.

(** *** A single clique representative *)

Lemma fold_left_retained {A B} (f : A -> B) (keep : B -> bool) l : forall acc,
  fold_left (fun acc e => let t := f e in if keep t then acc ++ [t] else acc) l acc
  = acc ++ filter keep (map f l).
Proof.
  induction l as [|e l IH]; intros acc; simpl.
  - rewrite app_nil_r. reflexivity.
  - rewrite IH. destruct (keep (f e)); auto. rewrite <- app_assoc. reflexivity.
Qed.

Section AnyProduct.

Variable multiply_pauli_list : list PauliTerm -> PauliTerm.
Variable multiply_paulis : PauliTerm -> PauliTerm -> PauliTerm.

Local Abbreviation params :=
  (classical_obj_fnc_params R 0 Req_dec_T multiply_pauli_list multiply_paulis).




End AnyProduct.

Lemma is_nonzero_0 : is_nonzero R 0 Req_dec_T 0 = false.
Proof. unfold is_nonzero. destruct (Req_dec_T 0 0); congruence. Qed.

Lemma is_nonzero_1 : is_nonzero R 0 Req_dec_T 1 = true.
Proof. unfold is_nonzero. destruct (Req_dec_T 1 0); auto. lra. Qed.




(** *** The closure of the generators *)

Lemma combinations_map {A B} (f : A -> B) l : forall k,
  combinations (map f l) k = map (map f) (combinations l k).
Proof.
  induction l as [|x l IH]; intros [|k]; simpl; auto.
  rewrite map_app, map_map, !IH, map_map. reflexivity.
Qed.

Lemma map_nth_seq_id {A} (d : A) l :
  map (fun i => nth i l d) (seq 0 (length l)) = l.
Proof.
  induction l as [|x l IH]; simpl; auto.
  rewrite <- seq_shift, map_map. simpl. rewrite IH. reflexivity.
Qed.

Lemma map_flat_map_comm {A B C} (f : B -> C) (g : A -> list B) l :
  flat_map (fun a => map f (g a)) l = map f (flat_map g l).
Proof.
  induction l as [|a l IH]; simpl; auto. rewrite map_app, IH. reflexivity.
Qed.

Lemma G_combs_select G :
  G_combs G = map (select G) (index_subsets (length G)).
Proof.
  unfold G_combs, index_subsets. rewrite <- map_flat_map_comm.
  apply flat_map_ext. intros k.
  rewrite <- (map_nth_seq_id [] G) at 1. apply combinations_map.
Qed.

Lemma combinations_length {A} (l : list A) : forall k c,
  In c (combinations l k) -> length c = k.
Proof.
  induction l as [|x l IH]; intros [|k] c H; simpl in *.
  - destruct H as [<-|[]]. reflexivity.
  - contradiction.
  - destruct H as [<-|[]]. reflexivity.
  - apply in_app_or in H as [H|H].
    + apply in_map_iff in H as (c' & <- & H). simpl. f_equal. eapply IH, H.
    + eapply IH, H.
Qed.

Lemma combinations_incl {A} (l : list A) : forall k c,
  In c (combinations l k) -> incl c l.
Proof.
  induction l as [|x l IH]; intros [|k] c H; simpl in *.
  - destruct H as [<-|[]]. intros y [].
  - contradiction.
  - destruct H as [<-|[]]. intros y [].
  - apply in_app_or in H as [H|H].
    + apply in_map_iff in H as (c' & <- & H).
      intros y [<-|Hy]; simpl; auto. right. eapply IH; eauto.
    + intros y Hy. right. eapply IH; eauto.
Qed.

Lemma combinations_overflow {A} (l : list A) : forall k,
  (length l < k)%nat -> combinations l k = [].
Proof.
  induction l as [|x l IH]; intros [|k] H; simpl in *; try lia; auto.
  rewrite !IH by lia. reflexivity.
Qed.

Lemma NoDup_combinations {A} (l : list A) :
  NoDup l -> forall k, NoDup (combinations l k).
Proof.
  induction 1 as [|x l Hx Hl IH]; intros [|k]; simpl.
  - repeat constructor. intros [].
  - constructor.
  - repeat constructor. intros [].
  - apply NoDup_app.
    + apply Finite.Injective_map_NoDup; [|apply IH]. intros a b. congruence.
    + apply IH.
    + intros c Hc1 Hc2. apply in_map_iff in Hc1 as (c' & <- & _).
      apply combinations_incl in Hc2. apply Hx, Hc2. simpl. auto.
Qed.

Lemma index_subsets_In m q :
  In q (index_subsets m) <->
  (1 <= length q <= m)%nat /\ In q (combinations (seq 0 m) (length q)).
Proof.
  unfold index_subsets. rewrite in_flat_map. split.
  - intros (k & Hk & Hq). apply in_seq in Hk.
    rewrite (combinations_length _ _ _ Hq). split; [lia|exact Hq].
  - intros [Hlen Hq]. exists (length q). split; [apply in_seq; lia|exact Hq].
Qed.

Lemma NoDup_index_subsets m : NoDup (index_subsets m).
Proof.
  unfold index_subsets.
  assert (H : forall ks, NoDup ks ->
            NoDup (flat_map (fun k => combinations (seq 0 m) k) ks)).
  { induction 1 as [|k ks Hk Hks IH]; simpl; [constructor|].
    apply NoDup_app; [apply NoDup_combinations, seq_NoDup|exact IH|].
    intros c Hc1 Hc2. apply in_flat_map in Hc2 as (k' & Hk' & Hc2).
    apply combinations_length in Hc1, Hc2. apply Hk. congruence. }
  apply H, seq_NoDup.
Qed.

Lemma combinations_seq_In m : forall a k q,
  In q (combinations (seq a m) k) <->
  length q = k /\ StronglySorted lt q /\ Forall (fun i => a <= i < a + m)%nat q.
Proof.
  assert (Hnil : forall (q : list nat) (P : nat -> Prop),
            In q [[]] <-> length q = 0%nat /\ StronglySorted lt q /\ Forall P q).
  { intros q P. split.
    - intros [<-|[]]. repeat constructor.
    - intros [H _]. destruct q; simpl in *; [auto|discriminate]. }
  induction m as [|m IH]; intros a [|k] q; simpl.
  - apply Hnil.
  - split; [intros []|]. intros (Hlen & _ & Hb).
    destruct q as [|x q]; simpl in *; [discriminate|].
    inversion Hb; subst. lia.
  - apply Hnil.
  - rewrite in_app_iff, in_map_iff. split.
    + intros [(q' & <- & Hq')|Hq].
      * apply IH in Hq' as (Hlen & Hs & Hb). simpl. split; [lia|split].
        -- constructor; [exact Hs|]. eapply Forall_impl; [|exact Hb].
           simpl. intros i Hi. lia.
        -- constructor; [lia|]. eapply Forall_impl; [|exact Hb].
           simpl. intros i Hi. lia.
      * apply IH in Hq as (Hlen & Hs & Hb). split; [exact Hlen|split; [exact Hs|]].
        eapply Forall_impl; [|exact Hb]. simpl. intros i Hi. lia.
    + intros (Hlen & Hs & Hb).
      destruct q as [|x q']; simpl in Hlen; [discriminate|].
      inversion Hs as [|? ? Hs' Hx]; subst. inversion Hb as [|? ? Hxb Hb']; subst.
      destruct (Nat.eq_dec x a) as [->|Hne].
      * left. exists q'. split; [reflexivity|]. apply IH.
        split; [lia|split; [exact Hs'|]].
        rewrite Forall_forall in *. intros i Hi.
        specialize (Hx i Hi). specialize (Hb' i Hi). lia.
      * right. apply IH. split; [simpl; lia|split; [exact Hs|]].
        constructor; [lia|].
        rewrite Forall_forall in *. intros i Hi.
        specialize (Hx i Hi). specialize (Hb' i Hi). lia.
Qed.

(** The index sets of the closure are the non-empty strictly increasing
    lists of positions below [m]. *)
Lemma index_subsets_spec m q :
  In q (index_subsets m) <->
  q <> [] /\ StronglySorted lt q /\ Forall (fun i => i < m)%nat q.
Proof.
  rewrite index_subsets_In, combinations_seq_In. split.
  - intros (Hlen & _ & Hs & Hb). split; [|split; [exact Hs|]].
    + intros ->. simpl in Hlen. lia.
    + eapply Forall_impl; [|exact Hb]. simpl. intros i Hi. lia.
  - intros (Hne & Hs & Hb).
    assert (Hq : In q (combinations (seq 0 m) (length q))).
    { apply combinations_seq_In. split; [reflexivity|split; [exact Hs|]].
      eapply Forall_impl; [|exact Hb]. simpl. intros i Hi. lia. }
    split; [|apply combinations_seq_In, Hq].
    split.
    + destruct q; simpl; [congruence|lia].
    + destruct (Nat.le_gt_cases (length q) m) as [Hle|Hgt]; [exact Hle|].
      rewrite combinations_overflow in Hq by (rewrite length_seq; exact Hgt).
      contradiction.
Qed.

Lemma list_sum_seq_S (f : nat -> nat) j :
  list_sum (map f (seq 0 (S j))) = (list_sum (map f (seq 0 j)) + f j)%nat.
Proof. rewrite seq_S, map_app, list_sum_app. simpl. lia. Qed.

Lemma count_cons {A} (x : A) l : forall j,
  list_sum (map (fun k => length (combinations (x :: l) k)) (seq 0 (S j)))
  = (list_sum (map (fun k => length (combinations l k)) (seq 0 j))
     + list_sum (map (fun k => length (combinations l k)) (seq 0 (S j))))%nat.
Proof.
  induction j as [|j IH].
  - simpl. destruct l; reflexivity.
  - rewrite (list_sum_seq_S (fun k => length (combinations (x :: l) k)) (S j)).
    rewrite IH.
    rewrite (list_sum_seq_S (fun k => length (combinations l k)) (S j)).
    rewrite (list_sum_seq_S (fun k => length (combinations l k)) j).
    simpl. rewrite length_app, length_map. lia.
Qed.

Lemma count_all {A} (l : list A) :
  list_sum (map (fun k => length (combinations l k)) (seq 0 (S (length l))))
  = (2 ^ length l)%nat.
Proof.
  induction l as [|x l IH].
  - reflexivity.
  - change (length (x :: l)) with (S (length l)). rewrite count_cons, IH.
    rewrite (list_sum_seq_S (fun k => length (combinations l k)) (S (length l))).
    rewrite IH, combinations_overflow by lia. simpl. lia.
Qed.

Lemma length_index_subsets m : length (index_subsets m) = (2 ^ m - 1)%nat.
Proof.
  unfold index_subsets. rewrite length_flat_map.
  pose proof (count_all (seq 0 m)) as H. rewrite length_seq in H.
  rewrite <- cons_seq in H. simpl in H.
  destruct m; simpl in *; lia.
Qed.

Lemma traverse_map_of {A B C} (h : A -> B) (f : B -> result C) (g : A -> C) l :
  (forall x, In x l -> f (h x) = Ok (g x)) ->
  traverse f (map h l) = Ok (map g l).
Proof.
  induction l as [|x l IH]; intros H; simpl; auto.
  rewrite (H x) by (simpl; auto). simpl.
  rewrite IH by (intros; apply H; simpl; auto). reflexivity.
Qed.

Lemma index_nth (G : list PauliTerm) : NoDup G -> forall i,
  (i < length G)%nat -> index term_eq_dec (nth i G []) G = Ok i.
Proof.
  induction 1 as [|y G Hy HG IH]; intros [|i] Hi; simpl in *; try lia.
  - destruct (term_eq_dec y y); congruence.
  - destruct (term_eq_dec y (nth i G [])) as [E|_].
    + exfalso. apply Hy. rewrite E. apply nth_In. lia.
    + rewrite IH by lia. reflexivity.
Qed.

Section Closure.

Variable coeff : Type.
Variable czero : coeff.
Variable coeff_eq_dec : forall a b : coeff, {a = b} + {a <> b}.
Variable multiply_pauli_list : list PauliTerm -> PauliTerm.
Variable multiply_paulis : PauliTerm -> PauliTerm -> PauliTerm.

Lemma G_closure_value n G : NoDup G ->
  G_closure multiply_pauli_list n G
  = Ok (map (fun q => (multiply_pauli_list (select G q), q))
            (index_subsets (length G))
        ++ [(repeat sI n, [])]).
Proof.
  intros HG. unfold G_closure. rewrite G_combs_select.
  rewrite (traverse_map_of _ _ (fun q => (multiply_pauli_list (select G q), q)));
    [reflexivity|].
  intros q Hq. apply index_subsets_spec in Hq as (_ & _ & Hb).
  unfold select at 1.
  rewrite (traverse_map_of _ _ (fun i => i)); [rewrite map_id; reflexivity|].
  rewrite Forall_forall in Hb. intros i Hi. apply index_nth; auto.
Qed.

Lemma is_nonzero_spec c :
  is_nonzero coeff czero coeff_eq_dec c = true <-> c <> czero.
Proof.
  unfold is_nonzero. destruct (coeff_eq_dec c czero); split; congruence.
Qed.

Lemma retained_spec h_G q_indices C_vec :
  retained coeff czero coeff_eq_dec (h_G, q_indices, C_vec) = true <->
  h_G <> czero \/ exists h, In h C_vec /\ h <> czero.
Proof.
  unfold retained. rewrite orb_true_iff, is_nonzero_spec.
  assert (H : negb (forallb (fun h => negb (is_nonzero coeff czero coeff_eq_dec h))
                      C_vec) = true
              <-> exists h, In h C_vec /\ h <> czero).
  { induction C_vec as [|h l IH]; simpl.
    - split; [discriminate|intros (h & [] & _)].
    - rewrite negb_andb, negb_involutive, orb_true_iff, IH, is_nonzero_spec.
      split.
      + intros [Hh|(h' & Hin & Hh')]; eauto.
      + intros (h' & [<-|Hin] & Hh'); eauto. }
  rewrite H. reflexivity.
Qed.

(** C4.  For distinct generators [G] of size [m], the closure built by
    [classical_obj_fnc_params] holds, for each of the [2^m - 1] non-empty
    strictly increasing index lists below [m], each exactly once, the product
    of the generators at those indices together with that index list; the
    all-identity label with the empty index list comes last.  The coefficient
    of a label is the one the Hamiltonian holds for it, and 0 for a label
    absent from the Hamiltonian.  Every closure element gets its own
    coefficient and, for each clique representative, the coefficient of its
    product with that representative; the stored terms are, in the order of
    the closure, exactly the elements whose own coefficient is non-zero or
    one of whose clique-product coefficients is non-zero. *)
Theorem classical_obj_fnc_params_closure n hamiltonian G C :
  NoDup G ->
  let m := length G in
  let closure :=
    map (fun q => (multiply_pauli_list (select G q), q)) (index_subsets m)
    ++ [(repeat sI n, [])] in
  let coefficient := fun op =>
    match lookup_term hamiltonian op with
    | Some h => h
    | None => czero
    end in
  let entries :=
    map (fun entry : PauliTerm * list nat =>
           (coefficient (fst entry), snd entry,
            map (fun C_op => coefficient (multiply_paulis (fst entry) C_op)) C))
        closure in
  (length (index_subsets m) = (2 ^ m - 1)%nat /\
   NoDup (index_subsets m) /\
   forall q, In q (index_subsets m) <->
             q <> [] /\ StronglySorted lt q /\ Forall (fun i => i < m)%nat q) /\
  G_closure multiply_pauli_list n G = Ok closure /\
  (forall op,
     (lookup_term hamiltonian op = None ->
      coeff_of coeff czero hamiltonian op = czero) /\
     (forall h, lookup_term hamiltonian op = Some h ->
                coeff_of coeff czero hamiltonian op = h)) /\
  (forall G_op q_indices,
     closure_entry coeff czero multiply_paulis hamiltonian C (G_op, q_indices)
     = (coefficient G_op, q_indices,
        map (fun C_op => coefficient (multiply_paulis G_op C_op)) C)) /\
  classical_obj_fnc_params coeff czero coeff_eq_dec multiply_pauli_list
    multiply_paulis n hamiltonian G C
  = Ok (filter (retained coeff czero coeff_eq_dec) entries) /\
  (forall h_G q_indices C_vec,
     retained coeff czero coeff_eq_dec (h_G, q_indices, C_vec) = true <->
     h_G <> czero \/ exists h, In h C_vec /\ h <> czero) /\
  (forall objfncprms,
     classical_obj_fnc_params coeff czero coeff_eq_dec multiply_pauli_list
       multiply_paulis n hamiltonian G C = Ok objfncprms ->
     forall h_G q_indices C_vec,
       In (h_G, q_indices, C_vec) objfncprms <->
       (exists G_op, In (G_op, q_indices) closure /\
          h_G = coefficient G_op /\
          C_vec = map (fun C_op => coefficient (multiply_paulis G_op C_op)) C) /\
       (h_G <> czero \/ exists h, In h C_vec /\ h <> czero)).
Proof.
  intros HG m closure coefficient entries.
  assert (Hrun : classical_obj_fnc_params coeff czero coeff_eq_dec
                   multiply_pauli_list multiply_paulis n hamiltonian G C
                 = Ok (filter (retained coeff czero coeff_eq_dec) entries)).
  { unfold classical_obj_fnc_params. rewrite G_closure_value by exact HG.
    cbn [bind]. rewrite fold_left_retained. cbn [app]. do 2 f_equal.
    apply map_ext. intros [G_op q_indices]. reflexivity. }
  split; [split; [apply length_index_subsets|split;
                  [apply NoDup_index_subsets|apply index_subsets_spec]]|].
  split; [apply G_closure_value, HG|].
  split; [intros op; unfold coeff_of; split;
          [intros ->; reflexivity|intros h ->; reflexivity]|].
  split; [reflexivity|].
  split; [exact Hrun|].
  split; [apply retained_spec|].
  intros objfncprms Hp h_G q_indices C_vec.
  rewrite Hrun in Hp. injection Hp as <-.
  rewrite filter_In, retained_spec. unfold entries. rewrite in_map_iff.
  split.
  - intros [([G_op q] & [= <- <- <-] & Hin) Hret]. split; [|exact Hret].
    exists G_op. auto.
  - intros [(G_op & Hin & -> & ->) Hret]. split; [|exact Hret].
    exists (G_op, q_indices). auto.
Qed.

End Closure.

Lemma classical_obj_fnc_params_closure_witness :
  let G := [[sX; sX]; [sZ; sI]; [sI; sZ]] in
  let hamiltonian := [([sZ; sZ], 1%Z); ([sY; sY], 2%Z)] in
  let C := [[sZ; sZ]] in
  let closure :=
    map (fun q => (multiply_pauli_list (select G q), q)) (index_subsets 3)
    ++ [(repeat sI 2, [])] in
  let coefficient := fun op =>
    match lookup_term hamiltonian op with
    | Some h => h
    | None => 0%Z
    end in
  let entries :=
    map (fun entry : PauliTerm * list nat =>
           (coefficient (fst entry), snd entry,
            map (fun C_op => coefficient (multiply_paulis (fst entry) C_op)) C))
        closure in
  (length (index_subsets 3) = (2 ^ 3 - 1)%nat /\
   NoDup (index_subsets 3) /\
   forall q, In q (index_subsets 3) <->
             q <> [] /\ StronglySorted lt q /\ Forall (fun i => i < 3)%nat q) /\
  G_closure multiply_pauli_list 2 G = Ok closure /\
  (forall op,
     (lookup_term hamiltonian op = None ->
      coeff_of Z 0%Z hamiltonian op = 0%Z) /\
     (forall h, lookup_term hamiltonian op = Some h ->
                coeff_of Z 0%Z hamiltonian op = h)) /\
  (forall G_op q_indices,
     closure_entry Z 0%Z multiply_paulis hamiltonian C (G_op, q_indices)
     = (coefficient G_op, q_indices,
        map (fun C_op => coefficient (multiply_paulis G_op C_op)) C)) /\
  classical_obj_fnc_params Z 0%Z Z.eq_dec multiply_pauli_list
    multiply_paulis 2 hamiltonian G C
  = Ok (filter (retained Z 0%Z Z.eq_dec) entries) /\
  (forall h_G q_indices C_vec,
     retained Z 0%Z Z.eq_dec (h_G, q_indices, C_vec) = true <->
     h_G <> 0%Z \/ exists h, In h C_vec /\ h <> 0%Z) /\
  (forall objfncprms,
     classical_obj_fnc_params Z 0%Z Z.eq_dec multiply_pauli_list
       multiply_paulis 2 hamiltonian G C = Ok objfncprms ->
     forall h_G q_indices C_vec,
       In (h_G, q_indices, C_vec) objfncprms <->
       (exists G_op, In (G_op, q_indices) closure /\
          h_G = coefficient G_op /\
          C_vec = map (fun C_op => coefficient (multiply_paulis G_op C_op)) C) /\
       (h_G <> 0%Z \/ exists h, In h C_vec /\ h <> 0%Z)).
Proof.
  apply (classical_obj_fnc_params_closure Z 0%Z Z.eq_dec multiply_pauli_list
           multiply_paulis 2 [([sZ; sZ], 1%Z); ([sY; sY], 2%Z)]
           [[sX; sX]; [sZ; sI]; [sI; sZ]] [[sZ; sZ]]).
  repeat constructor; simpl; intuition discriminate.
Defined.

(** The stored terms of the example, computed. *)
Example params_ZZ_integer :
  classical_obj_fnc_params Z 0%Z Z.eq_dec multiply_pauli_list multiply_paulis 2
    [([sZ; sZ], 1%Z)] [[sX; sX]; [sZ; sI]; [sI; sZ]] [[sZ; sZ]]
  = Ok [(1%Z, [1; 2]%nat, [0%Z]); (0%Z, [], [1%Z])].
Proof. vm_compute. reflexivity. Qed.

(** *** Two clique representatives *)

Section TwoCliques.

Variable multiply_pauli_list : list PauliTerm -> PauliTerm.
Variable multiply_paulis : PauliTerm -> PauliTerm -> PauliTerm.

(** With distinct generators and exactly two clique representatives, the
    terms stored by [classical_obj_fnc_params] can all be evaluated: on any
    input that holds [theta] and a value for each generator,
    [classical_obj_fnc] returns the energy. *)
Theorem two_clique_objective_total n hamiltonian G C objfncprms
    (input_params : gmap string R) theta :
  NoDup G -> length C = 2%nat ->
  classical_obj_fnc_params R 0 Req_dec_T multiply_pauli_list multiply_paulis
    n hamiltonian G C = Ok objfncprms ->
  input_params !! "theta" = Some theta ->
  (forall i, (i < length G)%nat -> is_Some (input_params !! q_key i)) ->
  classical_obj_fnc objfncprms input_params
  = Ok (energy objfncprms input_params theta).
Proof.
  intros HG HC Hp Ht Hq.
  unfold classical_obj_fnc, get_param. rewrite Ht. simpl.
  rewrite objfnc_loop_value; [f_equal; lra|].
  unfold classical_obj_fnc_params in Hp.
  rewrite G_closure_value in Hp by exact HG. simpl in Hp.
  rewrite fold_left_retained in Hp. injection Hp as <-. simpl.
  apply Forall_forall. intros t Hin. apply filter_In in Hin as [Hin _].
  apply in_map_iff in Hin as ([G_op q] & <- & Hin).
  unfold evaluable. simpl. rewrite length_map, HC. split; [lia|].
  apply in_app_or in Hin as [Hin|[[= _ <-]|[]]]; [|constructor].
  apply in_map_iff in Hin as (q' & [= _ ->] & Hq').
  apply index_subsets_spec in Hq' as (_ & _ & Hb).
  eapply Forall_impl; [|exact Hb]. intros i Hi. apply Hq, Hi.
Qed.

End TwoCliques.

(** The stored terms for the Hamiltonian XI + ZI + IZ, whose decomposition
    has the generator IZ and the clique representatives ZI and XI. *)
Lemma params_two_cliques :
  classical_obj_fnc_params R 0 Req_dec_T multiply_pauli_list multiply_paulis 2
    [([sX; sI], 1); ([sZ; sI], 1); ([sI; sZ], 1)] [[sI; sZ]]
    [[sZ; sI]; [sX; sI]]
  = Ok [(1, [0%nat], [0; 0]); (0, [], [1; 1])].
Proof.
  unfold classical_obj_fnc_params.
  replace (G_closure multiply_pauli_list 2 [[sI; sZ]])
    with (Ok [([sI; sZ], [0%nat]); ([sI; sI], [])])
    by (vm_compute; reflexivity).
  cbn -[is_nonzero].
  rewrite ?is_nonzero_0, ?is_nonzero_1. cbn -[is_nonzero].
  reflexivity.
Qed.

Lemma two_clique_objective_total_witness :
  let input_params : gmap string R :=
    <["q0" := -1]> (<["theta" := 0]> (∅ : gmap string R)) in
  classical_obj_fnc [(1, [0%nat], [0; 0]); (0, [], [1; 1])] input_params
  = Ok (energy [(1, [0%nat], [0; 0]); (0, [], [1; 1])] input_params 0).
Proof.
  apply (two_clique_objective_total multiply_pauli_list multiply_paulis 2
           [([sX; sI], 1); ([sZ; sI], 1); ([sI; sZ], 1)] [[sI; sZ]]
           [[sZ; sI]; [sX; sI]]).
  - repeat constructor. simpl. tauto.
  - reflexivity.
  - exact params_two_cliques.
  - reflexivity.
  - intros i Hi. simpl in Hi. assert (i = 0%nat) as -> by lia.
    vm_compute. eexists. reflexivity.
Defined.

End ObjectiveFacts.

(* ================================================================== *)
(** * Unitary partitioning *)
(* ================================================================== *)

Module RotationFacts.
Import GF2 Pauli Py CsVqe.
Local Open Scope R_scope.

Lemma is_zero_true a : is_zero a = true <-> a = 0.
Proof. unfold is_zero. destruct (Req_dec_T a 0); split; congruence. Qed.

Lemma is_zero_false a : is_zero a = false <-> a <> 0.
Proof. unfold is_zero. destruct (Req_dec_T a 0); split; congruence. Qed.

Lemma sorted_two {A} (key : A -> nat) x y :
  sorted_by_key key [x; y] = if (key x <=? key y)%nat then [x; y] else [y; x].
Proof. reflexivity. Qed.

Lemma order_terms_two x y :
  order_terms [x; y]
  = if (count_XY (fst x) <=? count_XY (fst y))%nat then [x; y] else [y; x].
Proof. apply (sorted_two (fun x : PauliTerm * R => count_XY (fst x))). Qed.

(** What the method does on an operator with two entries that the ordering
    leaves as [(A, a)], [(B, b)]. *)
Lemma rotation_ordered multiply op A a B b :
  order_terms op = [(A, a); (B, b)] ->
  unitary_partitioning_rotation_with multiply op
  = if is_zero a || is_zero b
    then Raise (ValueError "Clique operator already contains one term")
    else bind (multiply A B)
           (fun Qc => Ok (fst Qc, rotation_angle a b (rotation_sign (snd Qc)))).
Proof. intros H. unfold unitary_partitioning_rotation_with. rewrite H. reflexivity. Qed.

(** C7.  On an operator with two clique representatives, the method raises
    if and only if one of the two weights is zero; the error is raised before
    the Pauli product is computed (whatever that product would do); with both
    weights non-zero a pair [(Q, t)] is returned. *)
Theorem unitary_partitioning_rotation_error A a B b :
  (forall multiply, a = 0 \/ b = 0 ->
     unitary_partitioning_rotation_with multiply [(A, a); (B, b)]
     = Raise (ValueError "Clique operator already contains one term")) /\
  ((exists e, unitary_partitioning_rotation [(A, a); (B, b)] = Raise e)
   <-> a = 0 \/ b = 0) /\
  (a <> 0 /\ b <> 0 ->
   exists Q t, unitary_partitioning_rotation [(A, a); (B, b)] = Ok (Q, t)).
Proof.
  assert (Hz : forall multiply, a = 0 \/ b = 0 ->
     unitary_partitioning_rotation_with multiply [(A, a); (B, b)]
     = Raise (ValueError "Clique operator already contains one term")).
  { intros multiply H.
    assert (Hab : is_zero a || is_zero b = true /\ is_zero b || is_zero a = true).
    { destruct H as [H|H]; apply is_zero_true in H; rewrite H;
        split; auto using orb_true_r. }
    pose proof (order_terms_two (A, a) (B, b)) as Ho. simpl in Ho.
    destruct (count_XY A <=? count_XY B)%nat;
      rewrite (rotation_ordered _ _ _ _ _ _ Ho); destruct Hab as [H1 H2];
      rewrite ?H1, ?H2; reflexivity. }
  assert (Hnz : a <> 0 /\ b <> 0 ->
     exists Q t, unitary_partitioning_rotation [(A, a); (B, b)] = Ok (Q, t)).
  { intros [Ha Hb]. apply is_zero_false in Ha, Hb.
    pose proof (order_terms_two (A, a) (B, b)) as Ho. simpl in Ho.
    unfold unitary_partitioning_rotation.
    destruct (count_XY A <=? count_XY B)%nat;
      rewrite (rotation_ordered _ _ _ _ _ _ Ho), ?Ha, ?Hb; simpl; eauto. }
  split; [exact Hz|split; [split|exact Hnz]].
  - intros [e He].
    destruct (Req_dec_T a 0) as [Ha|Ha]; [auto|].
    destruct (Req_dec_T b 0) as [Hb|Hb]; [auto|].
    destruct (Hnz (conj Ha Hb)) as (Q & t & Hok). congruence.
  - intros H. eexists. apply Hz, H.
Qed.


(** The result on two representatives with non-zero weights: the first
    entry of the ordering by the number of X and Y factors gives [a]. *)
Lemma rotation_two A a B b :
  a <> 0 -> b <> 0 ->
  unitary_partitioning_rotation [(A, a); (B, b)]
  = if (count_XY A <=? count_XY B)%nat
    then Ok (fst (multiply_paulis_with_coeff A B),
             rotation_angle a b (rotation_sign (snd (multiply_paulis_with_coeff A B))))
    else Ok (fst (multiply_paulis_with_coeff B A),
             rotation_angle b a (rotation_sign (snd (multiply_paulis_with_coeff B A)))).
Proof.
  intros Ha Hb. apply is_zero_false in Ha, Hb.
  pose proof (order_terms_two (A, a) (B, b)) as Ho. simpl in Ho.
  unfold unitary_partitioning_rotation.
  destruct (count_XY A <=? count_XY B)%nat;
    rewrite (rotation_ordered _ _ _ _ _ _ Ho), ?Ha, ?Hb; reflexivity.
Qed.

Lemma rotation_specified_two A a B b :
  a <> 0 -> b <> 0 ->
  rotation_as_specified [(A, a); (B, b)]
  = if (weight A <=? weight B)%nat
    then Ok (fst (multiply_paulis_with_coeff A B),
             rotation_angle a b (rotation_sign (snd (multiply_paulis_with_coeff A B))))
    else Ok (fst (multiply_paulis_with_coeff B A),
             rotation_angle b a (rotation_sign (snd (multiply_paulis_with_coeff B A)))).
Proof.
  intros Ha Hb. apply is_zero_false in Ha, Hb.
  pose proof (sorted_two (fun x : PauliTerm * R => weight (fst x)) (A, a) (B, b)) as Ho.
  simpl in Ho. unfold rotation_as_specified.
  destruct (weight A <=? weight B)%nat; rewrite Ho, ?Ha, ?Hb; reflexivity.
Qed.

Lemma rotation_angle_cases a b s :
  rotation_angle a b s = atan (- b / a) * IZR s \/
  rotation_angle a b s = atan (- b / a) * IZR s + PI.
Proof.
  unfold rotation_angle.
  destruct (Rlt_dec (Rabs (a + cos (atan (- b / a) * IZR s))) 1e-15); auto.
Qed.

(** C8, as amended.  For two clique representatives with non-zero weights,
    the weight [a] of the angle [t = sign * arctan(-b/a)] (moved by [pi] at
    the degenerate point) is the coefficient of the representative with the
    fewer X and Y factors, the first of the two on a tie, and [b] is the
    coefficient of the other; Z factors are not counted. *)
Theorem rotation_weights_by_XY_count A a B b :
  a <> 0 -> b <> 0 ->
  unitary_partitioning_rotation [(A, a); (B, b)]
  = (if (count_XY A <=? count_XY B)%nat
     then Ok (fst (multiply_paulis_with_coeff A B),
              rotation_angle a b
                (rotation_sign (snd (multiply_paulis_with_coeff A B))))
     else Ok (fst (multiply_paulis_with_coeff B A),
              rotation_angle b a
                (rotation_sign (snd (multiply_paulis_with_coeff B A))))) /\
  (forall a' b' sign,
     rotation_angle a' b' sign = atan (- b' / a') * IZR sign \/
     rotation_angle a' b' sign = atan (- b' / a') * IZR sign + PI).
Proof.
  intros Ha Hb. split; [apply rotation_two; assumption|apply rotation_angle_cases].
Qed.

Lemma rotation_weights_by_XY_count_witness :
  unitary_partitioning_rotation [([sX; sI], 1); ([sZ; sZ], 2)]
  = (if (count_XY [sX; sI] <=? count_XY [sZ; sZ])%nat
     then Ok (fst (multiply_paulis_with_coeff [sX; sI] [sZ; sZ]),
              rotation_angle 1 2
                (rotation_sign (snd (multiply_paulis_with_coeff [sX; sI] [sZ; sZ]))))
     else Ok (fst (multiply_paulis_with_coeff [sZ; sZ] [sX; sI]),
              rotation_angle 2 1
                (rotation_sign (snd (multiply_paulis_with_coeff [sZ; sZ] [sX; sI]))))) /\
  (forall a' b' sign,
     rotation_angle a' b' sign = atan (- b' / a') * IZR sign \/
     rotation_angle a' b' sign = atan (- b' / a') * IZR sign + PI).
Proof.
  apply (rotation_weights_by_XY_count [sX; sI] 1 [sZ; sZ] 2); lra.
Defined.

Lemma atan_pos x : 0 < x -> 0 < atan x.
Proof. intros H. rewrite <- atan_0. apply atan_increasing, H. Qed.

Lemma atan_neg x : x < 0 -> atan x < 0.
Proof. intros H. rewrite <- atan_0. apply atan_increasing, H. Qed.

(** C8, as the spec words it, fails on the representatives XI (weight 1)
    and ZZ (weight 2): XI has the fewer non-identity factors, one against
    two, but ZZ has the fewer X and Y factors, none against one, so the
    method takes [a = 2] from ZZ and [b = 1] from XI, and its angle differs
    from the one the spec's assignment gives. *)
Lemma rotation_weights_counterexample :
  (weight [sX; sI] < weight [sZ; sZ])%nat /\
  order_terms [([sX; sI], 1); ([sZ; sZ], 2)] = [([sZ; sZ], 2); ([sX; sI], 1)] /\
  unitary_partitioning_rotation [([sX; sI], 1); ([sZ; sZ], 2)]
  = Ok ([sY; sZ], rotation_angle 2 1 (-1)) /\
  rotation_as_specified [([sX; sI], 1); ([sZ; sZ], 2)]
  = Ok ([sY; sZ], rotation_angle 1 2 1) /\
  rotation_angle 2 1 (-1) <> rotation_angle 1 2 1.
Proof.
  split; [vm_compute; lia|]. split; [reflexivity|].
  split; [exact (rotation_two [sX; sI] 1 [sZ; sZ] 2 ltac:(lra) ltac:(lra))|].
  split; [exact (rotation_specified_two [sX; sI] 1 [sZ; sZ] 2
                   ltac:(lra) ltac:(lra))|].
  pose proof (atan_bound (- (1) / 2)) as B1.
  pose proof (atan_bound (- (2) / 1)) as B2.
  pose proof (atan_neg (- (1) / 2) ltac:(lra)) as N1.
  pose proof (atan_neg (- (2) / 1) ltac:(lra)) as N2.
  pose proof PI_RGT_0 as Hpi.
  destruct (rotation_angle_cases 2 1 (-1)) as [-> | ->];
    destruct (rotation_angle_cases 1 2 1) as [-> | ->]; lra.
Qed.

Lemma length_order_terms op : length (order_terms op) = length op.
Proof.
  unfold order_terms, sorted_by_key.
  apply Permutation_length, DecompositionFacts.sort_by_perm.
Qed.

(** An [anti_clique_operator] that does not hold exactly two terms makes
    the method raise a [ValueError] at the unpacking of the ordered terms,
    whatever the weights. *)
Theorem rotation_needs_two_terms multiply op :
  length op <> 2%nat ->
  exists msg, unitary_partitioning_rotation_with multiply op
              = Raise (ValueError msg).
Proof.
  intros Hlen. rewrite <- length_order_terms in Hlen.
  unfold unitary_partitioning_rotation_with.
  destruct (order_terms op) as [|[A a] [|[B b] [|z l]]]; simpl in Hlen;
    try (eexists; reflexivity).
  congruence.
Qed.

Lemma rotation_needs_two_terms_witness :
  exists msg,
    unitary_partitioning_rotation_with
      (fun A B => Ok (multiply_paulis_with_coeff A B)) [([sZ; sZ], 1)]
    = Raise (ValueError msg).
Proof.
  apply (rotation_needs_two_terms
           (fun A B => Ok (multiply_paulis_with_coeff A B)) [([sZ; sZ], 1)]).
  simpl. lia.
Defined.

End RotationFacts.

(* ================================================================== *)
(** * The noncontextual ground state *)
(* ================================================================== *)

Module GroundStateFacts.
Import GF2 Pauli Py CsVqe.

(** C9.  Every call of [cs_vqe.noncontextual_ground_state] raises a
    [TypeError]: it passes the keyword [projection_qubits] to
    [contextual_subspace_hamiltonian], which has no such parameter, so the
    eigenstates are never computed, nothing is reported and nothing is
    returned. *)
Theorem noncontextual_ground_state_raises
    (projected : Type)
    (contextual_subspace_hamiltonian : list nat -> result projected)
    (simultaneous_eigenstates : projected -> list (list bool))
    (free_qubits : projected -> list nat)
    (stabilizer_indices : list nat) (projection_qubits : option (list nat)) :
  noncontextual_ground_state projected contextual_subspace_hamiltonian
    simultaneous_eigenstates free_qubits stabilizer_indices projection_qubits
  = Raise (TypeError "projection_qubits").
Proof. reflexivity. Qed.

(** Had the call been accepted, the method would report several compatible
    states and return the first one. *)
Lemma first_of_several_states (states : list (list bool)) s1 s2 rest :
  states = s1 :: s2 :: rest ->
  (let printed := if (1 <? length states)%nat then [states] else [] in
   bind (item states 0) (fun first => Ok (printed, first)))
  = Ok ([states], s1).
Proof. intros ->. reflexivity. Qed.

End GroundStateFacts.

(* ================================================================== *)
(** * Re-sectoring a tapering instance *)
(* ================================================================== *)

Module TaperingFacts.
Import GF2 Pauli Tapering.

(** Re-running the parent constructor writes three attributes only. *)
Lemma S3_projection_init_frame (self : gmap string value) stabilizers eigenvalues
    target_sqp name :
  name <> "stabilizers" -> name <> "eigenvalues" -> name <> "target_sqp" ->
  S3_projection_init self stabilizers eigenvalues target_sqp !! name = self !! name.
Proof.
  intros H1 H2 H3. unfold S3_projection_init.
  rewrite !lookup_insert_ne by congruence. reflexivity.
Qed.



Lemma init_fields measure_operator hamiltonian ref_state target_sqp :
  length ref_state = n_qubits hamiltonian ->
  exists self,
    init measure_operator hamiltonian ref_state target_sqp = Ok self /\
    fields_as_constructed measure_operator hamiltonian ref_state target_sqp self.
Proof.
  intros Hlen. unfold init. rewrite Hlen, Nat.eqb_refl. simpl negb. cbv iota.
  eexists. split; [reflexivity|]. repeat split; reflexivity.
Qed.




End TaperingFacts.

(* ================================================================== *)
(** * The tapered reference state and the search over sectors *)
(* ================================================================== *)

Module TaperRefStateFacts.
Import GF2 Pauli Py Tapering TaperingOps.

Lemma filter_enumerate_from (P : nat -> bool) (d : nat) (l : list nat) : forall a,
  map snd (filter (fun ib => P (fst ib)) (combine (seq a (length l)) l))
  = map (fun i => nth (i - a) l d) (filter P (seq a (length l))).
Proof.
  induction l as [|x l IH]; intros a; simpl; auto.
  assert (Htail : map (fun i => nth (i - S a) l d) (filter P (seq (S a) (length l)))
                  = map (fun i => nth (i - a) (x :: l) d)
                      (filter P (seq (S a) (length l)))).
  { apply map_ext_in. intros i Hi. apply filter_In in Hi as [Hi _].
    apply in_seq in Hi. replace (i - a) with (S (i - S a)) by lia. reflexivity. }
  destruct (P a); simpl; rewrite IH, Htail; [rewrite Nat.sub_diag|]; reflexivity.
Qed.

Lemma kept_positions_count (tq : list nat) n :
  NoDup tq -> Forall (fun i => i < n) tq ->
  length (filter (fun i => negb (existsb (Nat.eqb i) tq)) (seq 0 n))
  = n - length tq.
Proof.
  intros Hnd Hb.
  pose proof (filter_length (fun i => existsb (Nat.eqb i) tq) (seq 0 n)) as Hsum.
  rewrite length_seq in Hsum.
  assert (Hp : Permutation (filter (fun i => existsb (Nat.eqb i) tq) (seq 0 n)) tq).
  { apply NoDup_Permutation; [apply NoDup_filter, seq_NoDup|exact Hnd|].
    intros i. rewrite filter_In, in_seq, existsb_exists. split.
    - intros (_ & j & Hj & E). apply Nat.eqb_eq in E. subst. exact Hj.
    - intros Hi. rewrite Forall_forall in Hb. split; [specialize (Hb i Hi); lia|].
      exists i. split; [exact Hi|apply Nat.eqb_refl]. }
  apply Permutation_length in Hp. lia.
Qed.

(** For a dictionary [stab_index_eigval] whose keys are positions of the
    reference state (keys of a dictionary are distinct),
    [tapering.taper_ref_state] returns the bits at the other positions, in
    their order, so the tapered state is shorter by the number of keys; with
    no key the state is returned as it is. *)
Theorem taper_ref_state_positions (ref_state : list nat)
    (stab_index_eigval : list (nat * Z)) :
  NoDup (map fst stab_index_eigval) ->
  Forall (fun i => i < length ref_state) (map fst stab_index_eigval) ->
  taper_ref_state ref_state stab_index_eigval
  = map (fun i => nth i ref_state 0)
      (filter (fun i => negb (existsb (Nat.eqb i) (map fst stab_index_eigval)))
         (seq 0 (length ref_state))) /\
  length (taper_ref_state ref_state stab_index_eigval)
  = length ref_state - length stab_index_eigval /\
  taper_ref_state ref_state [] = ref_state.
Proof.
  intros Hnd Hb.
  assert (Heq : forall sie, taper_ref_state ref_state sie
          = map (fun i => nth i ref_state 0)
              (filter (fun i => negb (existsb (Nat.eqb i) (map fst sie)))
                 (seq 0 (length ref_state)))).
  { intros sie. unfold taper_ref_state, enumerate.
    rewrite (filter_enumerate_from
               (fun i => negb (existsb (Nat.eqb i) (map fst sie))) 0).
    apply map_ext. intros i. rewrite Nat.sub_0_r. reflexivity. }
  split; [apply Heq|split].
  - rewrite Heq, length_map, kept_positions_count by assumption.
    rewrite length_map. reflexivity.
  - rewrite Heq. simpl.
    assert (Hall : forall l : list nat, filter (fun _ => true) l = l).
    { induction l as [|x l IH]; simpl; [reflexivity|rewrite IH; reflexivity]. }
    rewrite Hall. apply ObjectiveFacts.map_nth_seq_id.
Qed.

Lemma taper_ref_state_positions_witness :
  taper_ref_state [1; 0; 1; 1] [(1, (-1)%Z); (3, 1%Z)]
  = map (fun i => nth i [1; 0; 1; 1] 0)
      (filter (fun i => negb (existsb (Nat.eqb i) [1; 3])) (seq 0 4)) /\
  length (taper_ref_state [1; 0; 1; 1] [(1, (-1)%Z); (3, 1%Z)]) = 4 - 2 /\
  taper_ref_state [1; 0; 1; 1] [] = [1; 0; 1; 1].
Proof.
  apply (taper_ref_state_positions [1; 0; 1; 1] [(1, (-1)%Z); (3, 1%Z)]).
  - simpl. repeat constructor; simpl; intuition discriminate.
  - simpl. repeat constructor; lia.
Defined.

End TaperRefStateFacts.

Module SectorSearchFacts.
Import GF2 Pauli Py Tapering TaperingOps.

(** *** All sectors *)

Lemma product_repeat_In {A} (values : list A) n : forall s,
  In s (product_repeat values n) <->
  length s = n /\ Forall (fun v => In v values) s.
Proof.
  induction n as [|n IH]; intros s; simpl.
  - split.
    + intros [<-|[]]. split; [reflexivity|constructor].
    + intros [H _]. destruct s; [auto|discriminate].
  - rewrite in_flat_map. split.
    + intros (v & Hv & Hs). apply in_map_iff in Hs as (s' & <- & Hs').
      apply IH in Hs' as [Hl Hf]. simpl. split; [lia|constructor; assumption].
    + intros [Hl Hf]. destruct s as [|v s']; [discriminate|].
      inversion Hf; subst. exists v. split; [assumption|].
      apply in_map, IH. split; [simpl in Hl; lia|assumption].
Qed.

Lemma NoDup_flat_map {A B} (f : A -> list B) l :
  NoDup l -> (forall a, NoDup (f a)) ->
  (forall a a' x, In x (f a) -> In x (f a') -> a = a') ->
  NoDup (flat_map f l).
Proof.
  intros Hl Hf Hsep. induction Hl as [|a l Ha Hl IH]; simpl; [constructor|].
  apply NoDup_app; [apply Hf|exact IH|].
  intros x Hx Hx'. apply in_flat_map in Hx' as (a' & Ha' & Hx').
  apply Ha. rewrite (Hsep a a' x Hx Hx'). exact Ha'.
Qed.

Lemma NoDup_product_repeat {A} (values : list A) n :
  NoDup values -> NoDup (product_repeat values n).
Proof.
  intros Hv. induction n as [|n IH]; simpl.
  - repeat constructor. intros [].
  - apply NoDup_flat_map; [exact Hv| |].
    + intros v. apply Finite.Injective_map_NoDup; [|exact IH].
      intros a b. congruence.
    + intros a a' x Hx Hx'.
      apply in_map_iff in Hx as (s & <- & _).
      apply in_map_iff in Hx' as (s' & E & _). congruence.
Qed.









(** *** The loop over the sectors *)

Lemma init_n_taper measure_operator hamiltonian ref_state target_sqp
    (self : gmap string value) :
  init measure_operator hamiltonian ref_state target_sqp = Ok self ->
  self !! "n_taper"
  = Some (VNat (length (identify_symmetry_generators (n_qubits hamiltonian)
                          (map fst hamiltonian)))).
Proof.
  unfold init. destruct (negb _); [discriminate|].
  intros E. injection E as <-.
  rewrite TaperingFacts.S3_projection_init_frame by discriminate.
  apply lookup_insert_eq.
Qed.


Section Loop.

Variable tapered : Type.
Variable taper_it_dict :
  gmap string value -> result (gmap string value * tapered).
Variable exact_gs_energy : tapered -> string -> result R.

Local Abbreviation sector_of :=
  (fun e : list Z * R * tapered => fst (fst e)).
Local Abbreviation loop := (sector_loop tapered taper_it_dict exact_gs_energy).




(** The loop follows the sectors gone through, and ends with the exception
    of the first step that raises. *)
Lemma sector_loop_raises matrix_type done : forall (self0 self1 : gmap string value)
    acc sector rest exc,
  sectors_done tapered taper_it_dict exact_gs_energy matrix_type self0 done self1 ->
  (update_S3_projection self1 sector = Raise exc \/
   exists inst, update_S3_projection self1 sector = Ok inst /\
     (taper_it_dict inst = Raise exc \/
      exists inst' t, taper_it_dict inst = Ok (inst', t) /\
                      exact_gs_energy t matrix_type = Raise exc)) ->
  loop matrix_type (self0, acc) (done ++ sector :: rest) = Raise exc.
Proof.
  induction done as [|d done IH]; intros self0 self1 acc sector rest exc Hd Hs.
  - inversion Hd; subst. cbn [app sector_loop]. unfold sector_step.
    destruct Hs as [Hu|(inst & Hu & [Et|(inst' & t & Et & Ee)])];
      rewrite Hu; cbn [bind]; [reflexivity| |]; rewrite Et; cbn [bind];
      [reflexivity|].
    rewrite Ee. reflexivity.
  - inversion Hd as [|? inst inst' ? ? ? t e Hu Et Ee Hd']; subst.
    cbn [app sector_loop]. unfold sector_step at 1.
    rewrite Hu. cbn [bind]. rewrite Et. cbn [bind]. rewrite Ee. cbn [bind].
    apply (IH _ self1). exact Hd'. exact Hs.
Qed.

End Loop.



(** [tapering.search_all_sectors] stops at the first sector, in the order of
    [product([+1, -1], repeat=k)], at which the re-projection, the projection
    or the diagonalisation raises: when the sectors before it were gone
    through, each on the instance its predecessor left, the exception is the
    result of the call, and no entry of the sectors before it is returned. *)
Theorem search_all_sectors_raises
    (tapered : Type)
    (taper_it_dict : gmap string value -> result (gmap string value * tapered))
    (exact_gs_energy : tapered -> string -> result R)
    (measure_operator : PauliTerm -> list nat -> Z)
    (hamiltonian : Operator R) (ref_state : list nat) (target_sqp : pauli)
    (self self1 : gmap string value)
    (done : list (list Z)) (sector : list Z) (rest : list (list Z)) (exc : exn) :
  init measure_operator hamiltonian ref_state target_sqp = Ok self ->
  product_repeat [1; -1]%Z
    (length (identify_symmetry_generators (n_qubits hamiltonian)
               (map fst hamiltonian)))
  = done ++ sector :: rest ->
  sectors_done tapered taper_it_dict exact_gs_energy
    (if n_qubits hamiltonian <? 5 then "dense" else "sparse") self done self1 ->
  (update_S3_projection self1 sector = Raise exc \/
   exists inst, update_S3_projection self1 sector = Ok inst /\
     (taper_it_dict inst = Raise exc \/
      exists inst' t, taper_it_dict inst = Ok (inst', t) /\
        exact_gs_energy t
          (if n_qubits hamiltonian <? 5 then "dense" else "sparse")
        = Raise exc)) ->
  search_all_sectors tapered taper_it_dict exact_gs_energy self = Raise exc.
Proof.
  intros Hinit Hprod Hdone Hs.
  assert (Hlen : length ref_state = n_qubits hamiltonian).
  { unfold init in Hinit.
    destruct (length ref_state =? n_qubits hamiltonian) eqn:E;
      [apply Nat.eqb_eq, E|discriminate]. }
  destruct (TaperingFacts.init_fields measure_operator hamiltonian ref_state
              target_sqp Hlen) as (self2 & Hinit2 & Hf).
  assert (self2 = self) as -> by congruence.
  pose proof (init_n_taper _ _ _ _ _ Hinit) as Hk.
  pose proof Hf as (_ & _ & Hn & _).
  unfold search_all_sectors, get_nat. rewrite Hn, Hk. cbn [bind].
  rewrite Hprod.
  rewrite (sector_loop_raises tapered taper_it_dict exact_gs_energy _ done
             self self1 [] sector rest exc Hdone Hs).
  reflexivity.
Qed.

Lemma search_all_sectors_raises_witness :
  let taper_it_dict := fun self : gmap string value =>
    match self !! "eigenvalues" with
    | Some (VSector [1; 1; -1]%Z) => Raise (ValueError "singular")
    | Some (VSector s) => Ok (<["stab_index_eigval" := VSector s]> self, s)
    | _ => Raise (AttributeError "eigenvalues")
    end in
  let exact_gs_energy := fun (t : list Z) (_ : string) =>
    Ok (IZR (fold_right Z.add 0%Z t)) in
  let measure_operator := fun (_ : PauliTerm) (_ : list nat) => 1%Z in
  let hamiltonian := [([sZ; sZ], 1%R)] in
  exists self,
    init measure_operator hamiltonian [0; 0] sX = Ok self /\
    search_all_sectors (list Z) taper_it_dict exact_gs_energy self
    = Raise (ValueError "singular").
Proof.
  intros taper_it_dict exact_gs_energy measure_operator hamiltonian.
  eexists. split; [reflexivity|].
  eapply (search_all_sectors_raises (list Z) taper_it_dict exact_gs_energy
            measure_operator hamiltonian [0; 0] sX _ _
            [[1; 1; 1]%Z] [1; 1; -1]%Z
            [[1; -1; 1]; [1; -1; -1]; [-1; 1; 1]; [-1; 1; -1]; [-1; -1; 1];
             [-1; -1; -1]]%Z
            (ValueError "singular")).
  - reflexivity.
  - vm_compute. reflexivity.
  - eapply done_cons; [reflexivity|reflexivity|reflexivity|apply done_nil].
  - right. eexists. split; [reflexivity|]. left. reflexivity.
Defined.

End SectorSearchFacts.

(* ================================================================== *)
(** * The noncontextual ground state read from the optimizer's table *)
(* ================================================================== *)

Module GroundStateSearchFacts.
Import GF2 Pauli Py CsVqe CsVqeOps.
Local Open Scope R_scope.

Lemma traverse_Forall2 {A B} (f : A -> result B) l : forall ys,
  traverse f l = Ok ys -> Forall2 (fun x y => f x = Ok y) l ys.
Proof.
  induction l as [|x l IH]; intros ys H; simpl in H.
  - injection H as <-. constructor.
  - destruct (f x) as [y|] eqn:Ey; simpl in H; [|discriminate].
    destruct (traverse f l) as [ys'|]; simpl in H; [|discriminate].
    injection H as <-. constructor; auto.
Qed.

Lemma Forall2_In_left {A B} (P : A -> B -> Prop) l ys : Forall2 P l ys ->
  forall x, In x l -> exists y, In y ys /\ P x y.
Proof.
  induction 1 as [|x0 y0 l ys Hxy HF IH]; intros x Hin; [contradiction|].
  destruct Hin as [<-|Hin].
  - exists y0. split; [left; reflexivity|exact Hxy].
  - destruct (IH x Hin) as (y & Hy & Hp). exists y. split; [right|]; assumption.
Qed.

Lemma Forall2_split_at {A B} (P : A -> B -> Prop) l ys : Forall2 P l ys ->
  forall ys1 y ys2, ys = ys1 ++ y :: ys2 ->
  exists l1 x l2, l = l1 ++ x :: l2 /\ Forall2 P l1 ys1 /\ P x y /\ Forall2 P l2 ys2.
Proof.
  induction 1 as [|x0 y0 l ys Hxy HF IH]; intros ys1 y ys2 E.
  - destruct ys1; discriminate.
  - destruct ys1 as [|y1 ys1]; simpl in E; injection E as -> ->.
    + exists [], x0, l. repeat split; auto.
    + destruct (IH ys1 y ys2 eq_refl) as (l1 & x & l2 & -> & H1 & Hx & H2).
      exists (x0 :: l1), x, l2. repeat split; auto.
Qed.

(** The head of a list sorted by a real key is its first entry of least
    key. *)
Lemma sort_by_head {A} (key : A -> R) l : forall h tl,
  sort_by (fun x y => TaperingOps.Rleb (key x) (key y)) l = h :: tl ->
  exists l1 l2, l = l1 ++ h :: l2 /\
    Forall (fun y => key h <= key y) l /\
    Forall (fun y => key h < key y) l1.
Proof.
  induction l as [|x l IH]; intros h tl H; simpl in H; [discriminate|].
  destruct (sort_by _ l) as [|h' tl'] eqn:Es.
  - assert (l = []) as ->.
    { pose proof (DecompositionFacts.sort_by_perm
                    (fun x y => TaperingOps.Rleb (key x) (key y)) l) as Hp.
      rewrite Es in Hp. apply Permutation_nil in Hp. exact Hp. }
    simpl in H. injection H as <- <-. exists [], []. repeat split.
    + constructor; [lra|constructor].
    + constructor.
  - destruct (IH h' tl' eq_refl) as (l1 & l2 & -> & Hall & Hbefore).
    simpl in H. unfold TaperingOps.Rleb in H at 1.
    destruct (Rle_dec (key x) (key h')) as [Hle|Hgt].
    + injection H as <- <-. exists [], (l1 ++ h' :: l2). repeat split.
      * constructor; [lra|]. eapply Forall_impl; [|exact Hall].
        simpl. intros y Hy. lra.
      * constructor.
    + injection H as <- <-. exists (x :: l1), l2. repeat split.
      * constructor; [lra|exact Hall].
      * constructor; [lra|exact Hbefore].
Qed.

Section Table.

Variable parse_float : string -> result R.
Variable parse_int : string -> result Z.

Lemma read_sample_shape n row e nu r :
  read_sample parse_float parse_int (q_vars n) row = Ok (e, nu, r) ->
  length nu = n /\ exists t, r = [sin t; cos t].
Proof.
  unfold read_sample.
  destruct (get_column row "theta") as [ts|]; simpl; [|discriminate].
  destruct (parse_float ts) as [t|]; simpl; [|discriminate].
  destruct (get_column row "objfnc_sum") as [es|]; simpl; [|discriminate].
  destruct (parse_float es) as [e'|]; simpl; [|discriminate].
  destruct (traverse _ (q_vars n)) as [nu'|] eqn:Enu; simpl; [|discriminate].
  intros [= <- <- <-]. split; [|eauto].
  apply traverse_Forall2, Forall2_length in Enu.
  unfold q_vars in Enu. rewrite length_map, length_seq in Enu. auto.
Qed.

(** [cs_vqe.find_noncontextual_ground_state], on the table the optimizer
    wrote.  When the method returns [(energy, nu, r)]: the table is not
    empty and every one of its rows was read; the result is the sample of
    the first row of least energy; [nu] holds one integer per generator; and
    [r] is [(sin t, cos t)] for an angle [t], a unit vector with two
    entries however many clique representatives there are. *)
Theorem find_noncontextual_ground_state_least (n_generators : nat)
    (rows : list (gmap string string)) (e : R) (nu : list Z) (r : list R) :
  find_noncontextual_ground_state parse_float parse_int n_generators rows
  = Ok (e, nu, r) ->
  rows <> [] /\
  exists before row after,
    rows = before ++ row :: after /\
    read_sample parse_float parse_int (q_vars n_generators) row = Ok (e, nu, r) /\
    length nu = n_generators /\
    (exists t, r = [sin t; cos t]) /\
    Forall (fun row' => exists s,
      read_sample parse_float parse_int (q_vars n_generators) row' = Ok s /\
      e <= fst (fst s)) rows /\
    Forall (fun row' => exists s,
      read_sample parse_float parse_int (q_vars n_generators) row' = Ok s /\
      e < fst (fst s)) before.
Proof.
  unfold find_noncontextual_ground_state. intros H.
  destruct (traverse _ rows) as [out|] eqn:Et; simpl in H; [|discriminate].
  apply traverse_Forall2 in Et.
  unfold item in H.
  destruct (sort_by _ out) as [|h tl] eqn:Es; simpl in H; [discriminate|].
  injection H as ->.
  apply (sort_by_head (fun x : R * list Z * list R => fst (fst x))) in Es
    as (out1 & out2 & -> & Hall & Hbefore).
  destruct (Forall2_split_at _ _ _ Et out1 (e, nu, r) out2 eq_refl)
    as (before & row & after & -> & H1 & Hrow & H2).
  split; [destruct before; discriminate|].
  exists before, row, after. split; [reflexivity|]. split; [exact Hrow|].
  destruct (read_sample_shape _ _ _ _ _ Hrow) as [Hlen Hr].
  split; [exact Hlen|]. split; [exact Hr|]. simpl in Hall. split.
  - apply Forall_forall. intros row' Hin.
    destruct (Forall2_In_left _ _ _ Et row' Hin) as (s & Hs & Hread).
    exists s. split; [exact Hread|].
    rewrite Forall_forall in Hall. apply Hall, Hs.
  - apply Forall_forall. intros row' Hin.
    destruct (Forall2_In_left _ _ _ H1 row' Hin) as (s & Hs & Hread).
    exists s. split; [exact Hread|].
    rewrite Forall_forall in Hbefore. apply Hbefore, Hs.
Qed.

End Table.

(** A table with two samples: the second has the lower energy. *)
Lemma two_sample_table :
  let parse_float := fun s : string =>
    if String.eqb s "0" then Ok 0 else
    if String.eqb s "1" then Ok 1 else
    if String.eqb s "-1" then Ok (-1) else Raise (ValueError s) in
  let parse_int := fun s : string =>
    if String.eqb s "1" then Ok 1%Z else
    if String.eqb s "-1" then Ok (-1)%Z else Raise (ValueError s) in
  let row1 : gmap string string :=
    <["q0" := "1"]> (<["objfnc_sum" := "1"]> (<["theta" := "0"]> ∅)) in
  let row2 : gmap string string :=
    <["q0" := "-1"]> (<["objfnc_sum" := "-1"]> (<["theta" := "1"]> ∅)) in
  find_noncontextual_ground_state parse_float parse_int 1 [row1; row2]
  = Ok (-1, [(-1)%Z], [sin 1; cos 1]).
Proof.
  intros parse_float parse_int row1 row2.
  unfold find_noncontextual_ground_state.
  replace (traverse (read_sample parse_float parse_int (q_vars 1)) [row1; row2])
    with (Ok [(1, [1%Z], [sin 0; cos 0]); (-1, [(-1)%Z], [sin 1; cos 1])])
    by (vm_compute; reflexivity).
  simpl. unfold TaperingOps.Rleb.
  destruct (Rle_dec 1 (-1)); [lra|reflexivity].
Qed.

Lemma find_noncontextual_ground_state_least_witness :
  let parse_float := fun s : string =>
    if String.eqb s "0" then Ok 0 else
    if String.eqb s "1" then Ok 1 else
    if String.eqb s "-1" then Ok (-1) else Raise (ValueError s) in
  let parse_int := fun s : string =>
    if String.eqb s "1" then Ok 1%Z else
    if String.eqb s "-1" then Ok (-1)%Z else Raise (ValueError s) in
  let row1 : gmap string string :=
    <["q0" := "1"]> (<["objfnc_sum" := "1"]> (<["theta" := "0"]> ∅)) in
  let row2 : gmap string string :=
    <["q0" := "-1"]> (<["objfnc_sum" := "-1"]> (<["theta" := "1"]> ∅)) in
  [row1; row2] <> [] /\
  exists before row after,
    [row1; row2] = before ++ row :: after /\
    read_sample parse_float parse_int (q_vars 1) row
    = Ok (-1, [(-1)%Z], [sin 1; cos 1]) /\
    length [(-1)%Z] = 1%nat /\
    (exists t, [sin 1; cos 1] = [sin t; cos t]) /\
    Forall (fun row' => exists s,
      read_sample parse_float parse_int (q_vars 1) row' = Ok s /\
      -1 <= fst (fst s)) [row1; row2] /\
    Forall (fun row' => exists s,
      read_sample parse_float parse_int (q_vars 1) row' = Ok s /\
      -1 < fst (fst s)) before.
Proof.
  intros parse_float parse_int row1 row2.
  apply (find_noncontextual_ground_state_least parse_float parse_int 1
           [row1; row2] (-1) [(-1)%Z] [sin 1; cos 1]).
  exact two_sample_table.
Defined.

End GroundStateSearchFacts.

(* ================================================================== *)
(** * The projection onto the contextual subspace *)
(* ================================================================== *)

Module ProjectionFacts.
Import GF2 Pauli Py CsVqe CsVqeOps.

(** The position a Python index stands for in a list of length [len]. *)
Local Abbreviation position len i :=
  (Z.to_nat (if (i <? 0)%Z then (Z.of_nat len + i)%Z else i)).

Local Abbreviation in_range len i :=
  ((- Z.of_nat len <=? i)%Z && (i <? Z.of_nat len)%Z).

Lemma item_nth_default {A} (d : A) l i : i < length l -> item l i = Ok (nth i l d).
Proof.
  intros Hi. unfold item. destruct (nth_error l i) eqn:E.
  - rewrite (nth_error_nth _ _ _ E). reflexivity.
  - apply nth_error_None in E. lia.
Qed.

Lemma py_item_value {A} (d : A) (l : list A) (i : Z) :
  py_item l i
  = if in_range (length l) i then Ok (nth (position (length l) i) l d)
    else Raise IndexError.
Proof.
  unfold py_item.
  destruct (Z.leb_spec 0 i), (Z.ltb_spec i (Z.of_nat (length l))),
    (Z.leb_spec (- Z.of_nat (length l)) i), (Z.ltb_spec i 0); simpl;
    try lia; try reflexivity; apply item_nth_default; lia.
Qed.

Lemma traverse_py_item {A} (d : A) (l : list A) (indices : list Z) :
  traverse (py_item l) indices
  = if forallb (fun i => in_range (length l) i) indices
    then Ok (map (fun i => nth (position (length l) i) l d) indices)
    else Raise IndexError.
Proof.
  induction indices as [|i indices IH]; [reflexivity|].
  cbn [traverse forallb map]. rewrite IH, (py_item_value d).
  destruct (in_range (length l) i); [|reflexivity].
  cbn [andb bind].
  destruct (forallb _ indices); reflexivity.
Qed.

(** [cs_vqe.contextual_subspace_hamiltonian], with as many eigenvalues as
    generators.  An index below [-len] or from [len] on raises [IndexError]
    before anything is projected.  Otherwise the Hamiltonian is projected
    with the generators and eigenvalues at the listed positions, a negative
    index counting from the end, and the result is cleaned up at threshold
    8.  The unitary partitioning rotation is inserted exactly when the
    literal index [0] is listed: the clique operator selected as [-len] is
    projected without it. *)
Theorem contextual_subspace_hamiltonian_selects
    (perform_projection :
       list PauliTerm -> list R -> pauli -> Operator R ->
       option (PauliTerm * R * bool) -> result (Operator R))
    (cleanup_operator : Operator R -> nat -> Operator R)
    (hamiltonian : Operator R) (generators : list PauliTerm) (nu : list R)
    (single_pauli : pauli) (unitary_partitioning : PauliTerm * R * bool)
    (stabilizer_indices : list Z) :
  length nu = length generators ->
  contextual_subspace_hamiltonian perform_projection cleanup_operator
    hamiltonian generators nu single_pauli unitary_partitioning
    stabilizer_indices
  = if forallb (fun i => in_range (length generators) i) stabilizer_indices
    then
      do ham_cs <-
        perform_projection
          (map (fun i => nth (position (length generators) i) generators [])
             stabilizer_indices)
          (map (fun i => nth (position (length generators) i) nu 0%R)
             stabilizer_indices)
          single_pauli hamiltonian
          (if existsb (Z.eqb 0) stabilizer_indices
           then Some unitary_partitioning else None);
      Ok (cleanup_operator ham_cs 8)
    else Raise IndexError.
Proof.
  intros Hlen.
  unfold contextual_subspace_hamiltonian, contextual_subspace_projection.
  rewrite (traverse_py_item [] generators), (traverse_py_item 0%R nu), Hlen.
  destruct (forallb _ stabilizer_indices); [|reflexivity].
  cbn [bind]. destruct (existsb _ stabilizer_indices); reflexivity.
Qed.

Lemma contextual_subspace_hamiltonian_selects_witness :
  let perform_projection :=
    fun (stabilizers : list PauliTerm) (eigenvalues : list R) (_ : pauli)
        (_ : Operator R) (rotation : option (PauliTerm * R * bool)) =>
      Ok (combine stabilizers eigenvalues
          ++ match rotation with Some (Q, t, _) => [(Q, t)] | None => [] end) in
  let cleanup_operator := fun (op : Operator R) (_ : nat) => op in
  let generators := [[sX; sX]; [sZ; sI]; [sI; sZ]] in
  let nu := [1; -1; 1]%R in
  contextual_subspace_hamiltonian perform_projection cleanup_operator
    [([sZ; sZ], 1%R)] generators nu sZ ([sY; sX], 0%R, false) [-3; 2]%Z
  = Ok [([sX; sX], 1%R); ([sI; sZ], 1%R)].
Proof.
  intros perform_projection cleanup_operator generators nu.
  rewrite (contextual_subspace_hamiltonian_selects perform_projection
             cleanup_operator [([sZ; sZ], 1%R)] generators nu sZ
             ([sY; sX], 0%R, false) [-3; 2]%Z); reflexivity.
Defined.

End ProjectionFacts.

(* ================================================================== *)
(** * The clique representatives cover the candidates *)
(* ================================================================== *)

Module RepresentativeFacts.
Import GF2 Pauli Py CsVqe GF2Facts PauliFacts DecompositionFacts.

(** Every index of [order] has the row of a kept index, unless the mask
    starts with [False] and the index has the row of the head. *)
Lemma kept_covers (row : nat -> vec) (m : nat) :
  (forall i, i < m -> length (row i) = m) ->
  forall order b0, Forall (fun i => i < m) order ->
  forall x, In x order ->
    (exists y, In y (kept row b0 order) /\ row y = row x) \/
    (b0 = false /\ row x = row (hd 0 order)).
Proof.
  intros row_length. induction order as [|i rest IH]; intros b0 Hm x Hx;
    [contradiction|].
  inversion Hm as [|? ? Him Hm']; subst.
  assert (Hhead : (exists y, In y (kept row b0 (i :: rest)) /\ row y = row i) \/
                  (b0 = false /\ row i = row i)).
  { destruct b0; [left|right; split; reflexivity].
    exists i. split; [|reflexivity].
    destruct rest; [unfold kept; simpl; auto|].
    rewrite kept_cons2. simpl. auto. }
  destruct Hx as [<-|Hx]; [exact Hhead|].
  destruct rest as [|j rest']; [contradiction|].
  rewrite kept_cons2.
  destruct (IH (any (vxor (row j) (row i))) Hm' x Hx) as [(y & Hy & E)|[Hb E]].
  - left. exists y. split; [apply in_or_app; right; exact Hy|exact E].
  - simpl in E. inversion Hm' as [|? ? Hjm _]; subst.
    apply any_vxor_false in Hb; [|rewrite !row_length by assumption; reflexivity].
    rewrite kept_cons2 in Hhead.
    destruct Hhead as [(y & Hy & Ey)|[Hb0 _]].
    + left. exists y. split; [exact Hy|congruence].
    + right. split; [exact Hb0|simpl; congruence].
Qed.

Lemma pick_cliquereps_covers candidates c0 :
  In c0 candidates ->
  exists c, In c (pick_cliquereps candidates) /\
            map (commutes c) candidates = map (commutes c0) candidates.
Proof.
  intros Hc0. apply (In_nth _ _ []) in Hc0 as (i0 & Hi0 & <-).
  set (A := adjacency_matrix candidates).
  pose proof (lexsort_rows_bound A) as Hb.
  unfold A in Hb at 1. rewrite length_adjacency_matrix in Hb.
  assert (Hin : In i0 (lexsort_rows A)).
  { unfold lexsort_rows. apply (Permutation_in _ (Permutation_sym (sort_by_perm _ _))).
    apply in_seq. unfold A. rewrite length_adjacency_matrix.
    split; [apply Nat.le_0_l|exact Hi0]. }
  destruct (kept_covers (nth_row A) (length candidates))
    with (order := lexsort_rows A) (b0 := true) (x := i0)
    as [(y & Hy & E)|[Hb0 _]]; try assumption; [| |discriminate].
  - intros i Hi. unfold A. rewrite nth_row_adjacency, length_map by exact Hi.
    reflexivity.
  - assert (Hylt : y < length candidates).
    { apply kept_subset in Hy. rewrite Forall_forall in Hb. auto. }
    exists (nth y candidates []). split.
    + rewrite pick_cliquereps_kept. apply in_map_iff. exists y. auto.
    + unfold A in E. rewrite !nth_row_adjacency in E by assumption. exact E.
Qed.

Lemma unique_rows_not_kernel w kernel XZ_reduced row :
  width_ok w kernel -> width_ok w XZ_reduced ->
  In row (unique_rows kernel XZ_reduced) -> ~ In row kernel.
Proof.
  intros Hk HM Hin. unfold unique_rows in Hin. rewrite unique_rows_acc in Hin.
  simpl in Hin. apply filter_In in Hin as [Hrow Hnil].
  unfold width_ok in HM. rewrite Forall_forall in HM.
  apply (matching_kernel_rows_nil w kernel row Hk (HM row Hrow)).
  destruct (matching_kernel_rows kernel row); [reflexivity|discriminate].
Qed.

(** [cs_vqe.independent_generators] on terms of [n] qubits each.  When it
    returns, the generators and the clique representatives are labels of [n]
    qubits; at least one representative is returned; no representative is
    one of the generators; and every candidate has the commutation pattern
    of one of the representatives, so no class of candidates is left
    without a representative. *)
Theorem independent_generators_representatives n terms generators cliquereps :
  Forall (fun t => length t = n) terms ->
  independent_generators n terms = Ok (generators, cliquereps) ->
  let '(XZ_reduced, kernel) := reduced_and_kernel n terms in
  let candidates := map pauli_from_symplectic (unique_rows kernel XZ_reduced) in
  Forall (fun t => length t = n) generators /\
  Forall (fun t => length t = n) cliquereps /\
  cliquereps <> [] /\
  (forall c, In c cliquereps -> ~ In c generators) /\
  (forall c0, In c0 candidates ->
     exists c, In c cliquereps /\
               map (commutes c) candidates = map (commutes c0) candidates).
Proof.
  intros Hterms Hrun.
  destruct (reduced_and_kernel_widths n terms Hterms) as [HwM Hwk].
  unfold independent_generators in Hrun.
  destruct (reduced_and_kernel n terms) as [XZ_reduced kernel].
  cbn [fst snd] in HwM, Hwk.
  destruct (np_stack (unique_rows kernel XZ_reduced)) as [anti_kernel|e] eqn:Hst;
    simpl in Hrun; [|discriminate].
  assert (anti_kernel = unique_rows kernel XZ_reduced /\ anti_kernel <> [])
    as [-> Hne].
  { unfold np_stack in Hst. destruct (unique_rows kernel XZ_reduced);
      [discriminate|]. injection Hst as <-. split; [reflexivity|discriminate]. }
  injection Hrun as <- <-.
  set (candidates := map pauli_from_symplectic (unique_rows kernel XZ_reduced)).
  assert (Hwu : Forall (fun r : vec => length r = 2 * n)
                  (unique_rows kernel XZ_reduced)).
  { apply Forall_forall. intros r Hr. apply unique_rows_subset in Hr.
    unfold width_ok in HwM. rewrite Forall_forall in HwM. auto. }
  assert (Hlc : Forall (fun t => length t = n) candidates).
  { unfold candidates. apply Forall_forall. intros t Ht.
    apply in_map_iff in Ht as (r & <- & Hr).
    apply length_pauli_from_symplectic. rewrite Forall_forall in Hwu. auto. }
  split; [|split; [|split; [|split]]].
  - apply Forall_forall. intros t Ht. apply in_map_iff in Ht as (r & <- & Hr).
    apply length_pauli_from_symplectic.
    unfold width_ok in Hwk. rewrite Forall_forall in Hwk. auto.
  - apply Forall_forall. intros t Ht. apply pick_cliquereps_subset in Ht.
    rewrite Forall_forall in Hlc. auto.
  - destruct (unique_rows kernel XZ_reduced) as [|r0 rs] eqn:Eu;
      [contradiction|].
    destruct (pick_cliquereps_covers candidates (pauli_from_symplectic r0))
      as (c & Hc & _); [unfold candidates; left; reflexivity|].
    intros E. fold candidates in E. rewrite E in Hc. contradiction.
  - intros c Hc Hg. apply pick_cliquereps_subset in Hc.
    apply in_map_iff in Hc as (r & Hrc & Hr).
    apply in_map_iff in Hg as (k & Hkc & Hk).
    assert (r = k) as ->.
    { rewrite <- (symplectic_roundtrip n r), <- (symplectic_roundtrip n k).
      - congruence.
      - unfold width_ok in Hwk. rewrite Forall_forall in Hwk. auto.
      - rewrite Forall_forall in Hwu. auto. }
    exact (unique_rows_not_kernel (2 * n) kernel XZ_reduced k Hwk HwM Hr Hk).
  - intros c0 Hc0. apply pick_cliquereps_covers, Hc0.
Qed.

Lemma independent_generators_representatives_witness :
  let terms := [[sX; sI; sI]; [sZ; sI; sI]; [sI; sZ; sZ]] in
  let generators := [[sI; sX; sX]; [sI; sZ; sI]; [sI; sI; sZ]] in
  let cliquereps := [[sZ; sI; sI]; [sX; sI; sI]; [sI; sZ; sZ]] in
  let '(XZ_reduced, kernel) := reduced_and_kernel 3 terms in
  let candidates := map pauli_from_symplectic (unique_rows kernel XZ_reduced) in
  Forall (fun t => length t = 3) generators /\
  Forall (fun t => length t = 3) cliquereps /\
  cliquereps <> [] /\
  (forall c, In c cliquereps -> ~ In c generators) /\
  (forall c0, In c0 candidates ->
     exists c, In c cliquereps /\
               map (commutes c) candidates = map (commutes c0) candidates).
Proof.
  apply (independent_generators_representatives 3
           [[sX; sI; sI]; [sZ; sI; sI]; [sI; sZ; sZ]]).
  - repeat constructor.
  - vm_compute. reflexivity.
Defined.

End RepresentativeFacts.

(* ================================================================== *)
(** * The objective and the clique representatives beyond the second *)
(* ================================================================== *)

Module ObjectiveCliqueFacts.
Import GF2 Pauli Py CsVqe ObjectiveFacts.
Local Open Scope R_scope.

Lemma nth_firstn_lt {A} (d : A) k : forall i l,
  (i < k)%nat -> nth i (firstn k l) d = nth i l d.
Proof.
  induction k as [|k IH]; intros i l Hi; [lia|].
  destruct l as [|x l]; [reflexivity|].
  destruct i as [|i]; [reflexivity|]. simpl. apply IH. lia.
Qed.

Lemma all_zero_nth (C_vec : list R) i :
  forallb (fun h => negb (is_nonzero R 0 Req_dec_T h)) C_vec = true ->
  nth i C_vec 0 = 0.
Proof.
  revert i. induction C_vec as [|h l IH]; intros i H; [destruct i; reflexivity|].
  simpl in H. apply andb_prop in H as [Hh Hl].
  destruct i as [|i]; [|apply IH, Hl]. simpl.
  unfold is_nonzero in Hh. destruct (Req_dec_T h 0); [assumption|discriminate].
Qed.

(** A closure entry that is not stored would have contributed nothing. *)
Lemma summand_not_retained input_params theta t :
  retained R 0 Req_dec_T t = false -> energy_summand input_params theta t = 0.
Proof.
  destruct t as [[h_G q_indices] C_vec]. unfold retained, energy_summand.
  intros H. apply orb_false_elim in H as [Hh Hc].
  apply negb_false_iff in Hc.
  rewrite !(all_zero_nth _ _ Hc).
  unfold is_nonzero in Hh. destruct (Req_dec_T h_G 0) as [->|]; [|discriminate].
  lra.
Qed.

Lemma energy_filter_retained input_params theta l :
  energy (filter (retained R 0 Req_dec_T) l) input_params theta
  = energy l input_params theta.
Proof.
  unfold energy. induction l as [|t l IH]; [reflexivity|]. simpl.
  destruct (retained R 0 Req_dec_T t) eqn:E; simpl; rewrite IH; [reflexivity|].
  rewrite (summand_not_retained _ _ _ E). lra.
Qed.

Section Products.

Variable multiply_pauli_list : list PauliTerm -> PauliTerm.
Variable multiply_paulis : PauliTerm -> PauliTerm -> PauliTerm.

Local Abbreviation params :=
  (classical_obj_fnc_params R 0 Req_dec_T multiply_pauli_list multiply_paulis).
Local Abbreviation entry :=
  (closure_entry R 0 multiply_paulis).

Lemma summand_two_cliques input_params theta hamiltonian C e :
  energy_summand input_params theta (entry hamiltonian (firstn 2 C) e)
  = energy_summand input_params theta (entry hamiltonian C e).
Proof.
  destruct e as [G_op q_indices]. unfold closure_entry, energy_summand.
  rewrite <- !firstn_map. rewrite !(nth_firstn_lt 0%R 2) by lia. reflexivity.
Qed.

(** With at least two representatives every stored term can be evaluated on
    an input that assigns every generator. *)
Lemma params_evaluable n hamiltonian G C objfncprms (input_params : gmap string R) :
  NoDup G -> (2 <= length C)%nat ->
  params n hamiltonian G C = Ok objfncprms ->
  (forall i, (i < length G)%nat -> is_Some (input_params !! q_key i)) ->
  Forall (evaluable input_params) objfncprms.
Proof.
  intros HG HC Hp Hq.
  unfold classical_obj_fnc_params in Hp.
  rewrite G_closure_value in Hp by exact HG. simpl in Hp.
  rewrite fold_left_retained in Hp. injection Hp as <-.
  apply Forall_forall. intros t Hin. apply filter_In in Hin as [Hin _].
  apply in_map_iff in Hin as ([G_op q] & <- & Hin).
  unfold evaluable. simpl. rewrite length_map. split; [exact HC|].
  apply in_app_or in Hin as [Hin|[[= _ <-]|[]]]; [|constructor].
  apply in_map_iff in Hin as (q' & [= _ ->] & Hq').
  apply index_subsets_spec in Hq' as (_ & _ & Hb).
  eapply Forall_impl; [|exact Hb]. intros i Hi. apply Hq, Hi.
Qed.

(** [cs_vqe.classical_obj_fnc] on the terms that
    [cs_vqe.classical_obj_fnc_params] stores, for distinct generators and
    two or more clique representatives: the value is the one obtained from
    the first two representatives alone.  A representative beyond the second
    adds coefficients to the stored terms, and may add stored terms, but no
    input makes any of them count. *)
Theorem objective_reads_two_cliques n hamiltonian G C
    (input_params : gmap string R) theta :
  NoDup G -> (2 <= length C)%nat ->
  input_params !! "theta" = Some theta ->
  (forall i, (i < length G)%nat -> is_Some (input_params !! q_key i)) ->
  exists objfncprms objfncprms2,
    params n hamiltonian G C = Ok objfncprms /\
    params n hamiltonian G (firstn 2 C) = Ok objfncprms2 /\
    classical_obj_fnc objfncprms input_params
    = Ok (energy objfncprms2 input_params theta) /\
    classical_obj_fnc objfncprms2 input_params
    = Ok (energy objfncprms2 input_params theta).
Proof.
  intros HG HC Ht Hq.
  assert (Hp : forall C', params n hamiltonian G C'
    = Ok (filter (retained R 0 Req_dec_T)
            (map (entry hamiltonian C')
               (map (fun q => (multiply_pauli_list (select G q), q))
                  (index_subsets (length G)) ++ [(repeat sI n, [])])))).
  { intros C'. unfold classical_obj_fnc_params.
    rewrite G_closure_value by exact HG. simpl.
    rewrite fold_left_retained. reflexivity. }
  assert (HC2 : (2 <= length (firstn 2 C))%nat) by (rewrite length_firstn; lia).
  eexists. eexists. split; [apply Hp|]. split; [apply Hp|].
  pose proof (params_evaluable n hamiltonian G C _ input_params HG HC (Hp C) Hq)
    as Hev.
  pose proof (params_evaluable n hamiltonian G (firstn 2 C) _ input_params HG HC2
                (Hp (firstn 2 C)) Hq) as Hev2.
  unfold classical_obj_fnc, get_param. rewrite Ht. cbn [bind].
  rewrite !objfnc_loop_value by assumption.
  rewrite !Rplus_0_l. split; [|reflexivity]. f_equal.
  rewrite !energy_filter_retained. unfold energy. f_equal.
  rewrite !map_map. apply map_ext. intros e. symmetry.
  apply summand_two_cliques.
Qed.

End Products.

Lemma objective_reads_two_cliques_witness :
  let hamiltonian :=
    [([sX; sI], 1); ([sZ; sI], 1); ([sY; sZ], 1); ([sI; sZ], 1)] in
  let G := [[sI; sZ]] in
  let C := [[sZ; sI]; [sX; sI]; [sY; sI]] in
  let input_params : gmap string R :=
    <["q0" := -1]> (<["theta" := 0]> (∅ : gmap string R)) in
  exists objfncprms objfncprms2,
    classical_obj_fnc_params R 0 Req_dec_T multiply_pauli_list multiply_paulis
      2 hamiltonian G C = Ok objfncprms /\
    classical_obj_fnc_params R 0 Req_dec_T multiply_pauli_list multiply_paulis
      2 hamiltonian G (firstn 2 C) = Ok objfncprms2 /\
    classical_obj_fnc objfncprms input_params
    = Ok (energy objfncprms2 input_params 0) /\
    classical_obj_fnc objfncprms2 input_params
    = Ok (energy objfncprms2 input_params 0).
Proof.
  intros hamiltonian G C input_params.
  apply (objective_reads_two_cliques multiply_pauli_list multiply_paulis 2
           hamiltonian G C input_params 0).
  - repeat constructor. simpl. tauto.
  - simpl. lia.
  - reflexivity.
  - intros i Hi. simpl in Hi. assert (i = 0%nat) as -> by lia.
    vm_compute. eexists. reflexivity.
Defined.

End ObjectiveCliqueFacts.

(* ================================================================== *)
(** * The rotation of two commuting terms *)
(* ================================================================== *)

Module RotationPhaseFacts.
Import GF2 Pauli Py CsVqe RotationFacts.
Local Open Scope R_scope.

Lemma odd_mod_4 k : Nat.odd (k mod 4) = Nat.odd k.
Proof.
  rewrite (Nat.div_mod k 4) at 2 by discriminate.
  rewrite Nat.odd_add, Nat.odd_mul. reflexivity.
Qed.

Lemma mul1_parity a b : Nat.odd (fst (mul1 a b)) = anticommute1 a b.
Proof. destruct a, b; reflexivity. Qed.

(** The power of the imaginary unit in a product is odd exactly when the two
    terms anticommute. *)
Lemma mul_sites_parity s : forall t,
  Nat.odd (fst (mul_sites s t)) = anticommuting_sites s t.
Proof.
  induction s as [|a s IH]; intros [|b t]; try reflexivity.
  cbn [mul_sites anticommuting_sites]. rewrite <- IH, <- mul1_parity.
  destruct (mul1 a b) as [k c], (mul_sites s t) as [k' r]. cbn [fst].
  rewrite odd_mod_4. apply Nat.odd_add.
Qed.

Lemma i_pow_even k : Nat.odd k = false -> snd (i_pow k) = 0%Z.
Proof.
  intros H. rewrite <- odd_mod_4 in H. unfold i_pow.
  pose proof (Nat.mod_upper_bound k 4 ltac:(discriminate)) as Hlt.
  destruct (k mod 4)%nat as [|[|[|[|j]]]]; try reflexivity; try discriminate.
  lia.
Qed.

Lemma commuting_phase_real A B :
  commutes A B = true -> snd (snd (multiply_paulis_with_coeff A B)) = 0%Z.
Proof.
  unfold commutes, multiply_paulis_with_coeff. intros H.
  apply negb_true_iff in H. rewrite <- mul_sites_parity in H.
  destruct (mul_sites A B) as [k r]. simpl in *. apply i_pow_even, H.
Qed.

Lemma rotation_angle_0 a b :
  rotation_angle a b 0 = if Rlt_dec (Rabs (a + 1)) 1e-15 then PI else 0.
Proof.
  unfold rotation_angle. rewrite Rmult_0_r, cos_0.
  destruct (Rlt_dec (Rabs (a + 1)) 1e-15); [apply Rplus_0_l|reflexivity].
Qed.

(** [cs_vqe.unitary_partitioning_rotation] on two terms that commute, with
    non-zero weights: nothing is raised.  The phase of the product is real,
    so [sign] is 0 and the angle is 0 whatever the weight [b] is (it is [pi]
    where [a + 1] vanishes to within [1e-15]), [a] being the weight of the
    term with the fewer X and Y factors. *)
Theorem rotation_of_commuting_terms A a B b :
  a <> 0 -> b <> 0 -> commutes A B = true ->
  unitary_partitioning_rotation [(A, a); (B, b)]
  = if (count_XY A <=? count_XY B)%nat
    then Ok (multiply_paulis A B,
             if Rlt_dec (Rabs (a + 1)) 1e-15 then PI else 0)
    else Ok (multiply_paulis B A,
             if Rlt_dec (Rabs (b + 1)) 1e-15 then PI else 0).
Proof.
  intros Ha Hb Hc.
  pose proof (rotation_two A a B b Ha Hb) as Hr.
  etransitivity; [exact Hr|].
  assert (Hc' : commutes B A = true) by (rewrite DecompositionFacts.commutes_sym; exact Hc).
  unfold rotation_sign.
  rewrite (commuting_phase_real A B Hc), (commuting_phase_real B A Hc').
  simpl Z.opp. rewrite !rotation_angle_0. reflexivity.
Qed.

Lemma rotation_of_commuting_terms_witness :
  unitary_partitioning_rotation [([sZ; sI; sI], 1); ([sI; sZ; sZ], 2)]
  = if (count_XY [sZ; sI; sI] <=? count_XY [sI; sZ; sZ])%nat
    then Ok (multiply_paulis [sZ; sI; sI] [sI; sZ; sZ],
             if Rlt_dec (Rabs (1 + 1)) 1e-15 then PI else 0)
    else Ok (multiply_paulis [sI; sZ; sZ] [sZ; sI; sI],
             if Rlt_dec (Rabs (2 + 1)) 1e-15 then PI else 0).
Proof.
  apply (rotation_of_commuting_terms [sZ; sI; sI] 1 [sI; sZ; sZ] 2).
  - lra.
  - lra.
  - reflexivity.
Defined.

End RotationPhaseFacts.

(* ================================================================== *)
(** * The noncontextual part of the Hamiltonian *)
(* ================================================================== *)

Module ConstructorFacts.
Import GF2 Pauli Py CsVqe CsVqeOps GF2Facts PauliFacts DecompositionFacts.

Lemma in_set_In noncontextual_set op :
  in_set noncontextual_set op = true <-> In op noncontextual_set.
Proof.
  unfold in_set. rewrite existsb_exists. split.
  - intros (s & Hs & E). destruct (term_eq_dec s op); [subst; exact Hs|discriminate].
  - intros H. exists op. split; [exact H|].
    destruct (term_eq_dec op op); [reflexivity|contradiction].
Qed.

Lemma lookup_ham_noncontextual {C} (hamiltonian : Operator C) noncontextual_set t :
  lookup_term (ham_noncontextual hamiltonian noncontextual_set) t
  = if in_set noncontextual_set t then lookup_term hamiltonian t else None.
Proof.
  unfold ham_noncontextual.
  induction hamiltonian as [|[s c] H IH]; simpl.
  - destruct (in_set noncontextual_set t); reflexivity.
  - destruct (in_set noncontextual_set s) eqn:Es; simpl.
    + destruct (term_eq_dec s t) as [<-|Hne]; [rewrite Es; reflexivity|exact IH].
    + rewrite IH. destruct (term_eq_dec s t) as [<-|Hne]; [|reflexivity].
      rewrite Es. reflexivity.
Qed.

Lemma terms_ham_noncontextual {C} (hamiltonian : Operator C) noncontextual_set :
  map fst (ham_noncontextual hamiltonian noncontextual_set)
  = filter (in_set noncontextual_set) (map fst hamiltonian).
Proof.
  unfold ham_noncontextual.
  induction hamiltonian as [|[s c] H IH]; simpl; [reflexivity|].
  destruct (in_set noncontextual_set s); simpl; rewrite IH; reflexivity.
Qed.

(** [cs_vqe.__init__] up to the decomposition, on a Hamiltonian whose labels
    all have its number of qubits.  [ham_noncontextual] holds the terms of
    the Hamiltonian that are listed in [noncontextual_set], in the order and
    with the coefficients of the Hamiltonian; a listed label that is not a
    term of the Hamiltonian adds nothing.  When the decomposition returns,
    its generators are independent, none is the identity, and each commutes
    with every term of [ham_noncontextual]. *)
Theorem noncontextual_restriction {C : Type} (hamiltonian : Operator C)
    (noncontextual_set generators cliquereps : list PauliTerm) :
  Forall (fun oc => length (fst oc) = n_qubits hamiltonian) hamiltonian ->
  decompose hamiltonian noncontextual_set = Ok (generators, cliquereps) ->
  (forall t, lookup_term (ham_noncontextual hamiltonian noncontextual_set) t
             = if in_set noncontextual_set t then lookup_term hamiltonian t
               else None) /\
  map fst (ham_noncontextual hamiltonian noncontextual_set)
  = filter (fun t => in_set noncontextual_set t) (map fst hamiltonian) /\
  (forall t, In t (map fst (ham_noncontextual hamiltonian noncontextual_set))
             <-> In t (map fst hamiltonian) /\ In t noncontextual_set) /\
  generator_set_ok (n_qubits hamiltonian)
    (map fst (ham_noncontextual hamiltonian noncontextual_set)) generators.
Proof.
  intros Hlen Hrun.
  split; [intros t; apply lookup_ham_noncontextual|].
  split; [apply terms_ham_noncontextual|].
  split.
  - intros t. rewrite terms_ham_noncontextual, filter_In, in_set_In. reflexivity.
  - set (n := n_qubits hamiltonian) in *.
    set (terms := map fst (ham_noncontextual hamiltonian noncontextual_set)) in *.
    assert (Hterms : Forall (fun t => length t = n) terms).
    { unfold terms. rewrite terms_ham_noncontextual.
      apply Forall_forall. intros t Ht. apply filter_In in Ht as [Ht _].
      apply in_map_iff in Ht as (oc & <- & Hoc).
      rewrite Forall_forall in Hlen. apply Hlen, Hoc. }
    unfold decompose in Hrun. fold n terms in Hrun.
    rewrite (independent_generators_kernel _ _ _ _ Hrun).
    unfold reduced_and_kernel. simpl.
    apply kernel_generators_ok; [exact Hterms|].
    intros v. apply reduced_orthogonal, Hterms.
Qed.

Lemma noncontextual_restriction_witness :
  let hamiltonian :=
    [([sX; sI; sI], 1%R); ([sY; sY; sI], 1%R); ([sZ; sI; sI], 1%R);
     ([sI; sZ; sZ], 1%R)] in
  let noncontextual_set :=
    [[sI; sZ; sZ]; [sX; sI; sI]; [sZ; sZ; sZ]; [sZ; sI; sI]] in
  let generators := [[sI; sX; sX]; [sI; sZ; sI]; [sI; sI; sZ]] in
  (forall t, lookup_term (ham_noncontextual hamiltonian noncontextual_set) t
             = if in_set noncontextual_set t then lookup_term hamiltonian t
               else None) /\
  map fst (ham_noncontextual hamiltonian noncontextual_set)
  = filter (fun t => in_set noncontextual_set t) (map fst hamiltonian) /\
  (forall t, In t (map fst (ham_noncontextual hamiltonian noncontextual_set))
             <-> In t (map fst hamiltonian) /\ In t noncontextual_set) /\
  generator_set_ok (n_qubits hamiltonian)
    (map fst (ham_noncontextual hamiltonian noncontextual_set)) generators.
Proof.
  intros hamiltonian noncontextual_set generators.
  apply (noncontextual_restriction hamiltonian noncontextual_set generators
           [[sZ; sI; sI]; [sX; sI; sI]; [sI; sZ; sZ]]).
  - repeat constructor.
  - vm_compute. reflexivity.
Defined.

End ConstructorFacts.

(* ================================================================== *)
(** * Returning to the sector of the reference state *)
(* ================================================================== *)

Module ResectorFacts.
Import GF2 Pauli Py Tapering TaperingFacts.





End ResectorFacts.

(* ================================================================== *)
(** * The inputs on which the objective has a value *)
(* ================================================================== *)

Module ObjectiveDomainFacts.
Import GF2 Pauli Py CsVqe ObjectiveFacts GroundStateSearchFacts.
Local Open Scope R_scope.

Lemma item_length {A} (l : list A) i v : item l i = Ok v -> (i < length l)%nat.
Proof.
  unfold item. destruct (nth_error l i) eqn:E; [|discriminate].
  intros _. apply nth_error_Some. congruence.
Qed.

Lemma objfnc_step_evaluable input_params t acc term v :
  objfnc_step input_params t acc term = Ok v -> evaluable input_params term.
Proof.
  destruct term as [[h_G q_indices] h_GCs]. unfold objfnc_step, evaluable.
  destruct (traverse _ q_indices) as [qs|] eqn:Eq; simpl; [|discriminate].
  destruct (item h_GCs 0) as [c0|] eqn:E0; simpl; [|discriminate].
  destruct (item h_GCs 1) as [c1|] eqn:E1; simpl; [|discriminate].
  intros _. split; [apply item_length in E1; lia|].
  apply traverse_Forall2 in Eq. apply Forall_forall. intros i Hi.
  destruct (Forall2_In_left _ _ _ Eq i Hi) as (q & _ & Hq).
  unfold get_param in Hq. destruct (input_params !! q_key i); [eauto|discriminate].
Qed.

Lemma objfnc_loop_evaluable input_params t prms : forall acc v,
  objfnc_loop input_params t acc prms = Ok v ->
  Forall (evaluable input_params) prms.
Proof.
  induction prms as [|term prms IH]; intros acc v H; [constructor|].
  simpl in H.
  destruct (objfnc_step input_params t acc term) as [s|] eqn:Es; simpl in H;
    [|discriminate].
  constructor; [eapply objfnc_step_evaluable, Es|eapply IH, H].
Qed.

Lemma objfnc_step_exception input_params t acc term e :
  objfnc_step input_params t acc term = Raise e ->
  e = IndexError \/ exists i, e = KeyError (q_key i).
Proof.
  destruct term as [[h_G q_indices] h_GCs]. unfold objfnc_step.
  destruct (traverse _ q_indices) as [qs|e'] eqn:Eq; simpl.
  - destruct (item h_GCs 0) as [c0|e0] eqn:E0; cbn [bind].
    + destruct (item h_GCs 1) as [c1|e1] eqn:E1; cbn [bind]; [discriminate|].
      intros [= <-]. left. unfold item in E1.
      destruct (nth_error h_GCs 1); congruence.
    + intros [= <-]. left. unfold item in E0.
      destruct (nth_error h_GCs 0); congruence.
  - intros [= <-]. right. clear - Eq.
    induction q_indices as [|i l IH]; simpl in Eq; [discriminate|].
    unfold get_param in Eq at 1.
    destruct (input_params !! q_key i); simpl in Eq; [|injection Eq as <-; eauto].
    destruct (traverse _ l) as [ys|e0]; simpl in Eq; [discriminate|].
    injection Eq as <-. apply IH. reflexivity.
Qed.

(** [cs_vqe.classical_obj_fnc] returns a value exactly on the inputs that
    hold [theta] and, for every stored term, a value [q_i] for each of the
    term's generator indices, every stored term carrying two clique
    coefficients or more; the value is then the energy.  On every other
    input it raises: a [KeyError] naming [theta] or the missing [q_i], or an
    [IndexError] at a term with fewer than two clique coefficients. *)
Theorem classical_obj_fnc_domain (objfncprms : list (R * list nat * list R))
    (input_params : gmap string R) :
  (forall v, classical_obj_fnc objfncprms input_params = Ok v <->
     exists theta, input_params !! "theta" = Some theta /\
       Forall (evaluable input_params) objfncprms /\
       v = energy objfncprms input_params theta) /\
  (forall e, classical_obj_fnc objfncprms input_params = Raise e ->
     e = KeyError "theta" \/ (exists i, e = KeyError (q_key i)) \/
     e = IndexError) /\
  (input_params !! "theta" = None ->
   classical_obj_fnc objfncprms input_params = Raise (KeyError "theta")).
Proof.
  unfold classical_obj_fnc, get_param. split; [|split].
  - intros v. split.
    + destruct (input_params !! "theta") as [theta|]; simpl; [|discriminate].
      intros H. exists theta. split; [reflexivity|].
      pose proof (objfnc_loop_evaluable _ _ _ _ _ H) as Hev.
      split; [exact Hev|].
      rewrite objfnc_loop_value in H by exact Hev. injection H as <-. lra.
    + intros (theta & -> & Hev & ->). simpl.
      rewrite objfnc_loop_value by exact Hev. f_equal. lra.
  - intros e. destruct (input_params !! "theta") as [theta|]; simpl;
      [|intros [= <-]; auto].
    generalize 0 at 1. induction objfncprms as [|term prms IH]; intros acc H;
      [discriminate|].
    simpl in H.
    destruct (objfnc_step input_params theta acc term) as [s|e'] eqn:Es;
      simpl in H.
    + apply (IH s), H.
    + injection H as <-. apply objfnc_step_exception in Es. tauto.
  - intros ->. reflexivity.
Qed.

End ObjectiveDomainFacts.
